(** * rCLAMPS: the alternating fit / resample engine of gibbsAlign_GLM.py

    A shallow embedding of the design-matrix builders, the weight builders,
    the latent sampler and the single-chain driver [gibbsSampleGLM], with the
    properties of the chain driver and of the matrix builders proved about
    them; and of the code around them: the observation groups
    ([getProtDistMat], [assignObsGrps], [useUniqueProteins]), the contact map
    of [getPrecomputedInputs] and the block of [main] that builds the design
    and fixes the protein order.

    Conventions of the embedding.
    - Python [int] is [Z]; list and string positions that the code indexes
      with an [int] go through [py_getitem], which wraps negative indices and
      fails out of range, as Python and numpy do.
    - A Python exception is [None] in the [option] monad (pure helpers), or
      [Raised] in the chain monad.
    - A [dict] that the code only looks up is a [gmap]; [obsGrps], whose
      iteration order decides the row layout, is the list of its items in
      iteration order (keys pairwise distinct, as in any dict), and so is
      [core] where [assignObsGrps] iterates it.
    - numpy doubles are exact rationals [Q]: rounding error, infinities and
      NaN are not modelled.
    - scikit-learn, scipy, numpy's [log] and [exp] and numpy's random
      generator form the interface [Libraries]; the engine is written over
      any instance of it. *)

From Stdlib Require Import Ascii String QArith Qabs Qround Lqa.
From stdpp Require Import base option list sorting strings gmap.

Local Open Scope Z_scope.

(** ** Python built-ins *)

(** [range(n)] *)
Definition py_range (n : Z) : list Z :=
  Z.of_nat <$> seq 0 (Z.to_nat n).

(** [l[i]] for an [int] index: negative indices count from the end. *)
Definition py_getitem {A} (l : list A) (i : Z) : option A :=
  let n := Z.of_nat (length l) in
  if 0 <=? i then l !! Z.to_nat i
  else if - n <=? i then l !! Z.to_nat (n + i)
  else None.

(** The bound of a slice, clipped as Python clips it. *)
Definition py_clip {A} (l : list A) (i : Z) : nat :=
  let n := Z.of_nat (length l) in
  Z.to_nat (Z.min n (if 0 <=? i then i else Z.max 0 (n + i))).

(** [l[:i]] and [l[i:]] and [l[i:k]] *)
Definition py_slice_to {A} (l : list A) (i : Z) : list A :=
  take (py_clip l i) l.

Definition py_slice_from {A} (l : list A) (i : Z) : list A :=
  drop (py_clip l i) l.

Definition py_slice {A} (l : list A) (i k : Z) : list A :=
  drop (py_clip l i) (take (py_clip l k) l).

(** [for a in l: body], threading the loop's variables and stopping at the
    first exception. *)
Fixpoint for_ {A S} (l : list A) (body : A → S → option S) (s : S) : option S :=
  match l with
  | [] => Some s
  | a :: l' => s' ← body a s; for_ l' body s'
  end.

(** ** Module constants *)

Definition MWID : nat := 6.
Definition MAXITER : Z := 15.
Definition SAMPLE : Z := 100.

Definition AMINO : list ascii :=
  ["A"; "C"; "D"; "E"; "F"; "G"; "H"; "I"; "K"; "L";
   "M"; "N"; "P"; "Q"; "R"; "S"; "T"; "V"; "W"; "Y"]%char.

Fixpoint index_of (c : ascii) (l : list ascii) : option nat :=
  match l with
  | [] => None
  | x :: l' => if Ascii.eqb x c then Some 0%nat else S <$> index_of c l'
  end.

(** [A2IND[c]]; a symbol outside [AMINO] is a [KeyError]. *)
Definition A2IND (c : ascii) : option nat := index_of c AMINO.

(** ** numpy arrays of the design matrices *)

(** A two-dimensional integer array: numpy keeps the number of columns also
    when there is no row. *)
Record ndarray := mk_ndarray { ncols : nat; rows : list (list Z) }.

(** [np.concatenate((a, b), axis=0)]: the column counts must agree. *)
Definition np_concatenate (a : ndarray) (b : list (list Z)) : option ndarray :=
  if forallb (λ r, Nat.eqb (length r) (ncols a)) b
  then Some (mk_ndarray (ncols a) (rows a ++ b))
  else None.

(** [np.tile(x, (k, 1))] for a flat list [x]. *)
Definition np_tile (x : list Z) (k : nat) : list (list Z) := replicate k x.

(** ** DesignMatrixBuilder: formGLM_fullX *)

(** [cur_x = [0] * numAAs;  if aa < numAAs: cur_x[aa] = 1] *)
Definition one_hot (numAAs aa : nat) : list Z :=
  let cur_x := replicate numAAs 0 in
  if (aa <? numAAs)%nat then <[aa := 1]> cur_x else cur_x.

(** The loop [for i in aa_pos] that builds the feature row [x] of one
    protein. *)
Definition encode_core (numAAs : nat) (core_seq : string) (aa_pos : list Z)
  : option (list Z) :=
  for_ aa_pos (λ i x,
    c ← py_getitem (list_ascii_of_string core_seq) i;
    aa ← A2IND c;
    Some (x ++ one_hot numAAs aa)) [].

(** One protein of a group: its row is appended four times (classifier) or
    once (regressor); any other mode string appends nothing. *)
Definition fullX_protein (core : gmap string string) (numAAs : nat)
    (modelType : string) (aa_pos : list Z) (p : string)
    (st : ndarray * Z) : option (ndarray * Z) :=
  let '(Xj, rowNum) := st in
  core_seq ← core !! p;
  x ← encode_core numAAs core_seq aa_pos;
  if String.eqb modelType "classifier" then
    Xj' ← np_concatenate Xj (np_tile x 4);
    Some (Xj', rowNum + 4)
  else if String.eqb modelType "regressor" then
    Xj' ← np_concatenate Xj (np_tile x 1);
    Some (Xj', rowNum + 1)
  else Some (Xj, rowNum).

(** One observation group: [grpInd[g] = (grpStart, rowNum - 1)]. *)
Definition fullX_group (core : gmap string string) (numAAs : nat)
    (modelType : string) (aa_pos : list Z) (grp : string * list string)
    (st : ndarray * Z * gmap string (Z * Z))
  : option (ndarray * Z * gmap string (Z * Z)) :=
  let '(Xj, rowNum, grpInd) := st in
  let '(g, members) := grp in
  let grpStart := rowNum in
  '(Xj', rowNum') ← for_ members (fullX_protein core numAAs modelType aa_pos)
                       (Xj, rowNum);
  let grpEnd := rowNum' - 1 in
  Some (Xj', rowNum', <[g := (grpStart, grpEnd)]> grpInd).

(** One window position [j]. *)
Definition fullX_position (core : gmap string string)
    (edges : gmap nat (list Z)) (obsGrps : list (string * list string))
    (numAAs : nat) (modelType : string) (j : nat)
    (st : gmap nat ndarray * gmap string (Z * Z))
  : option (gmap nat ndarray * gmap string (Z * Z)) :=
  let '(X, grpInd) := st in
  aa_pos ← edges !! j;
  let E_j := length aa_pos in
  let Xj := mk_ndarray (numAAs * E_j) [] in
  '(Xj', _, grpInd') ← for_ obsGrps (fullX_group core numAAs modelType aa_pos)
                         (Xj, 0, grpInd);
  Some (<[j := Xj']> X, grpInd').

(** [formGLM_fullX(core, edges, uniqueProteins, obsGrps, numAAs, modelType)];
    [uniqueProteins] is not read by the body. *)
Definition formGLM_fullX (core : gmap string string)
    (edges : gmap nat (list Z)) (uniqueProteins : list string)
    (obsGrps : list (string * list string))
    (numAAs : nat) (modelType : string)
  : option (gmap nat ndarray * gmap string (Z * Z)) :=
  for_ (seq 0 MWID) (fullX_position core edges obsGrps numAAs modelType) (∅, ∅).

(** What [encode_core] returns: one block per contact index. *)
Definition encodes (numAAs : nat) (core_seq : string) (aa_pos : list Z)
    (x : list Z) : Prop :=
  ∃ aas, Forall2 (λ i aa, ∃ c, py_getitem (list_ascii_of_string core_seq) i = Some c
                               ∧ A2IND c = Some aa) aa_pos aas
         ∧ Forall (λ aa, (aa < 20)%nat) aas
         ∧ x = concat (one_hot numAAs <$> aas).

(** The feature row of protein [p] for the contact indices [aa_pos]. *)
Definition protein_row (core : gmap string string) (numAAs : nat)
    (aa_pos : list Z) (p : string) (x : list Z) : Prop :=
  ∃ core_seq, core !! p = Some core_seq ∧ encodes numAAs core_seq aa_pos x.

(** Inputs on which [formGLM_fullX] raises nothing: every window position
    has its contact list, every protein of a group has a core sequence, and
    every contact index names a residue of that sequence that is one of the
    twenty amino acids. *)
Definition well_formed_design (core : gmap string string)
    (edges : gmap nat (list Z)) (obsGrps : list (string * list string)) : Prop :=
  ∀ j, (j < MWID)%nat →
    ∃ aa_pos, edges !! j = Some aa_pos
      ∧ ∀ p, p ∈ concat (obsGrps.*2) →
          ∃ core_seq, core !! p = Some core_seq
            ∧ ∀ i, i ∈ aa_pos →
                ∃ c, py_getitem (list_ascii_of_string core_seq) i = Some c
                     ∧ is_Some (A2IND c).

(** The number of matrix rows a protein takes in a mode. *)
Definition rows_per_protein (modelType : string) : nat :=
  if String.eqb modelType "classifier" then 4
  else if String.eqb modelType "regressor" then 1
  else 0.

(** The proteins of all groups, in traversal order. *)
Definition group_members (obsGrps : list (string * list string)) : list string :=
  concat (obsGrps.*2).

(** The default of the keyword argument [numAAs]. *)
Definition numAAs_default : nat := 19.


(** ** formGLM_trainX, formGLM_testX, formGLM_Y *)

(** [np.delete(M, range(a, b+1), 0)] as the numpy releases that run under
    Python 2 (up to 1.16) do it for a list of indices: the rows whose index
    is listed are removed; a listed index beyond the last row and a listed
    negative index are dropped with a warning and remove nothing. *)
Definition np_delete_rows (M : ndarray) (a b : Z) : ndarray :=
  let listed (i : Z) := (a <=? i) && (i <=? b) in
  mk_ndarray (ncols M)
    (snd <$> filter (λ ir, listed (Z.of_nat (fst ir)) = false)
                    (imap (λ i r, (i, r)) (rows M))).

(** [formGLM_trainX(X, startInd_ho, endIndex_ho)]; the conversion to a
    sparse matrix keeps the entries. *)
Definition formGLM_trainX (X : gmap nat ndarray) (startInd_ho endIndex_ho : Z)
  : option (gmap nat ndarray) :=
  for_ (seq 0 MWID) (λ j trainX,
    Xj ← X !! j;
    Some (<[j := np_delete_rows Xj startInd_ho endIndex_ho]> trainX)) ∅.

(** [M[a:b,]] *)
Definition np_row_slice (M : ndarray) (a b : Z) : ndarray :=
  mk_ndarray (ncols M) (py_slice (rows M) a b).

(** [formGLM_testX(X, index, modelType)]; with a mode that is neither
    'classifier' nor 'regressor' the function returns [None], the Python
    value, here an empty dict since every later use is a lookup. *)
Definition formGLM_testX (X : gmap nat ndarray) (index : Z) (modelType : string)
  : option (gmap nat ndarray) :=
  if String.eqb modelType "classifier" then
    for_ (seq 0 MWID) (λ j testX,
      Xj ← X !! j;
      Some (<[j := np_row_slice Xj (4 * index) (4 * index + 4)]> testX)) ∅
  else if String.eqb modelType "regressor" then
    for_ (seq 0 MWID) (λ j testX,
      Xj ← X !! j;
      Some (<[j := np_row_slice Xj index (index + 1)]> testX)) ∅
  else Some ∅.

(** [[0,1,2,3] * n] *)
Definition py_repeat {A} (l : list A) (n : nat) : list A :=
  concat (replicate n l).

(** [formGLM_Y(keysToUse)] *)
Definition formGLM_Y (keysToUse : list string) : gmap nat (list Z) :=
  let n := length keysToUse in
  foldl (λ Y j, <[j := py_repeat [0; 1; 2; 3] n]> Y) ∅ (seq 0 MWID).

(** The training proteins of a sweep step:
    [uniqueProteins[:startInd_ho/4] + uniqueProteins[endIndex_ho/4+1:]],
    with Python 2's floor division on [int]. *)
Definition trainProteins_of (uniqueProteins : list string)
    (startInd_ho endIndex_ho : Z) : list string :=
  py_slice_to uniqueProteins (startInd_ho / 4)
  ++ py_slice_from uniqueProteins (endIndex_ho / 4 + 1).

(** ** WeightBuilder: formGLM_trainW, formGLM_testW *)

(** Modelled from the spec: [matrix_compl] is imported from matAlignLib,
    which is not among the sources. The spec describes the orientation
    transform as mapping base [b] to base [complement(b)] at the mirrored
    position, and the complement table COMPL_BASE = {0:3, 1:2, 2:1, 3:0}
    mirrors the four columns. *)
Definition matrix_compl (pwm : list (list Q)) : list (list Q) :=
  reverse (reverse <$> pwm).

(** The oriented PWM of a protein:
    [if rev[protein] == 1: pwm = matrix_compl(pwms[protein]) else: pwm = pwms[protein]] *)
Definition oriented_pwm (pwms : gmap string (list (list Q)))
    (rev : gmap string Z) (protein : string) : option (list (list Q)) :=
  r ← rev !! protein;
  pwm ← pwms !! protein;
  Some (if r =? 1 then matrix_compl pwm else pwm).

(** [for j in range(MWID): w[j] = pwm[j+start[protein]][:]] *)
Definition window_rows (pwm : list (list Q)) (start : gmap string Z)
    (protein : string) : option (gmap nat (list Q)) :=
  for_ (seq 0 MWID) (λ j w,
    s ← start !! protein;
    row ← py_getitem pwm (Z.of_nat j + s);
    Some (<[j := row]> w)) ∅.

(** The first loop of [formGLM_trainW]: the dict [weights]. *)
Definition protein_weights (pwms : gmap string (list (list Q)))
    (uniqueProteins : list string) (start rev : gmap string Z)
  : option (gmap string (gmap nat (list Q))) :=
  for_ uniqueProteins (λ protein weights,
    pwm ← oriented_pwm pwms rev protein;
    w ← window_rows pwm start protein;
    Some (<[protein := w]> weights)) ∅.

(** An entry of the object array that [np.concatenate(({}, row), axis=None)]
    builds: the leading empty dict, or a float. *)
Inductive np_obj := obj_dict | obj_float (q : Q).

Definition obj_to_float (o : np_obj) : option Q :=
  match o with obj_dict => None | obj_float q => Some q end.

(** Python's [sum] of a list of floats. *)
Definition Qsum (l : list Q) : Q := foldl Qplus 0%Q l.

(** The result of [formGLM_trainW]: in classifier mode a weight vector per
    window position, in regressor mode a vector per position and base. *)
Inductive trainW_t :=
  | W_classifier (W : gmap nat (list Q))
  | W_regressor (W : gmap nat (gmap nat (list Q))).

(** The classifier branch for one [j]. Starting the accumulator at the
    flattened [{}] and slicing it off afterwards is what the code does; with
    no protein at all the slice is applied to the dict itself and raises.
    The entries of the object array are Python floats and [sum(W[j])] is
    their total: dividing an entry by a zero total is a ZeroDivisionError,
    and an array without entries is divided without any division. *)
Definition trainW_classifier_position
    (weights : gmap string (gmap nat (list Q)))
    (uniqueProteins : list string) (j : nat) : option (list Q) :=
  Wj ← for_ uniqueProteins (λ protein Wj,
          w ← weights !! protein;
          row ← w !! j;
          Some (Wj ++ (obj_float <$> row))) [obj_dict];
  if decide (uniqueProteins = []) then None else
  Wj ← mapM obj_to_float (py_slice Wj 1 (Z.of_nat (length Wj)));
  let total := Qsum Wj in
  if Qeq_bool total 0 then match Wj with [] => Some [] | _ :: _ => None end else
  Some ((λ x, x / total)%Q <$> Wj).

(** The regressor branch for one [j]: base index [b] stands for
    [B2IND[base]], [base] running over BASE. *)
Definition trainW_regressor_position
    (weights : gmap string (gmap nat (list Q)))
    (uniqueProteins : list string) (j : nat) : option (gmap nat (list Q)) :=
  for_ (seq 0 4) (λ b Wj,
    col ← mapM (λ protein,
              w ← weights !! protein;
              row ← w !! j;
              py_getitem row (Z.of_nat b)) uniqueProteins;
    Some (<[b := col]> Wj)) ∅.

(** [formGLM_trainW(pwms, uniqueProteins, start, rev, modelType)] *)
Definition formGLM_trainW (pwms : gmap string (list (list Q)))
    (uniqueProteins : list string) (start rev : gmap string Z)
    (modelType : string) : option trainW_t :=
  weights ← protein_weights pwms uniqueProteins start rev;
  if String.eqb modelType "classifier" then
    W_classifier <$> for_ (seq 0 MWID) (λ j W,
      Wj ← trainW_classifier_position weights uniqueProteins j;
      Some (<[j := Wj]> W)) ∅
  else if String.eqb modelType "regressor" then
    W_regressor <$> for_ (seq 0 MWID) (λ j W,
      Wj ← trainW_regressor_position weights uniqueProteins j;
      Some (<[j := Wj]> W)) ∅
  else Some (W_classifier ∅).

(** [formGLM_testW(pwms, index, uniqueProteins, start, rev)] *)
Definition formGLM_testW (pwms : gmap string (list (list Q))) (index : Z)
    (uniqueProteins : list string) (start rev : gmap string Z)
  : option (gmap nat (list Q)) :=
  protein ← py_getitem uniqueProteins index;
  pwm ← oriented_pwm pwms rev protein;
  window_rows pwm start protein.

(** The oriented PWM row of a protein at window position [j]: row
    [start[protein] + j] of its PWM, complemented first when
    [rev[protein] == 1]. The statements about the weight vectors refer to
    it. *)
Definition oriented_row (pwms : gmap string (list (list Q)))
    (start rev : gmap string Z) (protein : string) (j : nat) : option (list Q) :=
  pwm ← oriented_pwm pwms rev protein;
  s ← start !! protein;
  py_getitem pwm (Z.of_nat j + s).

(** Inputs on which [formGLM_trainW] finds every PWM row it reads: at
    least one protein, and for every protein a PWM, a start and an
    orientation such that the window lies inside the PWM. *)
Definition well_formed_registers (pwms : gmap string (list (list Q)))
    (uniqueProteins : list string) (start rev : gmap string Z) : Prop :=
  uniqueProteins ≠ []
  ∧ ∀ p, p ∈ uniqueProteins →
      ∃ pwm s r, pwms !! p = Some pwm ∧ start !! p = Some s ∧ rev !! p = Some r
                 ∧ 0 ≤ s ∧ s + Z.of_nat MWID ≤ Z.of_nat (length pwm).

(** No window position at which the oriented PWM rows of the proteins have
    entries that add up to zero: the divisor of line 990 is then non-zero
    wherever an entry is divided by it. *)
Definition window_mass_nonzero (pwms : gmap string (list (list Q)))
    (uniqueProteins : list string) (start rev : gmap string Z) : Prop :=
  ∀ (j : nat) rows_, (j < MWID)%nat →
    Forall2 (λ p row, oriented_row pwms start rev p j = Some row)
      uniqueProteins rows_ →
    concat rows_ ≠ [] → ¬ (Qsum (concat rows_) == 0)%Q.

(** ** Floats *)

(** [x < y] on floats. *)
Definition Qltb (x y : Q) : bool := negb (Qle_bool y x).

(** Python 2's [round]: halves go away from zero. *)
Definition py2_round (x : Q) : Z :=
  if Qle_bool 0 x then Qfloor (x + (1 # 2)) else Qceiling (x - (1 # 2)).

(** [np.dot(a, b)] of two vectors; the lengths must agree. *)
Definition np_dot (a b : list Q) : option Q :=
  if decide (length a = length b)
  then Some (Qsum (zip_with Qmult a b)) else None.

(** [lls.max()]; the empty array raises. *)
Definition np_max (l : list Q) : option Q :=
  match l with
  | [] => None
  | x :: l' => Some (foldl (λ m y, if Qltb m y then y else m) x l')
  end.

(** [np.argmax(l)]: the first position of the maximum. *)
Definition np_argmax (l : list Q) : option nat :=
  match l with
  | [] => None
  | x :: l' =>
      Some (foldl (λ '(best, m, i) y,
                if Qltb m y then (i, y, S i) else (best, m, S i))
              (0%nat, x, 1%nat) l').1.1
  end.

(** The initial value of [bestll]: the literal [-1e30]. *)
Definition bestll_init : Q := (- (10 ^ 30))%Z # 1.

(** The absolute tolerance [tol = 1.0] of the convergence test. *)
Definition tol : Q := 1.

(** ** GLMFitter, LatentSampler and ChainDriver

    The library calls of the code form an interface: the scikit-learn
    classifier, the scipy and scikit-learn scores, numpy's elementwise [log]
    and [exp], and the process-wide random generator, whose state [Rng] is
    threaded through the calls that draw from it. *)

Class Libraries := {
  Classifier : Type;
  Rng : Type;
  (** [LogisticRegression(...).fit(X, y, sample_weight=w)] *)
  LogisticRegression_fit : ndarray → list Z → list Q → option Classifier;
  (** [clf.predict_proba(X)] *)
  predict_proba : Classifier → ndarray → option (list (list Q));
  np_log : Q → Q;
  np_exp : Q → Q;
  (** [scipy.stats.pearsonr(a, b)[0]] *)
  pearsonr : list Q → list Q → option Q;
  (** [sklearn.metrics.mean_squared_error(a, b)] *)
  mean_squared_error : list Q → list Q → option Q;
  (** [np.random.seed(randSeed)]; [None] is the call without argument. *)
  np_random_seed : option Z → Rng;
  (** [np.random.randint(low, high)] *)
  np_random_randint : Z → Z → Rng → option (Z * Rng);
  (** [np.random.choice(range(len(p)), 1, p=p)[0]] *)
  np_random_choice : list Q → Rng → option (Z * Rng)
}.

Section Engine.

Context `{Libraries}.

(** [createGLMModel(trainX, trainY, trainW)] *)
Definition createGLMModel (trainX : gmap nat ndarray) (trainY : gmap nat (list Z))
    (trainW : gmap nat (list Q)) : option (gmap nat Classifier) :=
  for_ (seq 0 MWID) (λ j model,
    Xj ← trainX !! j;
    Yj ← trainY !! j;
    Wj ← trainW !! j;
    clf ← LogisticRegression_fit Xj Yj Wj;
    Some (<[j := clf]> model)) ∅.

(** [computeGLMLoglikelihood(testX, testW, model)]. The product
    [testW[j]*n] is exact here, where the code multiplies doubles: a weight
    whose double product falls on the other side of a half is rounded to
    the neighbouring count by the code. *)
Definition computeGLMLoglikelihood (testX : gmap nat ndarray)
    (testW : gmap nat (list Q)) (model : gmap nat Classifier) : option Q :=
  ll ← for_ (seq 0 MWID) (λ j ll,
          clf ← model !! j;
          Xj ← testX !! j;
          pred ← predict_proba clf Xj;
          prediction ← py_getitem pred 0;
          let n := SAMPLE in
          Wj ← testW !! j;
          let sample := (λ x, inject_Z (py2_round (x * inject_Z n))) <$> Wj in
          llj ← np_dot (np_log <$> prediction) sample;
          Some (<[j := llj]> ll)) (replicate MWID 0%Q);
  Some (Qsum ll).

(** The log-likelihood of the held-out protein at the candidate register
    [(s, r)]: the body of the two loops of [sampleStartPosGLM]. *)
Definition candidate_ll (testX : gmap nat ndarray) (uniqueProteins : list string)
    (index : Z) (pwms : gmap string (list (list Q)))
    (model : gmap nat Classifier) (holdout : string) (s r : Z) : option Q :=
  let start : gmap string Z := {[ holdout := s ]} in
  let rev : gmap string Z := {[ holdout := r ]} in
  testW ← formGLM_testW pwms index uniqueProteins start rev;
  computeGLMLoglikelihood testX testW model.

(** The list [lls] when the two loops end: for [r] in [range(2)], for [s] in
    [range(seqWid-mWid+1)], append. *)
Definition candidate_lls (testX : gmap nat ndarray) (uniqueProteins : list string)
    (index : Z) (pwms : gmap string (list (list Q)))
    (model : gmap nat Classifier) (holdout : string) (seqWid mWid : Z)
  : option (list Q) :=
  for_ (py_range 2) (λ r lls,
    for_ (py_range (seqWid - mWid + 1)) (λ s lls,
      ll ← candidate_ll testX uniqueProteins index pwms model holdout s r;
      Some (lls ++ [ll])) lls) [].

(** The decoding of the drawn flat index [s], [n] being [len(lls)]:
    [r = 0; if s >= len(lls)/2: r = 1;  s = s % (len(lls)/2)]. *)
Definition decode_register (n : Z) (s : Z) : Z * Z :=
  let r := if n / 2 <=? s then 1 else 0 in
  (s mod (n / 2), r).

(** [sampleStartPosGLM(testX, uniqueProteins, index, pwms, edges, model)];
    returns [(s, r, lls)] and the generator's next state. *)
Definition sampleStartPosGLM (testX : gmap nat ndarray)
    (uniqueProteins : list string) (index : Z)
    (pwms : gmap string (list (list Q))) (edges : gmap nat (list Z))
    (model : gmap nat Classifier) (g : Rng)
  : option (Z * Z * list Q * Rng) :=
  holdout ← py_getitem uniqueProteins index;
  pwm ← pwms !! holdout;
  let seqWid := Z.of_nat (length pwm) in
  let mWid := Z.of_nat (size edges) in
  lls ← candidate_lls testX uniqueProteins index pwms model holdout seqWid mWid;
  m ← np_max lls;
  let lls := (λ x, np_exp (x - m)) <$> lls in
  let total := Qsum lls in
  '(s, g') ← np_random_choice ((λ x, x / total)%Q <$> lls) g;
  let n := Z.of_nat (length lls) in
  if n / 2 =? 0 then None else
  let '(s, r) := decode_register n s in
  Some (s, r, lls, g').

(** [form_model(fullX, uniqueProteins, pwms, start, rev)] *)
Definition form_model (fullX : gmap nat ndarray) (uniqueProteins : list string)
    (pwms : gmap string (list (list Q))) (start rev : gmap string Z)
  : option (gmap nat Classifier) :=
  let X := fullX in
  let Y := formGLM_Y uniqueProteins in
  W ← formGLM_trainW pwms uniqueProteins start rev "classifier";
  match W with
  | W_classifier W => createGLMModel X Y W
  | W_regressor _ => None
  end.

(** *** Diagnostics *)

(** The oriented PWM row that the two diagnostics compare a prediction
    with: [pwm = pwms[p]; if rev[p] == 1: pwm = matrix_compl(pwm);
    true = pwm[j+start[p]][:]]. *)
Definition true_row (pwms : gmap string (list (list Q)))
    (start rev : gmap string Z) (p : string) (j : nat) : option (list Q) :=
  pwm ← pwms !! p;
  r ← rev !! p;
  let pwm := if r =? 1 then matrix_compl pwm else pwm in
  s ← start !! p;
  py_getitem pwm (Z.of_nat j + s).

(** [model[j].predict_proba(formGLM_testX(fullX, i)[j])[0]] *)
Definition predicted_row (model : gmap nat Classifier) (fullX : gmap nat ndarray)
    (i j : nat) : option (list Q) :=
  testX ← formGLM_testX fullX (Z.of_nat i) "classifier";
  clf ← model !! j;
  Xj ← testX !! j;
  pred ← predict_proba clf Xj;
  py_getitem pred 0.

(** [x / float(len(l))] *)
Definition div_len {A} (x : Q) (l : list A) : option Q :=
  if decide (l = []) then None
  else Some (x / inject_Z (Z.of_nat (length l)))%Q.

(** [computePC_agree(model, uniqueProteins, pwms, start, rev, fullX)] *)
Definition computePC_agree (model : gmap nat Classifier)
    (uniqueProteins : list string) (pwms : gmap string (list (list Q)))
    (start rev : gmap string Z) (fullX : gmap nat ndarray)
  : option (gmap nat Q) :=
  for_ (seq 0 MWID) (λ j align_match,
    match_ ← for_ (imap (λ i p, (i, p)) uniqueProteins) (λ '(i, p) match_,
               pred0 ← predicted_row model fullX i j;
               true ← true_row pwms start rev p j;
               c ← pearsonr pred0 true;
               Some (if Qle_bool (1 # 2) c then match_ + 1 else match_)) 0;
    a ← div_len (inject_Z match_) uniqueProteins;
    Some (<[j := a]> align_match)) ∅.

(** [compute_MSE(model, uniqueProteins, pwms, start, rev, fullX)] *)
Definition compute_MSE (model : gmap nat Classifier)
    (uniqueProteins : list string) (pwms : gmap string (list (list Q)))
    (start rev : gmap string Z) (fullX : gmap nat ndarray)
  : option (gmap nat Q) :=
  for_ (seq 0 MWID) (λ j mse_dic,
    mse ← for_ (imap (λ i p, (i, p)) uniqueProteins) (λ '(i, p) mse,
            pred0 ← predicted_row model fullX i j;
            true ← true_row pwms start rev p j;
            e ← mean_squared_error true pred0;
            Some (mse + e)%Q) 0%Q;
    a ← div_len mse uniqueProteins;
    Some (<[j := a]> mse_dic)) ∅.

(** *** The chain's store

    [start], [rev], [bestStart] and [bestRev] are names for dict objects; a
    name holds a location of the store, an assignment between names copies
    the location, and [deepcopy] allocates. *)

Record world := mk_world { w_rng : Rng; w_heap : gmap nat (gmap string Z) }.

Inductive outcome (A : Type) :=
  | Returned (a : A) (w : world)
  | Raised
  | OutOfFuel.
Arguments Returned {A} a w.
Arguments Raised {A}.
Arguments OutOfFuel {A}.

Definition chain (A : Type) : Type := world → outcome A.

Definition chain_ret {A} (a : A) : chain A := λ w, Returned a w.

Definition chain_bind {A B} (m : chain A) (k : A → chain B) : chain B :=
  λ w, match m w with
       | Returned a w' => k a w'
       | Raised => Raised
       | OutOfFuel => OutOfFuel
       end.

#[global] Instance chain_mret : MRet chain := @chain_ret.
#[global] Instance chain_mbind : MBind chain := λ A B k m, chain_bind m k.

(** A pure step that may raise. *)
Definition lift {A} (o : option A) : chain A :=
  λ w, match o with Some a => Returned a w | None => Raised end.

(** A step that draws from the random generator. *)
Definition draw {A} (f : Rng → option (A * Rng)) : chain A :=
  λ w, match f (w_rng w) with
       | Some (a, g) => Returned a (mk_world g (w_heap w))
       | None => Raised
       end.

(** A new dict object. *)
Definition new_dict (d : gmap string Z) : chain nat :=
  λ w, let l := fresh (dom (w_heap w)) in
       Returned l (mk_world (w_rng w) (<[l := d]> (w_heap w))).

(** The dict a name refers to. *)
Definition deref (l : nat) : chain (gmap string Z) :=
  λ w, match w_heap w !! l with Some d => Returned d w | None => Raised end.

(** [d[k] = v] on the object at [l]. *)
Definition setitem (l : nat) (k : string) (v : Z) : chain unit :=
  λ w, match w_heap w !! l with
       | Some d => Returned () (mk_world (w_rng w) (<[l := <[k := v]> d]> (w_heap w)))
       | None => Raised
       end.

(** [deepcopy(d)] *)
Definition deepcopy (l : nat) : chain nat :=
  d ← deref l; new_dict d.

(** [for a in l: body] in the chain monad. *)
Fixpoint cfor {A S} (l : list A) (body : A → S → chain S) (s : S) : chain S :=
  match l with
  | [] => mret s
  | a :: l' => s' ← body a s; cfor l' body s'
  end.

(** Partial correctness of a chain step: when the step returns, the
    postcondition holds of its value and world. *)
Definition wp {A} (m : chain A) (post : A → world → Prop) (w : world) : Prop :=
  ∀ a w', m w = Returned a w' → post a w'.

(** *** initStarts *)

(** [initStarts(uniqueProteins, pwms, mWid, fixedStarts)]: the two dicts are
    created first and filled protein by protein; a pinned protein takes the
    supplied pair [(start, rev)]. *)
Definition initStarts (uniqueProteins : list string)
    (pwms : gmap string (list (list Q))) (mWid : Z)
    (fixedStarts : gmap string (Z * Z)) : chain (nat * nat) :=
  start ← new_dict ∅;
  rev ← new_dict ∅;
  _ ← cfor uniqueProteins (λ k (_ : unit),
        match fixedStarts !! k with
        | None =>
            r ← draw (np_random_randint 0 2);
            _ ← setitem rev k r;
            pwm ← lift (pwms !! k);
            s ← draw (np_random_randint 0 (Z.of_nat (length pwm) - mWid + 1));
            setitem start k s
        | Some (fs, fr) =>
            _ ← setitem rev k fr;
            setitem start k fs
        end) ();
  mret (start, rev).

(** *** gibbsSampleGLM *)

(** The local variables of the while loop. [v_start], [v_rev], [v_bestStart]
    and [v_bestRev] hold locations of the store; [v_model] is unbound until
    a first group has been fitted. *)
Record locals := mk_locals {
  v_nIters : Z;
  v_start : nat;
  v_rev : nat;
  v_bestStart : nat;
  v_bestRev : nat;
  v_bestll : Q;
  v_llsAll : list Q;
  v_converged : bool;
  v_model : option (gmap nat Classifier)
}.

(** The inputs of a chain that stay fixed while it runs. *)
Record chain_inputs := mk_inputs {
  pwms : gmap string (list (list Q));
  edges : gmap nat (list Z);
  uniqueProteins : list string;
  obsGrps : list (string * list string);
  fullX : gmap nat ndarray;
  grpInd : gmap string (Z * Z);
  maxIters : Z;
  randSeed : option Z;
  verbose : bool;
  orientKey : option string;
  orient : option Z;
  fixedStarts : gmap string (Z * Z);
  init_oracle : bool;
  (** what [pickle.load] reads from 'nbres.pickle' when [init_oracle] is
      set: per entry the fields 'll', 'start' and 'rev' *)
  nbres_pickle : option (list (Q * gmap string Z * gmap string Z))
}.

Section Chain.

Variable inp : chain_inputs.

(** The body of [for p in obsGrps[grpID]]: a pinned protein is skipped, any
    other is resampled and written to [start] and [rev] at once. *)
Definition resample_protein (model : gmap nat Classifier) (start rev : nat)
    (p : string) (st : Z * Z) : chain (Z * Z) :=
  let '(valuesChanged, index_p) := st in
  if decide (is_Some (fixedStarts inp !! p)) then
    mret (valuesChanged, index_p + 1)
  else
    testX ← lift (formGLM_testX (fullX inp) index_p "classifier");
    '(s, r, lls) ← draw (sampleStartPosGLM testX (uniqueProteins inp) index_p
                           (pwms inp) (edges inp) model);
    startd ← deref start;
    sp ← lift (startd !! p);
    changed ← (if decide (s ≠ sp) then mret true
               else revd ← deref rev;
                    rp ← lift (revd !! p);
                    mret (bool_decide (r ≠ rp)));
    let valuesChanged := if changed : bool then valuesChanged + 1 else valuesChanged in
    _ ← setitem start p s;
    _ ← setitem rev p r;
    mret (valuesChanged, index_p + 1).

(** The body of [for grpID in obsGrps.keys()]: fit on all but the held-out
    group, then resample the group's proteins. The loop carries
    [valuesChanged] and the last fitted [model]. *)
Definition sweep_group (start rev : nat) (grp : string * list string)
    (st : Z * option (gmap nat Classifier))
  : chain (Z * option (gmap nat Classifier)) :=
  let '(valuesChanged, _) := st in
  let '(grpID, members) := grp in
  '(startInd_ho, endIndex_ho) ← lift (grpInd inp !! grpID);
  let trainProteins := trainProteins_of (uniqueProteins inp) startInd_ho endIndex_ho in
  trainX ← lift (formGLM_trainX (fullX inp) startInd_ho endIndex_ho);
  let trainY := formGLM_Y trainProteins in
  startd ← deref start;
  revd ← deref rev;
  trainW ← lift (formGLM_trainW (pwms inp) trainProteins startd revd "classifier");
  model ← lift (match trainW with
                | W_classifier W => createGLMModel trainX trainY W
                | W_regressor _ => None
                end);
  let index_p := startInd_ho / 4 in
  '(valuesChanged, _) ← cfor members (resample_protein model start rev)
                          (valuesChanged, index_p);
  mret (valuesChanged, Some model).

(** The full-data log-likelihood computed after a sweep, under the model
    left by the last group. *)
Definition sweep_ll (model : option (gmap nat Classifier)) (start rev : nat)
  : chain Q :=
  startd ← deref start;
  revd ← deref rev;
  lift (for_ (imap (λ i p, (i, p)) (uniqueProteins inp)) (λ '(i, p) ll,
          testX ← formGLM_testX (fullX inp) (Z.of_nat i) "classifier";
          testW ← formGLM_testW (pwms inp) (Z.of_nat i) (uniqueProteins inp) startd revd;
          model ← model;
          lli ← computeGLMLoglikelihood testX testW model;
          Some (ll + lli)%Q) 0%Q).

(** The convergence test: the number of the last [min(llLen, 5)] recorded
    values within [tol] of [ll]. *)
Definition count_within_tol (ll : Q) (llsAll : list Q) : option Z :=
  let llLen := Z.of_nat (length llsAll) in
  for_ (py_range (Z.min llLen 5)) (λ i nIterLTtol,
    prev ← py_getitem llsAll (llLen - i - 1);
    let delta := Qabs (ll - prev) in
    Some (if Qltb delta tol then nIterLTtol + 1 else nIterLTtol)) 0.

(** One pass of the while loop's body: the sweep over all groups, the
    log-likelihood of the sweep, the best-so-far update and the convergence
    test. [bestStart = start] and [bestRev = rev] copy the names, not the
    dicts. *)
Definition gibbs_iteration (ls : locals) : chain locals :=
  let start := v_start ls in
  let rev := v_rev ls in
  '(valuesChanged, model) ← cfor (obsGrps inp) (sweep_group start rev)
                              (0, v_model ls);
  let nIters := v_nIters ls + 1 in
  ll ← sweep_ll model start rev;
  _ ← (if verbose inp then
         startd ← deref start;
         revd ← deref rev;
         lift (m ← model;
               computePC_agree m (uniqueProteins inp) (pwms inp) startd revd
                 (fullX inp))
       else mret ∅);
  let '(bestll, bestStart, bestRev) :=
    if Qltb (v_bestll ls) ll then (ll, start, rev)
    else (v_bestll ls, v_bestStart ls, v_bestRev ls) in
  nIterLTtol ← lift (count_within_tol ll (v_llsAll ls));
  let converged := if nIterLTtol =? 5 then true else v_converged ls in
  mret (mk_locals nIters start rev bestStart bestRev bestll
          (v_llsAll ls ++ [ll]) converged model).

(** [while nIters < maxIters and not converged: ...]. The recursion is on
    [fuel]; [gibbsSampleGLM] supplies [maxIters] of it, which the loop never
    exhausts. *)
Fixpoint gibbs_loop (fuel : nat) (ls : locals) : chain locals :=
  if (v_nIters ls <? maxIters inp) && negb (v_converged ls) then
    match fuel with
    | O => λ _, OutOfFuel
    | S fuel' => ls' ← gibbs_iteration ls; gibbs_loop fuel' ls'
    end
  else mret ls.

(** The record that [gibbsSampleGLM] returns; the dicts are given by their
    content at the return. *)
Record ChainResult := mk_result {
  res_start : gmap string Z;
  res_rev : gmap string Z;
  res_ll : Q;
  res_reorient : bool;
  res_PC_agree : gmap nat Q;
  res_init_PC_agree : gmap nat Q;
  res_score : Q;
  res_init_mse : gmap nat Q;
  res_final_mse : gmap nat Q;
  res_final_model : gmap nat Classifier
}.

(** The initial registers: read from the pickled results when [init_oracle]
    is set, drawn by [initStarts] otherwise. *)
Definition gibbs_registers : chain (nat * nat) :=
  let mWid := Z.of_nat (size (edges inp)) in
  if init_oracle inp then
    nb_res ← lift (nbres_pickle inp);
    let nb_ll := (λ x, x.1.1) <$> nb_res in
    let nb_S := (λ x, x.1.2) <$> nb_res in
    let nb_O := (λ x, x.2) <$> nb_res in
    nb_opt ← lift (np_argmax nb_ll);
    s ← lift (nb_S !! nb_opt);
    r ← lift (nb_O !! nb_opt);
    start ← new_dict s;
    rev ← new_dict r;
    mret (start, rev)
  else initStarts (uniqueProteins inp) (pwms inp) mWid (fixedStarts inp).

(** The code before the while loop. *)
Definition gibbs_init : chain (locals * gmap nat Q * gmap nat Q) :=
  '(start, rev) ← gibbs_registers;
  startd ← deref start;
  revd ← deref rev;
  init_model ← lift (form_model (fullX inp) (uniqueProteins inp) (pwms inp) startd revd);
  init_PC_agree ← lift (computePC_agree init_model (uniqueProteins inp) (pwms inp)
                          startd revd (fullX inp));
  init_mse ← lift (compute_MSE init_model (uniqueProteins inp) (pwms inp)
                     startd revd (fullX inp));
  let nIters := 0 in
  bestStart ← deepcopy start;
  bestRev ← deepcopy rev;
  let bestll := bestll_init in
  let llsAll := [bestll] in
  let converged := false in
  mret (mk_locals nIters start rev bestStart bestRev bestll llsAll converged None,
        init_PC_agree, init_mse).

(** The code after the while loop. *)
Definition gibbs_finish (ls : locals) (init_PC_agree init_mse : gmap nat Q)
  : chain ChainResult :=
  let start := v_bestStart ls in
  let rev := v_bestRev ls in
  let ll := v_bestll ls in
  startd ← deref start;
  revd ← deref rev;
  final_model ← lift (form_model (fullX inp) (uniqueProteins inp) (pwms inp) startd revd);
  PC_agree ← lift (computePC_agree final_model (uniqueProteins inp) (pwms inp)
                     startd revd (fullX inp));
  final_mse ← lift (compute_MSE final_model (uniqueProteins inp) (pwms inp)
                      startd revd (fullX inp));
  let reorient := false in
  final_model ← lift (form_model (fullX inp) (uniqueProteins inp) (pwms inp) startd revd);
  PC_agree ← lift (computePC_agree final_model (uniqueProteins inp) (pwms inp)
                     startd revd (fullX inp));
  mret (mk_result startd revd ll reorient PC_agree init_PC_agree
          (Qsum (snd <$> map_to_list PC_agree)) init_mse final_mse final_model).

(** The world a chain starts in: the generator reseeded from [randSeed], no
    dict object of the chain allocated yet. *)
Definition gibbs_world : world :=
  mk_world (np_random_seed (randSeed inp)) ∅.

(** [np.random.seed(randSeed)] raises ValueError for a seed outside
    [0, 2**32 - 1]; the call without argument takes any state. *)
Definition seed_in_range (randSeed : option Z) : bool :=
  match randSeed with
  | None => true
  | Some z => (0 <=? z) && (z <? 2 ^ 32)
  end.

(** A run from the reseeding on: it raises at once on a seed that numpy
    refuses, and starts in [gibbs_world] otherwise. *)
Definition seeded {A} (m : chain A) : outcome A :=
  if seed_in_range (randSeed inp) then m gibbs_world else Raised.

(** The code up to the exit of the while loop. *)
Definition gibbs_sweeps : chain (locals * gmap nat Q * gmap nat Q) :=
  '(ls, init_PC_agree, init_mse) ← gibbs_init;
  ls ← gibbs_loop (Z.to_nat (maxIters inp)) ls;
  mret (ls, init_PC_agree, init_mse).

(** [gibbsSampleGLM(pwms, edges, uniqueProteins, obsGrps, fullX, grpInd,
    maxIters, randSeed, verbose, orientKey, orient, fixedStarts,
    init_oracle)] *)
Definition gibbsSampleGLM : outcome ChainResult :=
  seeded ('(ls, init_PC_agree, init_mse) ← gibbs_sweeps;
          gibbs_finish ls init_PC_agree init_mse).

(** The loop body run [k] times, whatever the loop condition says. *)
Fixpoint gibbs_iterate (k : nat) (ls : locals) : chain locals :=
  match k with
  | O => mret ls
  | S k' => ls' ← gibbs_iteration ls; gibbs_iterate k' ls'
  end.

(** The chain after its initialisation and [k] sweeps. *)
Definition after_sweeps (k : nat) : outcome locals :=
  seeded ('(ls, _, _) ← gibbs_init; gibbs_iterate k ls).

(** The register assignment that is current in a state of the chain: the
    content of the dicts named [start] and [rev]. *)
Definition current_registers (ls : locals) (w : world)
  : option (gmap string Z * gmap string Z) :=
  startd ← w_heap w !! v_start ls;
  revd ← w_heap w !! v_rev ls;
  Some (startd, revd).

(** The full-data log-likelihood of the initial registers under the initial
    full-data model, scored as a sweep is scored. The code never computes
    this value; the property of the specification about the first observed
    likelihood speaks of it. *)
Definition initial_loglik : outcome Q :=
  seeded ('(start, rev) ← gibbs_registers;
          startd ← deref start;
          revd ← deref rev;
          init_model ← lift (form_model (fullX inp) (uniqueProteins inp) (pwms inp)
                               startd revd);
          sweep_ll (Some init_model) start rev).

(** How a sweep may change the store, [start] and [rev] being the
    locations it writes: every dict object stays allocated, an object other
    than those two keeps its content, and no object changes at the key of a
    pinned protein. *)
Definition heap_step (start rev : nat) (w w' : world) : Prop :=
  ∀ l d, w_heap w !! l = Some d →
    ∃ d', w_heap w' !! l = Some d'
          ∧ (l ≠ start → l ≠ rev → d' = d)
          ∧ (∀ q, is_Some (fixedStarts inp !! q) → d' !! q = d !! q).

(** The value at position [k] of the history is within the tolerance of
    each of the five values before it. *)
Definition run_ending_at (l : list Q) (k : nat) : Prop :=
  (5 ≤ k)%nat
  ∧ ∃ x, l !! k = Some x
         ∧ ∀ i, (1 ≤ i ≤ 5)%nat →
             ∃ y, l !! (k - i)%nat = Some y ∧ (Qabs (x - y) < tol)%Q.

(** What holds of the local variables whenever the loop condition is
    evaluated: the history has one entry per sweep after the initial
    [-1e30], [bestll] is its maximum, and a run within tolerance can only end
    at the last sweep, with [converged] set. *)
Definition loop_invariant (ls : locals) : Prop :=
  0 ≤ v_nIters ls ≤ Z.max 0 (maxIters inp)
  ∧ length (v_llsAll ls) = S (Z.to_nat (v_nIters ls))
  ∧ v_llsAll ls !! 0%nat = Some bestll_init
  ∧ v_bestll ls ∈ v_llsAll ls
  ∧ Forall (λ x, (x <= v_bestll ls)%Q) (v_llsAll ls)
  ∧ (∀ k, run_ending_at (v_llsAll ls) k →
       v_converged ls = true ∧ Z.of_nat k = v_nIters ls)
  ∧ (v_converged ls = true → run_ending_at (v_llsAll ls) (Z.to_nat (v_nIters ls))).

(** The state in which the while loop is entered. *)
Definition loop_entry (ls : locals) (w : world) : Prop :=
  v_nIters ls = 0
  ∧ v_llsAll ls = [bestll_init]
  ∧ v_bestll ls = bestll_init
  ∧ v_converged ls = false
  ∧ v_bestStart ls ≠ v_start ls ∧ v_bestStart ls ≠ v_rev ls
  ∧ v_bestRev ls ≠ v_start ls ∧ v_bestRev ls ≠ v_rev ls
  ∧ ∃ sd rd,
      w_heap w !! v_start ls = Some sd ∧ w_heap w !! v_rev ls = Some rd
      ∧ w_heap w !! v_bestStart ls = Some sd ∧ w_heap w !! v_bestRev ls = Some rd
      ∧ (init_oracle inp = false →
         ∀ p fs fr, p ∈ uniqueProteins inp → fixedStarts inp !! p = Some (fs, fr) →
           sd !! p = Some fs ∧ rd !! p = Some fr).

(** What the sweeps between two states of the loop have done: [start] and
    [rev] still name the same objects, the store has changed by sweep steps
    only, and [bestStart], [bestRev] either name the objects of [start] and
    [rev] or are as before together with [bestll]. *)
Definition sweeps_rel (ls : locals) (w : world) (ls' : locals) (w' : world) : Prop :=
  v_start ls' = v_start ls
  ∧ v_rev ls' = v_rev ls
  ∧ heap_step (v_start ls) (v_rev ls) w w'
  ∧ ((v_bestStart ls' = v_start ls ∧ v_bestRev ls' = v_rev ls)
     ∨ (v_bestStart ls' = v_bestStart ls ∧ v_bestRev ls' = v_bestRev ls
        ∧ v_bestll ls' = v_bestll ls)).

(** A step that never reports exhausted fuel. *)
Definition no_timeout {A} (m : chain A) : Prop := ∀ w, m w ≠ OutOfFuel.

(** How one pass of the loop body changes the local variables. *)
Definition iteration_locals (ls ls' : locals) : Prop :=
  v_nIters ls' = v_nIters ls + 1
  ∧ v_start ls' = v_start ls
  ∧ v_rev ls' = v_rev ls
  ∧ ∃ ll n,
      v_llsAll ls' = v_llsAll ls ++ [ll]
      ∧ count_within_tol ll (v_llsAll ls) = Some n
      ∧ v_converged ls' = (if n =? 5 then true else v_converged ls)
      ∧ (v_bestll ls', v_bestStart ls', v_bestRev ls')
        = (if Qltb (v_bestll ls) ll then (ll, v_start ls, v_rev ls)
           else (v_bestll ls, v_bestStart ls, v_bestRev ls)).

End Chain.

End Engine.

Arguments Returned {_ A} a w.
Arguments Raised {_ A}.
Arguments OutOfFuel {_ A}.

(** ** Registers inside the PWMs

    What the chain's statements about register ranges refer to. *)

(** A register [(s, r)] of protein [p] names a window of width [mWid]
    inside the PWM of [p] and an orientation. *)
Definition valid_register (pwms_ : gmap string (list (list Q))) (mWid : Z)
    (p : string) (s r : Z) : Prop :=
  ∃ pwm, pwms_ !! p = Some pwm
    ∧ 0 ≤ s ≤ Z.of_nat (length pwm) - mWid
    ∧ (r = 0 ∨ r = 1).

(** Every protein of the chain that is not pinned has a valid register in
    the dicts [sd] (start) and [rd] (rev); the window width is
    [len(edges.keys())], as in [gibbsSampleGLM] and [sampleStartPosGLM]. *)
Definition registers_valid (inp : chain_inputs) (sd rd : gmap string Z) : Prop :=
  ∀ p, p ∈ uniqueProteins inp → fixedStarts inp !! p = None →
    ∃ s r, sd !! p = Some s ∧ rd !! p = Some r
           ∧ valid_register (pwms inp) (Z.of_nat (size (edges inp))) p s r.

(** The same of the dict objects at two locations of the store. *)
Definition heap_registers_valid `{Libraries} (inp : chain_inputs)
    (start rev : nat) (w : world) : Prop :=
  ∃ sd rd, w_heap w !! start = Some sd ∧ w_heap w !! rev = Some rd
           ∧ registers_valid inp sd rd.

(** The dicts at [start] and [rev] have exactly the keys [D]. *)
Definition heap_keys `{Libraries} (D : gset string) (start rev : nat) (w : world)
  : Prop :=
  ∃ sd rd, w_heap w !! start = Some sd ∧ w_heap w !! rev = Some rd
           ∧ dom sd = D ∧ dom rd = D.

(** What numpy documents of the two draws: [randint(low, high)] returns an
    integer of [[low, high)], and [choice(range(n), 1, p=p)[0]] an element
    of [range(n)]. *)
Definition rng_in_range `{Libraries} : Prop :=
  (∀ low high g v g', np_random_randint low high g = Some (v, g') → low ≤ v < high)
  ∧ (∀ p g i g', np_random_choice p g = Some (i, g') →
       0 ≤ i < Z.of_nat (length p)).

(** The inputs of a chain as [main] builds them: [uniqueProteins] is the
    list of the group members in group order, and [fullX], [grpInd] are what
    [formGLM_fullX] returns in classifier mode for the same groups and
    contact lists. *)
Definition inputs_from_main (inp : chain_inputs) : Prop :=
  NoDup ((obsGrps inp).*1)
  ∧ uniqueProteins inp = group_members (obsGrps inp)
  ∧ ∃ core numAAs uniqueProteins0,
      formGLM_fullX core (edges inp) uniqueProteins0 (obsGrps inp) numAAs "classifier"
      = Some (fullX inp, grpInd inp).

(** The inputs of a chain with the flag [verbose] replaced. *)
Definition with_verbose (v : bool) (inp : chain_inputs) : chain_inputs :=
  {| pwms := pwms inp; edges := edges inp; uniqueProteins := uniqueProteins inp;
     obsGrps := obsGrps inp; fullX := fullX inp; grpInd := grpInd inp;
     maxIters := maxIters inp; randSeed := randSeed inp; verbose := v;
     orientKey := orientKey inp; orient := orient inp;
     fixedStarts := fixedStarts inp; init_oracle := init_oracle inp;
     nbres_pickle := nbres_pickle inp |}.

(** ** Observation groups: getProtDistMat, assignObsGrps, useUniqueProteins

    [core] is iterated by [assignObsGrps] and its key order decides the
    order of the proteins inside a group: here it is the list of its items
    in iteration order (keys pairwise distinct). The dict [grps] that
    [assignObsGrps] returns is a [gmap]; a caller iterates it in some order
    of its items. *)

(** The innermost loop of [getProtDistMat]: the number of positions of [c1]
    at which [c2] differs. [c2[xpos]] beyond the end of [c2] is an
    IndexError. *)
Definition hdist (c1 c2 : string) : option Z :=
  let l1 := list_ascii_of_string c1 in
  let l2 := list_ascii_of_string c2 in
  for_ (py_range (Z.of_nat (length l1))) (λ xpos hdist,
    a ← py_getitem l1 xpos;
    b ← py_getitem l2 xpos;
    Some (if decide (a ≠ b) then hdist + 1 else hdist)) 0.

(** [getProtDistMat(core)]: the matrix is filled row by row over
    [sorted(core.keys())]; its entries, counts stored as floats, are [Z]. *)
Definition getProtDistMat (core : list (string * string))
  : option (list (list Z) * list string) :=
  let prots := merge_sort String.le (core.*1) in
  let core : gmap string string := list_to_map core in
  protDist ← mapM (λ k1,
                c1 ← core !! k1;
                mapM (λ k2, c2 ← core !! k2; hdist c1 c2) prots) prots;
  Some (protDist, prots).

(** [assignObsGrps(core, by)]. The branch 'hd1' computes the distance
    matrix and leaves [grps] empty; any other string leaves it empty too. *)
Definition assignObsGrps (core : list (string * string)) (by_ : string)
  : option (gmap string (list string)) :=
  if String.eqb by_ "none" then
    Some (foldl (λ (grps : gmap string (list string)) k, <[k := [k]]> grps)
            ∅ (core.*1))
  else if String.eqb by_ "grpIDcore" then
    Some (foldl (λ (grps : gmap string (list string)) '(k, c),
                   match grps !! c with
                   | None => <[c := [k]]> grps
                   | Some members => <[c := members ++ [k]]> grps
                   end) ∅ core)
  else if String.eqb by_ "hd1" then
    _ ← getProtDistMat core; Some ∅
  else Some ∅.

(** [useUniqueProteins(obsGrps)]: the first protein of every group;
    [obsGrps[key][0]] of an empty group is an IndexError. *)
Definition useUniqueProteins (obsGrps : list (string * list string))
  : option (list string) :=
  for_ obsGrps (λ '(key, members) uniqueProteins,
    p ← py_getitem members 0;
    Some (uniqueProteins ++ [p])) [].

(** The proteins with core sequence [c], in the order of [core]. *)
Definition proteins_with_core (core : list (string * string)) (c : string)
  : list string :=
  (filter (λ kc, kc.2 = c) core).*1.

(** A dict entry exists for a list only once the list has a member. *)
Definition nonempty_list {A} (l : list A) : option (list A) :=
  match l with [] => None | _ => Some l end.

(** [len(c)] of a sequence. *)
Definition seq_len (c : string) : nat := length (list_ascii_of_string c).

(** The number of positions at which two sequences differ, counted over
    the shorter of the two. *)
Definition mismatches (c1 c2 : string) : Z :=
  Z.of_nat (length (filter (λ ab, ab.1 ≠ ab.2)
              (zip (list_ascii_of_string c1) (list_ascii_of_string c2)))).

(** ** getPrecomputedInputs: the contact map *)

(** [l.index(x)]: the first position of [x]; an absent [x] is a ValueError. *)
Fixpoint py_index (x : Z) (l : list Z) : option Z :=
  match l with
  | [] => None
  | y :: l' => if decide (y = x) then Some 0 else Z.succ <$> py_index x l'
  end.

(** [if k in d: d[k].append(v)  else: d[k] = [v]] *)
Definition append_at (k v : Z) (d : gmap Z (list Z)) : gmap Z (list Z) :=
  match d !! k with
  | Some l => <[k := l ++ [v]]> d
  | None => <[k := [v]]> d
  end.

Section ContactMap.

(** The built-ins that read a line of the contact map file:
    [line.strip().split()], the fields of a line between runs of white
    space, and [int(x)], which raises ValueError on a field that is not an
    integer literal. *)
Variable py_split : string → list string.
Variable py_int : string → option Z.

(** [bpos, aapos = tuple([int(x) for x in line.strip().split()])]: every
    field is converted, and the unpacking raises unless there are exactly
    two of them. *)
Definition contact_line (line : string) : option (Z * Z) :=
  fields ← mapM py_int (py_split line);
  match fields with
  | [bpos; aapos] => Some (bpos, aapos)
  | _ => None
  end.

(** The contact map of [getPrecomputedInputs], lines 1532 to 1550. [file]
    holds the lines of CONTACT_MAP, [None] when [open] raises; the first
    line is read and dropped, and every other line is parsed and entered:
    the contact positions per base position ([edges_hmmPos]), the sorted
    list of the distinct contact positions ([aaPosList]), and per base
    position the indices of its contact positions in that list
    ([edges]). *)
Definition getPrecomputedInputs_contact_map (file : option (list string))
  : option (gmap Z (list Z) * gmap Z (list Z) * list Z) :=
  fin ← file;
  '(edges_hmmPos, aaPosSet) ←
    for_ (drop 1 fin) (λ line '(d, s),
      '(bpos, aapos) ← contact_line line;
      Some (append_at bpos aapos d, {[aapos]} ∪ s))
      ((∅ : gmap Z (list Z)), (∅ : gset Z));
  let aaPosList := merge_sort Z.le (elements aaPosSet) in
  edges ← for_ (map_to_list edges_hmmPos) (λ '(bpos, aaposs) edges,
             for_ aaposs (λ aapos edges,
               i ← py_index aapos aaPosList;
               Some (append_at bpos i edges)) edges) ∅;
  Some (edges, edges_hmmPos, aaPosList).

End ContactMap.

(** ** main: the design matrices and the protein order

    Lines 1634 to 1646 of [main]: the full design matrices are built with
    the default [numAAs] and mode, two assertions check them against the
    groups, and [uniqueProteins] is replaced by the proteins in group order.
    A failed [assert] is an exception. *)
Definition main_design (core : gmap string string) (edges : gmap nat (list Z))
    (pwms_keys : list string) (obsGrps : list (string * list string))
  : option (gmap nat ndarray * gmap string (Z * Z) * list string) :=
  let uniqueProteins := pwms_keys in
  '(fullX, grpInd) ← formGLM_fullX core edges uniqueProteins obsGrps
                       numAAs_default "classifier";
  _ ← for_ obsGrps (λ '(g, members) (_ : unit),
        '(grpStart, grpEnd) ← grpInd !! g;
        if decide (Z.of_nat (length members) * 4 = grpEnd - grpStart + 1)
        then Some () else None) ();
  let uprots := foldl (λ uprots '(grp, members), uprots ++ members) [] obsGrps in
  if decide (length uprots = length uniqueProteins)
  then Some (fullX, grpInd, uprots) else None.

(** ** A small instance of the library interface

    A deterministic instance to run chains on: an intercept-only classifier
    (the predicted distribution is the weighted class frequency of the
    training labels, whatever the feature row), rational stand-ins for [log]
    and [exp], and a random generator that reads its draws from a tape, so
    that an example fixes the outcome of every draw. *)

(** The weighted frequency of class [c] among the labels [Y]. *)
Definition class_mass (Y : list Z) (W : list Q) (c : Z) : Q :=
  Qsum (zip_with (λ y w, if y =? c then w else 0%Q) Y W).

Definition intercept_fit (X : ndarray) (Y : list Z) (W : list Q) : option (list Q) :=
  if decide (Y = [] ∨ length Y ≠ length W ∨ length (rows X) ≠ length Y) then None
  else Some ((λ c, Qred (class_mass Y W c / Qsum W))%Q <$> [0; 1; 2; 3]).

Definition intercept_predict (clf : list Q) (X : ndarray) : option (list (list Q)) :=
  if decide (rows X = []) then None
  else Some (replicate (length (rows X)) clf).

(** [2(x-1)/(x+1)], the first term of the series of the logarithm. *)
Definition log_approx (x : Q) : Q := Qred (2 * (x - 1) / (x + 1))%Q.

(** [1/(1-x)] for [x <= 0], [1+x] above: positive, increasing, 1 at 0. *)
Definition exp_approx (x : Q) : Q :=
  Qred (if Qle_bool x 0 then 1 / (1 - x) else 1 + x)%Q.

Definition mse_exact (a b : list Q) : option Q :=
  if decide (a = [] ∨ length a ≠ length b) then None
  else Some (Qred (Qsum (zip_with (λ x y, (x - y) * (x - y))%Q a b)
                   / inject_Z (Z.of_nat (length a)))%Q).

(** A correlation is not rational in general; the stand-in reports none. *)
Definition pearsonr_none (a b : list Q) : option Q :=
  if decide (length a = length b) then Some 0%Q else None.

(** The next entry of the tape, when it is a legal outcome of the draw. *)
Definition tape_randint (low high : Z) (tape : list Z) : option (Z * list Z) :=
  match tape with
  | v :: tape' => if (low <=? v) && (v <? high) then Some (v, tape') else None
  | [] => None
  end.

Definition tape_choice (p : list Q) (tape : list Z) : option (Z * list Z) :=
  match tape with
  | v :: tape' =>
      match py_getitem p v with
      | Some pv => if (0 <=? v) && Qltb 0 pv then Some (v, tape') else None
      | None => None
      end
  | [] => None
  end.

Definition tape_libraries (tape : list Z) : Libraries := {|
  Classifier := list Q;
  Rng := list Z;
  LogisticRegression_fit := intercept_fit;
  predict_proba := intercept_predict;
  np_log := log_approx;
  np_exp := exp_approx;
  pearsonr := pearsonr_none;
  mean_squared_error := mse_exact;
  np_random_seed := λ _, tape;
  np_random_randint := tape_randint;
  np_random_choice := tape_choice
|}.

(** ** Example inputs *)

Definition ex_core : gmap string string :=
  {[ "p1" := "AGT"; "p2" := "AGY" ]}.

Definition ex_edges : gmap nat (list Z) :=
  list_to_map [(0%nat, [0]); (1%nat, [0; 1]); (2%nat, [1]);
               (3%nat, [2]); (4%nat, [1; 2]); (5%nat, [2])].

Definition ex_obsGrps : list (string * list string) :=
  [("AGT", ["p1"]); ("AGY", ["p2"])].

Definition ex_uniqueProteins : list string := ["p1"; "p2"].

(** The items of a [core] dict with a third protein that shares a core. *)
Definition ex_core_items : list (string * string) :=
  [("p2", "AGY"); ("p1", "AGT"); ("p3", "AGT")].

Definition ex_pwm1 : list (list Q) :=
  [[7#10; 1#10; 1#10; 1#10]; [1#4; 1#4; 1#4; 1#4]; [1#10; 7#10; 1#10; 1#10];
   [1#4; 1#4; 1#4; 1#4]; [1#10; 1#10; 7#10; 1#10]; [1#4; 1#4; 1#4; 1#4];
   [1#10; 1#10; 1#10; 7#10]]%Q.

Definition ex_pwm2 : list (list Q) :=
  [[1#4; 1#4; 1#4; 1#4]; [6#10; 2#10; 1#10; 1#10]; [1#10; 6#10; 2#10; 1#10];
   [1#4; 1#4; 1#4; 1#4]; [1#10; 2#10; 6#10; 1#10]; [1#4; 1#4; 1#4; 1#4];
   [1#10; 1#10; 1#10; 7#10]]%Q.

Definition ex_pwms : gmap string (list (list Q)) :=
  {[ "p1" := ex_pwm1; "p2" := ex_pwm2 ]}.

Definition ex_design : gmap nat ndarray * gmap string (Z * Z) :=
  default (∅, ∅)
    (formGLM_fullX ex_core ex_edges ex_uniqueProteins ex_obsGrps
       numAAs_default "classifier").

Definition ex_inputs (maxIters : Z) (fixedStarts : gmap string (Z * Z))
  : chain_inputs :=
  {| pwms := ex_pwms; edges := ex_edges; uniqueProteins := ex_uniqueProteins;
     obsGrps := ex_obsGrps; fullX := ex_design.1; grpInd := ex_design.2;
     maxIters := maxIters; randSeed := Some 382738375; verbose := false;
     orientKey := None; orient := None; fixedStarts := fixedStarts;
     init_oracle := false; nbres_pickle := None |}.

(** A two-sweep chain: both proteins start at register (0, 0); the first
    sweep draws candidate 1 for each, the second candidate 0. *)
Definition tape_best_first : list Z := [0; 0; 0; 0;  1; 1;  0; 0].

(** A chain whose every draw confirms the initial register (1, 0) of both
    proteins. *)
Definition tape_steady : list Z :=
  [0; 1; 0; 1;  1; 1;  1; 1;  1; 1;  1; 1;  1; 1;  1; 1].

(** A chain whose first sweep draws candidate 0 and whose later sweeps all
    draw candidate 1. *)
Definition tape_late_run : list Z :=
  [0; 0; 0; 0;  0; 0;  1; 1;  1; 1;  1; 1;  1; 1;  1; 1;  1; 1].

(** A two-sweep chain with protein p1 pinned at start 1, orientation 0. *)
Definition tape_pinned : list Z := [0; 0;  1;  0].

Definition ex_fixedStarts : gmap string (Z * Z) := {[ "p1" := (1, 0) ]}.




(** The library instances of the example runs. *)
Definition libs_best_first : Libraries := tape_libraries tape_best_first.
Definition libs_steady : Libraries := tape_libraries tape_steady.
Definition libs_late_run : Libraries := tape_libraries tape_late_run.
Definition libs_pinned : Libraries := tape_libraries tape_pinned.

(** *** What a run shows

    The outcome of an example run in printable form: log-likelihoods
    reduced to lowest terms, dicts as their item lists. *)

(** After [k] sweeps: the log-likelihood of the last sweep and the current
    [start] and [rev]. *)
Definition sweep_outcome `{Libraries} (inp : chain_inputs) (k : nat)
  : option (Q * list (string * Z) * list (string * Z)) :=
  match after_sweeps inp k with
  | Returned ls w =>
      regs ← current_registers ls w;
      ll ← last (v_llsAll ls);
      Some (Qred ll, map_to_list regs.1, map_to_list regs.2)
  | _ => None
  end.

(** The returned record: ['ll'], ['start'] and ['rev']. *)
Definition chain_outcome `{Libraries} (inp : chain_inputs)
  : option (Q * list (string * Z) * list (string * Z)) :=
  match gibbsSampleGLM inp with
  | Returned res _ =>
      Some (Qred (res_ll res), map_to_list (res_start res), map_to_list (res_rev res))
  | _ => None
  end.

(** At the exit of the while loop: the number of sweeps and the history. *)
Definition history_outcome `{Libraries} (inp : chain_inputs) : option (Z * list Q) :=
  match gibbs_sweeps inp (gibbs_world inp) with
  | Returned (ls, _, _) _ => Some (v_nIters ls, Qred <$> v_llsAll ls)
  | _ => None
  end.

(** After [k] sweeps: the recorded history and the flag [converged]. *)
Definition convergence_outcome `{Libraries} (inp : chain_inputs) (k : nat)
  : option (list Q * bool) :=
  match after_sweeps inp k with
  | Returned ls _ => Some (Qred <$> v_llsAll ls, v_converged ls)
  | _ => None
  end.


Definition initial_loglik_outcome `{Libraries} (inp : chain_inputs) : option Q :=
  match initial_loglik inp with
  | Returned q _ => Some (Qred q)
  | _ => None
  end.

(** The full-data model and weights of the example at register (0, 0), and
    the candidate log-likelihoods of its first protein under that model. *)
Definition ex_registers : gmap string Z := {[ "p1" := 0; "p2" := 0 ]}.

Definition ex_trainW : gmap nat (list Q) :=
  match formGLM_trainW ex_pwms ex_uniqueProteins ex_registers ex_registers
          "classifier" with
  | Some (W_classifier W) => W
  | _ => ∅
  end.

Definition ex_model : gmap nat (list Q) :=
  default ∅ (@form_model (tape_libraries []) ex_design.1 ex_uniqueProteins ex_pwms
               ex_registers ex_registers).

Definition ex_testX : gmap nat ndarray :=
  default ∅ (formGLM_testX ex_design.1 0 "classifier").

Definition ex_lls : list Q :=
  default [] (@candidate_lls (tape_libraries []) ex_testX ex_uniqueProteins 0
                ex_pwms ex_model "p1" 7 6).

(** * Properties *)

(** A run that returned passed the seed check of [seeded]. *)
Ltac unseed H :=
  unfold seeded in H;
  destruct (seed_in_range _) eqn:?; [|discriminate H].

(** ** Loops *)

Lemma for_app {A S} (l1 l2 : list A) (body : A → S → option S) (s : S) :
  for_ (l1 ++ l2) body s = s' ← for_ l1 body s; for_ l2 body s'.
Proof.
  revert s. induction l1 as [|a l1 IH]; intros s; simpl; [done|].
  destruct (body a s) as [s1|]; simpl; [apply IH | done].
Qed.

(** A loop invariant for [for_]. *)
Lemma for_invariant {A S} (P : list A → S → Prop) (l : list A)
    (body : A → S → option S) (s s' : S) :
  P [] s →
  (∀ done a s1 s2, P done s1 → a ∈ l → body a s1 = Some s2 → P (done ++ [a]) s2) →
  for_ l body s = Some s' →
  P l s'.
Proof.
  intros H0 Hstep.
  assert (Hgen : ∀ rest done s1, (∀ a, a ∈ rest → a ∈ l) → P done s1 →
            for_ rest body s1 = Some s' → P (done ++ rest) s').
  { induction rest as [|a rest IH]; intros done s1 Hin HP Hrun; simpl in Hrun.
    - rewrite app_nil_r. by simplify_eq.
    - destruct (body a s1) as [s2|] eqn:Hb; simpl in Hrun; [|done].
      replace (done ++ a :: rest) with ((done ++ [a]) ++ rest)
        by (by rewrite <- app_assoc).
      apply (IH _ s2); [| |done].
      + intros b Hb'. apply Hin. by right.
      + apply (Hstep done a s1 s2); [done| |done]. apply Hin. by left. }
  intros Hrun. apply (Hgen l [] s); auto.
Qed.

(** A loop whose body cannot raise while an invariant holds. *)
Lemma for_succeeds {A S} (inv : S → Prop) (l : list A)
    (body : A → S → option S) (s : S) :
  inv s →
  (∀ a s1, a ∈ l → inv s1 → ∃ s2, body a s1 = Some s2 ∧ inv s2) →
  ∃ s', for_ l body s = Some s' ∧ inv s'.
Proof.
  revert s. induction l as [|a l IH]; intros s Hs Hbody; simpl.
  - by exists s.
  - destruct (Hbody a s) as (s2 & Hb & Hs2); [by left | done |].
    rewrite Hb. simpl. apply IH; [done|].
    intros b s1 Hin. apply Hbody. by right.
Qed.

Lemma py_getitem_nonneg {A} (l : list A) (i : Z) :
  0 ≤ i → py_getitem l i = l !! Z.to_nat i.
Proof.
  intros Hi. unfold py_getitem.
  by replace (0 <=? i) with true by (symmetry; apply Z.leb_le; lia).
Qed.

(** A loop over [seq 0 n] that writes entry [j] of a dict in round [j]. *)
Lemma for_seq_insert {V} (f : nat → option V) (n : nat) (m : gmap nat V) :
  for_ (seq 0 n) (λ j acc, v ← f j; Some (<[j := v]> acc)) ∅ = Some m →
  ∀ j, (j < n)%nat → ∃ v, f j = Some v ∧ m !! j = Some v.
Proof.
  intros Hrun.
  pose (P := λ (done : list nat) (acc : gmap nat V),
          ∀ j, j ∈ done → ∃ v, f j = Some v ∧ acc !! j = Some v).
  assert (HP : P (seq 0 n) m).
  { apply (for_invariant P _ _ _ _) in Hrun; [done| |].
    - intros j Hj. by apply elem_of_nil in Hj.
    - intros done a s1 s2 HP _ Hb j Hj.
      destruct (f a) as [v|] eqn:Hf; simpl in Hb; [|done]. simplify_eq.
      destruct (decide (j = a)) as [->|Hne].
      + exists v. by rewrite lookup_insert_eq.
      + rewrite lookup_insert_ne by done. apply HP.
        apply elem_of_app in Hj as [Hj|Hj]; [done|].
        apply list_elem_of_singleton in Hj. congruence. }
  intros j Hj. apply HP. apply elem_of_seq. lia.
Qed.

(** ** formGLM_Y *)

Lemma formGLM_Y_lookup (keysToUse : list string) (j : nat) :
  (j < MWID)%nat →
  formGLM_Y keysToUse !! j = Some (py_repeat [0; 1; 2; 3] (length keysToUse)).
Proof.
  unfold formGLM_Y. generalize (py_repeat [0; 1; 2; 3] (length keysToUse)).
  intros v Hj.
  assert (Hgen : ∀ l (m : gmap nat (list Z)),
            (j ∈ l ∨ m !! j = Some v) →
            foldl (λ Y j0, <[j0 := v]> Y) m l !! j = Some v).
  { induction l as [|a l IH]; intros m Hm; simpl.
    - destruct Hm as [Hm|Hm]; [by apply elem_of_nil in Hm | done].
    - apply IH. destruct (decide (a = j)) as [->|Hne].
      + right. by rewrite lookup_insert_eq.
      + destruct Hm as [Hm|Hm].
        * left. apply elem_of_cons in Hm as [Hm|Hm]; [congruence | done].
        * right. by rewrite lookup_insert_ne. }
  apply Hgen. left. apply elem_of_seq. lia.
Qed.

Lemma py_repeat_elem {A} (l : list A) (n : nat) (x : A) :
  n ≠ 0%nat → x ∈ l → x ∈ py_repeat l n.
Proof.
  intros Hn Hx. destruct n as [|n]; [done|].
  unfold py_repeat. simpl. apply elem_of_app. by left.
Qed.

(** C10. For a non-empty list of proteins, [formGLM_Y] gives at every window
    position the vector [0,1,2,3] repeated once per protein, and each of the
    four base classes occurs in it. This holds in particular for the
    training proteins left by any held-out row range of a sweep: whenever
    that list is non-empty, its label vector has all four classes. *)
Theorem formGLM_Y_all_classes (keysToUse : list string) (j : nat) :
  keysToUse ≠ [] →
  (j < MWID)%nat →
  formGLM_Y keysToUse !! j = Some (py_repeat [0; 1; 2; 3] (length keysToUse))
  ∧ (∀ c, c ∈ [0; 1; 2; 3] → c ∈ py_repeat [0; 1; 2; 3] (length keysToUse))
  ∧ (∀ uniqueProteins startInd_ho endIndex_ho,
        keysToUse = trainProteins_of uniqueProteins startInd_ho endIndex_ho →
        ∃ trainYj, formGLM_Y (trainProteins_of uniqueProteins startInd_ho endIndex_ho) !! j
                     = Some trainYj
                   ∧ ∀ c, c ∈ [0; 1; 2; 3] → c ∈ trainYj).
Proof.
  intros Hne Hj.
  assert (Hlen : length keysToUse ≠ 0%nat) by (by destruct keysToUse).
  split; [by apply formGLM_Y_lookup|].
  split; [intros c Hc; by apply py_repeat_elem|].
  intros uP a b ->. eexists. split; [by apply formGLM_Y_lookup|].
  intros c Hc. by apply py_repeat_elem.
Qed.

Lemma formGLM_Y_all_classes_witness :
  formGLM_Y ["p2"] !! 3%nat = Some [0; 1; 2; 3]
  ∧ 2 ∈ py_repeat [0; 1; 2; 3] (length ["p2"]).
Proof.
  destruct (formGLM_Y_all_classes ["p2"] 3) as (H1 & H2 & _).
  - discriminate.
  - unfold MWID. lia.
  - split; [exact H1|]. apply H2. set_solver.
Defined.

(** A loop that appends one computed entry per round. *)
Lemma for_append {A B} (f : A → option B) (l : list A) (acc res : list B) :
  for_ l (λ a acc, b ← f a; Some (acc ++ [b])) acc = Some res →
  ∃ bs, res = acc ++ bs ∧ Forall2 (λ a b, f a = Some b) l bs.
Proof.
  revert acc. induction l as [|a l IH]; intros acc Hrun; simpl in Hrun.
  - exists []. simplify_eq. by rewrite app_nil_r.
  - destruct (f a) as [b|] eqn:Hf; simpl in Hrun; [|done].
    destruct (IH _ Hrun) as (bs & -> & Hbs).
    exists (b :: bs). split; [by rewrite <- app_assoc|]. by constructor.
Qed.

Lemma py_range_length (n : Z) : length (py_range n) = Z.to_nat n.
Proof. unfold py_range. by rewrite length_fmap, length_seq. Qed.

Lemma py_range_lookup (n : Z) (i : nat) :
  (i < Z.to_nat n)%nat → py_range n !! i = Some (Z.of_nat i).
Proof.
  intros Hi. unfold py_range. rewrite list_lookup_fmap.
  by rewrite lookup_seq_lt.
Qed.

(** ** sampleStartPosGLM: enumeration and decoding *)

Section Sampler.

Context `{Libraries}.

Lemma candidate_lls_blocks testX uniqueProteins index pwms model holdout
    (seqWid mWid : Z) (lls : list Q) :
  candidate_lls testX uniqueProteins index pwms model holdout seqWid mWid = Some lls →
  ∃ b0 b1,
    lls = b0 ++ b1
    ∧ Forall2 (λ s ll, candidate_ll testX uniqueProteins index pwms model holdout s 0 = Some ll)
        (py_range (seqWid - mWid + 1)) b0
    ∧ Forall2 (λ s ll, candidate_ll testX uniqueProteins index pwms model holdout s 1 = Some ll)
        (py_range (seqWid - mWid + 1)) b1.
Proof.
  unfold candidate_lls. change (py_range 2) with [0; 1]. simpl.
  intros Hrun.
  destruct (for_ (py_range (seqWid - mWid + 1)) _ []) as [l0|] eqn:H0;
    simpl in Hrun; [|done].
  destruct (for_ (py_range (seqWid - mWid + 1)) _ l0) as [l1|] eqn:H1;
    simpl in Hrun; [|done].
  simplify_eq.
  apply for_append in H0 as (b0 & -> & Hb0).
  apply for_append in H1 as (b1 & -> & Hb1).
  by exists b0, b1.
Qed.

(** The list built by the two loops and its decoding: for a PWM of length
    [seqWid] at least the window width [mWid], the candidate list has
    [2 * (seqWid - mWid + 1)] entries, all starts with orientation 0 first
    and then all starts with orientation 1; a flat index [i] decodes to
    [r = 0] exactly when [i < count/2], with [s = i mod (count/2)], and the
    decoded register [(s, r)] is the one whose log-likelihood stands at
    position [i] of the list. *)
Lemma candidate_lls_decoding testX uniqueProteins index pwms
    model holdout (seqWid mWid : Z) (lls : list Q) :
  mWid ≤ seqWid →
  candidate_lls testX uniqueProteins index pwms model holdout seqWid mWid = Some lls →
  let count := Z.of_nat (length lls) in
  count = 2 * (seqWid - mWid + 1)
  ∧ ∀ i, 0 ≤ i < count →
      ∃ s r, decode_register count i = (s, r)
        ∧ s = i mod (count / 2)
        ∧ r = (if decide (i < count / 2) then 0 else 1)
        ∧ 0 ≤ s < seqWid - mWid + 1
        ∧ i = r * (seqWid - mWid + 1) + s
        ∧ ∃ ll, lls !! Z.to_nat i = Some ll
            ∧ candidate_ll testX uniqueProteins index pwms model holdout s r = Some ll.
Proof.
  intros Hwid Hrun count.
  apply candidate_lls_blocks in Hrun as (b0 & b1 & Hlls & Hb0 & Hb1).
  set (n := seqWid - mWid + 1) in *.
  assert (Hl0 : length b0 = Z.to_nat n)
    by (by rewrite <- (Forall2_length _ _ _ Hb0), py_range_length).
  assert (Hl1 : length b1 = Z.to_nat n)
    by (by rewrite <- (Forall2_length _ _ _ Hb1), py_range_length).
  assert (Hcount : count = 2 * n).
  { unfold count. rewrite Hlls, length_app, Hl0, Hl1. lia. }
  split; [done|].
  intros i Hi.
  assert (Hhalf : count / 2 = n) by (rewrite Hcount; symmetry; apply Z.div_unique_exact; lia).
  unfold decode_register. rewrite Hhalf.
  destruct (decide (i < n)) as [Hlt|Hge].
  - exists i, 0.
    replace (n <=? i) with false by (symmetry; apply Z.leb_gt; lia).
    rewrite Z.mod_small by lia.
    repeat split; try lia.
    destruct (Forall2_lookup_l _ _ _ (Z.to_nat i) i Hb0) as (ll & Hll & Hc).
    { rewrite py_range_lookup by lia. f_equal. lia. }
    exists ll. split; [|done].
    rewrite Hlls. rewrite lookup_app_l by lia. done.
  - exists (i - n), 1.
    replace (n <=? i) with true by (symmetry; apply Z.leb_le; lia).
    assert (Hmod : i mod n = i - n).
    { symmetry. apply (Z.mod_unique i n 1 (i - n)); lia. }
    rewrite Hmod.
    repeat split; try lia.
    destruct (Forall2_lookup_l _ _ _ (Z.to_nat (i - n)) (i - n) Hb1) as (ll & Hll & Hc).
    { rewrite py_range_lookup by lia. f_equal. lia. }
    exists ll. split; [|done].
    rewrite Hlls. rewrite lookup_app_r by lia.
    rewrite Hl0. replace (Z.to_nat i - Z.to_nat n)%nat with (Z.to_nat (i - n)) by lia.
    done.
Qed.

(** [sampleStartPosGLM] decodes the index it draws against the length of the
    list built by the two loops. *)
Lemma sampleStartPosGLM_decodes testX uniqueProteins index pwms edges model
    (g g' : Rng) (s r : Z) (lls : list Q) :
  sampleStartPosGLM testX uniqueProteins index pwms edges model g
    = Some (s, r, lls, g') →
  ∃ holdout pwm raw m i,
    py_getitem uniqueProteins index = Some holdout
    ∧ pwms !! holdout = Some pwm
    ∧ candidate_lls testX uniqueProteins index pwms model holdout
        (Z.of_nat (length pwm)) (Z.of_nat (size edges)) = Some raw
    ∧ np_max raw = Some m
    ∧ lls = (λ x, np_exp (x - m)) <$> raw
    ∧ np_random_choice ((λ x, x / Qsum lls)%Q <$> lls) g = Some (i, g')
    ∧ decode_register (Z.of_nat (length raw)) i = (s, r).
Proof.
  unfold sampleStartPosGLM. intros Hrun.
  apply bind_Some in Hrun as (holdout & Hh & Hrun).
  apply bind_Some in Hrun as (pwm & Hp & Hrun).
  apply bind_Some in Hrun as (raw & Hraw & Hrun).
  apply bind_Some in Hrun as (m & Hm & Hrun).
  apply bind_Some in Hrun as ([i g1] & Hchoice & Hrun).
  rewrite length_fmap in Hrun.
  destruct (Z.of_nat (length raw) `div` 2 =? 0); [done|].
  destruct (decode_register (Z.of_nat (length raw)) i) as [s' r'] eqn:Hdec.
  injection Hrun as <- <- <- <-.
  exists holdout, pwm, raw, m, i. done.
Qed.

(** C7. A call of [sampleStartPosGLM] that returns [(s, r, lls)] has built
    the candidate list [raw] of the held-out protein's PWM, of length
    [seqWid] at least the window width [mWid], by the two loops: [raw] has
    [count = 2 * (seqWid - mWid + 1)] entries, all starts with orientation 0
    first and then all starts with orientation 1, and every flat index [i']
    decodes to [r' = 0] exactly when [i' < count/2], with
    [s' = i' mod (count/2)], the decoded register [(s', r')] being the one
    whose log-likelihood stands at position [i'] of the list. The returned
    [(s, r)] is this decoding of the index [i] that [np.random.choice]
    drew, so that for a drawn index inside the list the returned register
    is the one whose log-likelihood occupies position [i]; the returned
    [lls] is the list of the exponentials of [raw] shifted by its
    maximum. *)
Theorem decode_register_inverts_enumeration testX uniqueProteins index pwms
    edges model (g g' : Rng) (s r : Z) (lls : list Q) :
  sampleStartPosGLM testX uniqueProteins index pwms edges model g
    = Some (s, r, lls, g') →
  ∃ holdout pwm raw m i,
    py_getitem uniqueProteins index = Some holdout
    ∧ pwms !! holdout = Some pwm
    ∧ candidate_lls testX uniqueProteins index pwms model holdout
        (Z.of_nat (length pwm)) (Z.of_nat (size edges)) = Some raw
    ∧ Z.of_nat (size edges) ≤ Z.of_nat (length pwm)
    ∧ Z.of_nat (length raw)
      = 2 * (Z.of_nat (length pwm) - Z.of_nat (size edges) + 1)
    ∧ (∀ i', 0 ≤ i' < Z.of_nat (length raw) →
         ∃ s' r', decode_register (Z.of_nat (length raw)) i' = (s', r')
           ∧ s' = i' mod (Z.of_nat (length raw) / 2)
           ∧ r' = (if decide (i' < Z.of_nat (length raw) / 2) then 0 else 1)
           ∧ 0 ≤ s' < Z.of_nat (length pwm) - Z.of_nat (size edges) + 1
           ∧ i' = r' * (Z.of_nat (length pwm) - Z.of_nat (size edges) + 1) + s'
           ∧ ∃ ll, raw !! Z.to_nat i' = Some ll
               ∧ candidate_ll testX uniqueProteins index pwms model holdout s' r'
                 = Some ll)
    ∧ np_max raw = Some m
    ∧ lls = (λ x, np_exp (x - m)) <$> raw
    ∧ np_random_choice ((λ x, x / Qsum lls)%Q <$> lls) g = Some (i, g')
    ∧ decode_register (Z.of_nat (length raw)) i = (s, r)
    ∧ s = i mod (Z.of_nat (length raw) / 2)
    ∧ r = (if decide (i < Z.of_nat (length raw) / 2) then 0 else 1)
    ∧ (0 ≤ i < Z.of_nat (length raw) →
         i = r * (Z.of_nat (length pwm) - Z.of_nat (size edges) + 1) + s
         ∧ ∃ ll, raw !! Z.to_nat i = Some ll
             ∧ candidate_ll testX uniqueProteins index pwms model holdout s r
               = Some ll
             ∧ lls !! Z.to_nat i = Some (np_exp (ll - m))).
Proof.
  unfold sampleStartPosGLM. intros Hrun.
  apply bind_Some in Hrun as (holdout & Hh & Hrun).
  apply bind_Some in Hrun as (pwm & Hp & Hrun).
  apply bind_Some in Hrun as (raw & Hraw & Hrun).
  apply bind_Some in Hrun as (m & Hm & Hrun).
  apply bind_Some in Hrun as ([i g1] & Hchoice & Hrun).
  rewrite length_fmap in Hrun.
  destruct (Z.of_nat (length raw) `div` 2 =? 0) eqn:Hhalf; [done|].
  apply Z.eqb_neq in Hhalf.
  destruct (decode_register (Z.of_nat (length raw)) i) as [s' r'] eqn:Hdec.
  injection Hrun as <- <- <- <-.
  assert (Hlen : length raw
                 = (2 * Z.to_nat (Z.of_nat (length pwm) - Z.of_nat (size edges) + 1))%nat).
  { destruct (candidate_lls_blocks _ _ _ _ _ _ _ _ _ Hraw) as (b0 & b1 & -> & H0 & H1).
    apply Forall2_length in H0, H1. rewrite py_range_length in H0, H1.
    rewrite length_app. lia. }
  assert (Hwid : Z.of_nat (size edges) ≤ Z.of_nat (length pwm)).
  { destruct (decide (Z.of_nat (size edges) ≤ Z.of_nat (length pwm))) as [|Hgt];
      [done|].
    exfalso. apply Hhalf.
    replace (length raw) with 0%nat by lia. reflexivity. }
  destruct (candidate_lls_decoding _ _ _ _ _ _ _ _ _ Hwid Hraw) as [Hcount Hall].
  assert (Hsr : s' = i mod (Z.of_nat (length raw) / 2)
                ∧ r' = (if decide (i < Z.of_nat (length raw) / 2) then 0 else 1)).
  { unfold decode_register in Hdec. injection Hdec as <- <-. split; [done|].
    destruct (decide (i < Z.of_nat (length raw) / 2)) as [Hlt|Hge].
    - by replace (_ <=? i) with false by (symmetry; apply Z.leb_gt; lia).
    - by replace (_ <=? i) with true by (symmetry; apply Z.leb_le; lia). }
  destruct Hsr as [Hs Hr].
  exists holdout, pwm, raw, m, i.
  split; [exact Hh|]. split; [exact Hp|]. split; [exact Hraw|].
  split; [exact Hwid|]. split; [exact Hcount|]. split; [exact Hall|].
  split; [exact Hm|]. split; [reflexivity|]. split; [exact Hchoice|].
  split; [exact Hdec|]. split; [exact Hs|]. split; [exact Hr|].
  intros Hi. destruct (Hall i Hi) as (s0 & r0 & Hd0 & _ & _ & _ & Hflat & ll & Hll & Hc).
  rewrite Hdec in Hd0. injection Hd0 as <- <-.
  split; [exact Hflat|]. exists ll. split; [exact Hll|]. split; [exact Hc|].
  rewrite list_lookup_fmap, Hll. reflexivity.
Qed.

End Sampler.

(** ** formGLM_trainW *)

Lemma for_ext {A S} (l : list A) (body1 body2 : A → S → option S) (s : S) :
  (∀ a s, body1 a s = body2 a s) → for_ l body1 s = for_ l body2 s.
Proof.
  intros Hext. revert s. induction l as [|a l IH]; intros s; simpl; [done|].
  rewrite Hext. destruct (body2 a s); simpl; [apply IH | done].
Qed.

Lemma window_rows_lookup (pwm : list (list Q)) (start : gmap string Z)
    (protein : string) (w : gmap nat (list Q)) (j : nat) :
  window_rows pwm start protein = Some w →
  (j < MWID)%nat →
  ∃ s row, start !! protein = Some s
           ∧ py_getitem pwm (Z.of_nat j + s) = Some row
           ∧ w !! j = Some row.
Proof.
  unfold window_rows. intros Hrun Hj.
  rewrite (for_ext _ _ (λ j acc,
             v ← (s ← start !! protein; py_getitem pwm (Z.of_nat j + s));
             Some (<[j := v]> acc))) in Hrun.
  2: { intros a acc. by destruct (start !! protein). }
  destruct (for_seq_insert _ _ _ Hrun j Hj) as (row & Hf & Hw).
  destruct (start !! protein) as [s|]; simpl in Hf; [|done].
  by exists s, row.
Qed.

Lemma protein_weights_lookup pwms uniqueProteins (start rev : gmap string Z)
    (weights : gmap string (gmap nat (list Q))) :
  protein_weights pwms uniqueProteins start rev = Some weights →
  ∀ protein, protein ∈ uniqueProteins →
    ∃ pwm w, oriented_pwm pwms rev protein = Some pwm
             ∧ window_rows pwm start protein = Some w
             ∧ weights !! protein = Some w.
Proof.
  unfold protein_weights. intros Hrun.
  pose (P := λ (done : list string) (acc : gmap string (gmap nat (list Q))),
          ∀ protein, protein ∈ done →
            ∃ pwm w, oriented_pwm pwms rev protein = Some pwm
                     ∧ window_rows pwm start protein = Some w
                     ∧ acc !! protein = Some w).
  apply (for_invariant P) in Hrun; [done| |].
  - intros p Hp. by apply elem_of_nil in Hp.
  - intros done a s1 s2 HP _ Hb p Hp.
    destruct (oriented_pwm pwms rev a) as [pwm|] eqn:Ho; simpl in Hb; [|done].
    destruct (window_rows pwm start a) as [w|] eqn:Hw; simpl in Hb; [|done].
    simplify_eq.
    destruct (decide (p = a)) as [->|Hne].
    + exists pwm, w. by rewrite lookup_insert_eq.
    + rewrite lookup_insert_ne by done. apply HP.
      apply elem_of_app in Hp as [Hp|Hp]; [done|].
      apply list_elem_of_singleton in Hp. congruence.
Qed.

Lemma weights_oriented_row pwms uniqueProteins (start rev : gmap string Z)
    (weights : gmap string (gmap nat (list Q))) (protein : string) (j : nat) :
  protein_weights pwms uniqueProteins start rev = Some weights →
  protein ∈ uniqueProteins →
  (j < MWID)%nat →
  ∃ w row, weights !! protein = Some w ∧ w !! j = Some row
           ∧ oriented_row pwms start rev protein j = Some row.
Proof.
  intros Hw Hin Hj.
  destruct (protein_weights_lookup _ _ _ _ _ Hw _ Hin) as (pwm & w & Ho & Hwin & Hl).
  destruct (window_rows_lookup _ _ _ _ _ Hwin Hj) as (s & row & Hs & Hrow & Hwj).
  exists w, row. repeat split; [done..|].
  unfold oriented_row. rewrite Ho. simpl. rewrite Hs. simpl. done.
Qed.

Lemma Qsum_from (a : Q) (l : list Q) : (foldl Qplus a l == a + Qsum l)%Q.
Proof.
  unfold Qsum. revert a. induction l as [|x l IH]; intros a; simpl.
  - ring.
  - rewrite (IH (a + x)%Q), (IH (0 + x)%Q). ring.
Qed.

Lemma Qsum_cons (x : Q) (l : list Q) : (Qsum (x :: l) == x + Qsum l)%Q.
Proof. unfold Qsum at 1. simpl. rewrite Qsum_from. ring. Qed.

Lemma Qsum_scaled (t : Q) (l : list Q) :
  (Qsum ((λ x, x / t) <$> l) == Qsum l / t)%Q.
Proof.
  induction l as [|x l IH].
  - unfold Qsum, Qdiv. simpl. ring.
  - rewrite fmap_cons, !Qsum_cons, IH. unfold Qdiv. ring.
Qed.

(** Dividing a vector by its non-zero total gives total 1. *)
Lemma Qsum_normalised (l : list Q) :
  ¬ (Qsum l == 0)%Q → (Qsum ((λ x, x / Qsum l) <$> l) == 1)%Q.
Proof. intros Hne. rewrite Qsum_scaled. by field. Qed.

Lemma mapM_obj_float (l : list Q) : mapM obj_to_float (obj_float <$> l) = Some l.
Proof.
  apply mapM_Some. induction l; simpl; constructor; auto.
Qed.

Lemma py_slice_tail {A} (x : A) (l : list A) :
  py_slice (x :: l) 1 (Z.of_nat (length (x :: l))) = l.
Proof.
  unfold py_slice, py_clip. simpl length.
  replace (Z.to_nat _) with 1%nat at 1.
  2: { destruct (0 <=? 1) eqn:E; lia. }
  replace (Z.to_nat _) with (S (length l)).
  2: { destruct (0 <=? Z.of_nat (S (length l))) eqn:E; lia. }
  simpl. by rewrite take_ge.
Qed.

Lemma trainW_classifier_position_spec weights uniqueProteins (j : nat)
    (Wj : list Q) :
  trainW_classifier_position weights uniqueProteins j = Some Wj →
  uniqueProteins ≠ []
  ∧ ∃ rows_, Forall2 (λ p row, ∃ w, weights !! p = Some w ∧ w !! j = Some row)
               uniqueProteins rows_
      ∧ Wj = (λ x, x / Qsum (concat rows_))%Q <$> concat rows_.
Proof.
  unfold trainW_classifier_position. intros Hrun.
  destruct (for_ uniqueProteins _ [obj_dict]) as [acc|] eqn:Hacc;
    simpl in Hrun; [|done].
  destruct (decide (uniqueProteins = [])) as [|Hne]; [done|].
  split; [done|].
  assert (Hgen : ∀ l acc0 acc1,
            for_ l (λ protein Wj0,
                      w ← weights !! protein; row ← w !! j;
                      Some (Wj0 ++ (obj_float <$> row))) acc0 = Some acc1 →
            ∃ rows_, Forall2 (λ p row, ∃ w, weights !! p = Some w ∧ w !! j = Some row)
                       l rows_
                     ∧ acc1 = acc0 ++ (obj_float <$> concat rows_)).
  { induction l as [|p l IH]; intros acc0 acc1 Hl; simpl in Hl.
    - exists []. simplify_eq. simpl. by rewrite app_nil_r.
    - destruct (weights !! p) as [w|] eqn:Hw; simpl in Hl; [|done].
      destruct (w !! j) as [row|] eqn:Hr; simpl in Hl; [|done].
      destruct (IH _ _ Hl) as (rows_ & HF & ->).
      exists (row :: rows_). split.
      + constructor; [by exists w | done].
      + simpl. by rewrite fmap_app, app_assoc. }
  destruct (Hgen _ _ _ Hacc) as (rows_ & HF & ->).
  exists rows_. split; [done|].
  change ([obj_dict] ++ (obj_float <$> concat rows_))
    with (obj_dict :: (obj_float <$> concat rows_)) in Hrun.
  rewrite py_slice_tail, mapM_obj_float in Hrun. cbn [mbind option_bind] in Hrun.
  destruct (Qeq_bool (Qsum (concat rows_)) 0); [|by simplify_eq].
  destruct (concat rows_); [|done]. by simplify_eq.
Qed.

Lemma trainW_collect (weights : gmap string (gmap nat (list Q))) (j : nat)
    (l : list string) (acc0 acc1 : list np_obj) :
  for_ l (λ protein Wj0, w ← weights !! protein; row ← w !! j;
                         Some (Wj0 ++ (obj_float <$> row))) acc0 = Some acc1 →
  ∃ rows_, Forall2 (λ p row, ∃ w, weights !! p = Some w ∧ w !! j = Some row) l rows_
           ∧ acc1 = acc0 ++ (obj_float <$> concat rows_).
Proof.
  revert acc0 acc1. induction l as [|p l IH]; intros acc0 acc1 Hl; simpl in Hl.
  - exists []. simplify_eq. simpl. by rewrite app_nil_r.
  - destruct (weights !! p) as [w|] eqn:Hw; simpl in Hl; [|done].
    destruct (w !! j) as [row|] eqn:Hr; simpl in Hl; [|done].
    destruct (IH _ _ Hl) as (rows_ & HF & ->).
    exists (row :: rows_). split.
    + constructor; [by exists w | done].
    + simpl. by rewrite fmap_app, app_assoc.
Qed.

Lemma Forall2_functional {A B} (P : A → B → Prop) (l : list A) (k1 k2 : list B) :
  (∀ a b1 b2, P a b1 → P a b2 → b1 = b2) →
  Forall2 P l k1 → Forall2 P l k2 → k1 = k2.
Proof.
  intros Hfun H1. revert k2.
  induction H1 as [|a b1 l k1 Hab _ IH]; intros k2 H2; inversion H2; subst; [done|].
  f_equal; [by eapply Hfun | by apply IH].
Qed.

Lemma trainW_classifier_position_total weights uniqueProteins (j : nat)
    (Wj : list Q) (rows_ : list (list Q)) :
  trainW_classifier_position weights uniqueProteins j = Some Wj →
  Forall2 (λ p row, ∃ w, weights !! p = Some w ∧ w !! j = Some row)
    uniqueProteins rows_ →
  concat rows_ ≠ [] →
  ¬ (Qsum (concat rows_) == 0)%Q.
Proof.
  unfold trainW_classifier_position. intros Hrun HF Hne.
  destruct (for_ uniqueProteins _ [obj_dict]) as [acc|] eqn:Hacc;
    cbn [mbind option_bind] in Hrun; [|done].
  destruct (decide (uniqueProteins = [])); [done|].
  destruct (trainW_collect _ _ _ _ _ Hacc) as (rows' & HF' & ->).
  assert (rows' = rows_) as ->.
  { eapply Forall2_functional; [|exact HF'|exact HF].
    intros p b1 b2 (w1 & Hw1 & Hb1) (w2 & Hw2 & Hb2). by simplify_eq. }
  change ([obj_dict] ++ (obj_float <$> concat rows_))
    with (obj_dict :: (obj_float <$> concat rows_)) in Hrun.
  rewrite py_slice_tail, mapM_obj_float in Hrun. cbn [mbind option_bind] in Hrun.
  destruct (Qeq_bool (Qsum (concat rows_)) 0) eqn:E.
  - destruct (concat rows_); done.
  - intros Hz. apply Qeq_bool_iff in Hz. congruence.
Qed.

Lemma Qsum_app (l k : list Q) : (Qsum (l ++ k) == Qsum l + Qsum k)%Q.
Proof.
  unfold Qsum. rewrite foldl_app, Qsum_from. reflexivity.
Qed.

Lemma Qsum_concat_positive (rows_ : list (list Q)) :
  Forall (λ row, (0 < Qsum row)%Q) rows_ →
  (0 <= Qsum (concat rows_))%Q ∧ (rows_ ≠ [] → (0 < Qsum (concat rows_))%Q).
Proof.
  induction 1 as [|row rows' Hrow _ [IH0 _]].
  - split; [apply Qle_refl|done].
  - cbn [concat]. rewrite Qsum_app.
    assert (Hpos : (0 < Qsum row + Qsum (concat rows'))%Q).
    { rewrite <- (Qplus_0_r 0). apply Qplus_lt_le_compat; assumption. }
    split; [apply Qlt_le_weak, Hpos|intros _; exact Hpos].
Qed.

Lemma matrix_compl_length (pwm : list (list Q)) :
  length (matrix_compl pwm) = length pwm.
Proof. unfold matrix_compl. by rewrite length_reverse, length_fmap. Qed.

Lemma Forall2_impl_elem {A B} (P R : A → B → Prop) (l : list A) (k : list B) :
  Forall2 P l k → (∀ x y, x ∈ l → P x y → R x y) → Forall2 R l k.
Proof.
  induction 1 as [|x y l k Hxy HF IH]; intros Himp; constructor.
  - apply Himp; [by left | done].
  - apply IH. intros x' y' Hin. apply Himp. by right.
Qed.

Lemma positive_rows_mass_nonzero pwms uniqueProteins (start rev : gmap string Z) :
  (∀ p j row, p ∈ uniqueProteins → (j < MWID)%nat →
     oriented_row pwms start rev p j = Some row → (0 < Qsum row)%Q) →
  window_mass_nonzero pwms uniqueProteins start rev.
Proof.
  intros Hmass j rows_ Hj HF Hne Hz.
  assert (Hpos : Forall (λ row, (0 < Qsum row)%Q) rows_).
  { clear Hne Hz. induction HF as [|p row l k Hrow _ IH]; constructor.
    - apply (Hmass p j row); [by left|done|done].
    - apply IH. intros p' j' row' Hin. apply Hmass. by right. }
  destruct (Qsum_concat_positive rows_ Hpos) as [_ Hlt].
  assert (Hrows : rows_ ≠ []) by (intros ->; done).
  specialize (Hlt Hrows). rewrite Hz in Hlt. by apply Qlt_irrefl in Hlt.
Qed.

(** X18. On well-formed inputs (a non-empty protein list, and for every
    protein a PWM, a start and an orientation such that the window lies
    inside the PWM) the classifier branch of [formGLM_trainW] returns its
    weight vectors exactly when at no window position the entries of the
    proteins' oriented PWM rows add up to zero; when they do at some
    position, the division of line 990 raises. *)
Lemma formGLM_trainW_succeeds pwms uniqueProteins (start rev : gmap string Z) :
  well_formed_registers pwms uniqueProteins start rev →
  (∃ W, formGLM_trainW pwms uniqueProteins start rev "classifier"
        = Some (W_classifier W))
  ↔ window_mass_nonzero pwms uniqueProteins start rev.
Proof.
  intros (Hne & Hok).
  destruct (for_succeeds (λ _, True) uniqueProteins
              (λ protein weights,
                 pwm ← oriented_pwm pwms rev protein;
                 w ← window_rows pwm start protein;
                 Some (<[protein := w]> weights))
              (∅ : gmap string (gmap nat (list Q))))
    as (weights & Hw & _); [done | |].
  { intros p acc Hp _.
    destruct (Hok p Hp) as (pwm & s0 & r & Hpwm & Hs & Hr & Hs0 & Hfit).
    unfold oriented_pwm. rewrite Hr, Hpwm. simpl.
    set (pwm' := if r =? 1 then matrix_compl pwm else pwm).
    assert (Hlen : length pwm' = length pwm).
    { unfold pwm'. destruct (r =? 1); [apply matrix_compl_length | done]. }
    destruct (for_succeeds (λ _, True) (seq 0 MWID)
                (λ j w, s ← start !! p; row ← py_getitem pwm' (Z.of_nat j + s);
                        Some (<[j := row]> w))
                (∅ : gmap nat (list Q)))
      as (w & Hwin & _); [done | |].
    { intros j acc' Hj _. apply elem_of_seq in Hj. rewrite Hs. simpl.
      rewrite py_getitem_nonneg by lia.
      destruct (lookup_lt_is_Some_2 pwm' (Z.to_nat (Z.of_nat j + s0))) as [row Hrow];
        [lia|].
      rewrite Hrow. simpl. eauto. }
    unfold window_rows. rewrite Hwin. simpl. eauto. }
  fold (protein_weights pwms uniqueProteins start rev) in Hw.
  assert (Hrows : ∀ j rows_, (j < MWID)%nat →
            Forall2 (λ p row, ∃ w, weights !! p = Some w ∧ w !! j = Some row)
              uniqueProteins rows_
            ↔ Forall2 (λ p row, oriented_row pwms start rev p j = Some row)
                uniqueProteins rows_).
  { intros j rows_ Hj. split; intros HF.
    - eapply Forall2_impl_elem; [exact HF|].
      intros p row Hp (w & Hwp & Hwj).
      destruct (weights_oriented_row _ _ _ _ _ p j Hw Hp Hj)
        as (w' & row' & Hw' & Hr' & Ho).
      by simplify_eq.
    - eapply Forall2_impl_elem; [exact HF|].
      intros p row Hp Ho.
      destruct (weights_oriented_row _ _ _ _ _ p j Hw Hp Hj)
        as (w' & row' & Hw' & Hr' & Ho').
      exists w'. split; [done|]. congruence. }
  split.
  - intros [W Hrun] j rows_ Hj HF Hsome.
    unfold formGLM_trainW in Hrun. rewrite Hw in Hrun.
    change (String.eqb "classifier" "classifier") with true in Hrun.
    cbn [mbind option_bind] in Hrun.
    apply fmap_Some in Hrun as (W' & HW & Heq). injection Heq as ->.
    destruct (for_seq_insert _ _ _ HW j Hj) as (Wj & Hpos & HWj).
    apply (trainW_classifier_position_total _ _ _ _ rows_ Hpos);
      [by apply Hrows | done].
  - intros Hmass.
    destruct (for_succeeds (λ _, True) (seq 0 MWID)
                (λ j W, Wj ← trainW_classifier_position weights uniqueProteins j;
                        Some (<[j := Wj]> W))
                (∅ : gmap nat (list Q)))
      as (W & HW & _); [done | |].
    2: { exists W. unfold formGLM_trainW. rewrite Hw.
         change (String.eqb "classifier" "classifier") with true.
         cbn [mbind option_bind]. by rewrite HW. }
    intros j acc Hj _. apply elem_of_seq in Hj.
    unfold trainW_classifier_position.
    destruct (for_succeeds (λ _, True) uniqueProteins
                (λ protein Wj, w ← weights !! protein; row ← w !! j;
                               Some (Wj ++ (obj_float <$> row))) [obj_dict])
      as (Wj & HWj & _); [done | |].
    { intros p acc' Hp _.
      destruct (weights_oriented_row _ _ _ _ _ p j Hw Hp ltac:(lia))
        as (w & row & Hwp & Hwj & Hor).
      rewrite Hwp. simpl. rewrite Hwj. simpl. eauto. }
    rewrite HWj. cbn [mbind option_bind]. rewrite decide_False by done.
    destruct (trainW_collect _ _ _ _ _ HWj) as (rows_ & HF & ->).
    change ([obj_dict] ++ (obj_float <$> concat rows_))
      with (obj_dict :: (obj_float <$> concat rows_)).
    rewrite py_slice_tail, mapM_obj_float. cbn [mbind option_bind].
    destruct (Qeq_bool (Qsum (concat rows_)) 0) eqn:E; [|eauto].
    apply Qeq_bool_iff in E.
    destruct (concat rows_) as [|x l] eqn:Hc; [eauto|].
    exfalso. apply (Hmass j rows_); [lia|apply Hrows; [lia|exact HF]|by rewrite Hc|].
    by rewrite Hc.
Qed.

(** C9. In classifier mode the weight vector of a window position [j] is
    the concatenation, over the given proteins, of each protein's oriented
    PWM row at position [start + j], divided by the total of those entries;
    the protein list is then non-empty, and when the total is positive the
    vector sums to 1. *)
Theorem formGLM_trainW_classifier_sums_to_one pwms uniqueProteins
    (start rev : gmap string Z) (W : gmap nat (list Q)) (j : nat) :
  formGLM_trainW pwms uniqueProteins start rev "classifier" = Some (W_classifier W) →
  (j < MWID)%nat →
  ∃ rows_,
    Forall2 (λ p row, oriented_row pwms start rev p j = Some row) uniqueProteins rows_
    ∧ uniqueProteins ≠ []
    ∧ W !! j = Some ((λ x, x / Qsum (concat rows_))%Q <$> concat rows_)
    ∧ ((0 < Qsum (concat rows_))%Q →
       (Qsum ((λ x, x / Qsum (concat rows_))%Q <$> concat rows_) == 1)%Q).
Proof.
  unfold formGLM_trainW. intros Hrun Hj.
  apply bind_Some in Hrun as (weights & Hw & Hrun).
  change (String.eqb "classifier" "classifier") with true in Hrun. cbv iota in Hrun.
  apply fmap_Some in Hrun as (W' & HW & Heq). injection Heq as ->.
  destruct (for_seq_insert _ _ _ HW j Hj) as (Wj & Hpos & HWj).
  apply trainW_classifier_position_spec in Hpos as (Hne & rows_ & HF & ->).
  exists rows_. repeat split; [|done..|].
  - eapply Forall2_impl_elem; [exact HF|].
    intros p row Hp (w & Hwp & Hwj).
    destruct (weights_oriented_row _ _ _ _ _ p j Hw Hp Hj) as (w' & row' & Hw' & Hr' & Ho).
    by simplify_eq.
  - intros Hpos. apply Qsum_normalised. intros Hz. rewrite Hz in Hpos.
    by apply Qlt_irrefl in Hpos.
Qed.

(** ** formGLM_fullX *)

Lemma one_hot_length (numAAs aa : nat) : length (one_hot numAAs aa) = numAAs.
Proof.
  unfold one_hot. destruct (aa <? numAAs)%nat;
    by rewrite ?length_insert, length_replicate.
Qed.

(** Column [k] of a block is 1 exactly for the symbol with index [k]; a
    symbol with index [numAAs] or more leaves the whole block at 0. *)
Lemma one_hot_lookup (numAAs aa k : nat) :
  (k < numAAs)%nat →
  one_hot numAAs aa !! k = Some (if decide (k = aa) then 1 else 0).
Proof.
  intros Hk. unfold one_hot.
  destruct (aa <? numAAs)%nat eqn:E.
  - apply Nat.ltb_lt in E. destruct (decide (k = aa)) as [->|Hne].
    + rewrite list_lookup_insert_eq; [done|]. by rewrite length_replicate.
    + rewrite list_lookup_insert_ne by done. by apply lookup_replicate_2.
  - apply Nat.ltb_ge in E. rewrite decide_False by lia.
    by apply lookup_replicate_2.
Qed.

Lemma one_hot_beyond (numAAs aa : nat) :
  (numAAs ≤ aa)%nat → one_hot numAAs aa = replicate numAAs 0.
Proof.
  intros Hge. unfold one_hot.
  by replace (aa <? numAAs)%nat with false by (symmetry; apply Nat.ltb_ge; lia).
Qed.

Lemma index_of_bound (c : ascii) (l : list ascii) (n : nat) :
  index_of c l = Some n → (n < length l)%nat.
Proof.
  revert n. induction l as [|x l IH]; intros n Hn; simpl in Hn; [done|].
  destruct (Ascii.eqb x c).
  - simplify_eq. simpl. lia.
  - apply fmap_Some in Hn as (m & Hm & ->). apply IH in Hm. simpl. lia.
Qed.

Lemma encode_core_spec (numAAs : nat) (core_seq : string) (aa_pos : list Z)
    (x : list Z) :
  encode_core numAAs core_seq aa_pos = Some x → encodes numAAs core_seq aa_pos x.
Proof.
  unfold encode_core, encodes.
  assert (Hgen : ∀ l x0 x1,
            for_ l (λ i x,
                      c ← py_getitem (list_ascii_of_string core_seq) i;
                      aa ← A2IND c; Some (x ++ one_hot numAAs aa)) x0 = Some x1 →
            ∃ aas, Forall2 (λ i aa, ∃ c, py_getitem (list_ascii_of_string core_seq) i = Some c
                                         ∧ A2IND c = Some aa) l aas
                   ∧ Forall (λ aa, (aa < 20)%nat) aas
                   ∧ x1 = x0 ++ concat (one_hot numAAs <$> aas)).
  { induction l as [|i l IH]; intros x0 x1 Hl; simpl in Hl.
    - exists []. simplify_eq. simpl. by rewrite app_nil_r.
    - destruct (py_getitem _ i) as [c|] eqn:Hc; simpl in Hl; [|done].
      destruct (A2IND c) as [aa|] eqn:Ha; simpl in Hl; [|done].
      destruct (IH _ _ Hl) as (aas & HF & Hb & ->).
      exists (aa :: aas). repeat split.
      + constructor; [by exists c | done].
      + constructor; [|done]. apply index_of_bound in Ha. exact Ha.
      + simpl. by rewrite <- app_assoc. }
  intros Hrun. destruct (Hgen _ _ _ Hrun) as (aas & ? & ? & ->). by exists aas.
Qed.

Lemma encodes_length (numAAs : nat) (core_seq : string) (aa_pos : list Z)
    (x : list Z) :
  encodes numAAs core_seq aa_pos x → length x = (numAAs * length aa_pos)%nat.
Proof.
  intros (aas & HF & _ & ->). apply Forall2_length in HF. rewrite HF.
  clear HF. induction aas as [|aa aas IH]; [simpl; lia|].
  rewrite fmap_cons. change (concat (?a :: ?l)) with (a ++ concat l).
  rewrite length_app, one_hot_length, IH. simpl. lia.
Qed.

Lemma np_concatenate_spec (a a' : ndarray) (b : list (list Z)) :
  np_concatenate a b = Some a' →
  ncols a' = ncols a ∧ rows a' = rows a ++ b.
Proof.
  unfold np_concatenate. destruct (forallb _ b); [|done].
  intros [= <-]. done.
Qed.

Section FullX.

Variables (core : gmap string string) (numAAs : nat) (modelType : string)
  (aa_pos : list Z).

Let row_of := protein_row core numAAs aa_pos.

Lemma fullX_protein_spec p Xj rowNum Xj' rowNum' :
  fullX_protein core numAAs modelType aa_pos p (Xj, rowNum) = Some (Xj', rowNum') →
  ∃ x, row_of p x
       ∧ ncols Xj' = ncols Xj
       ∧ rows Xj' = rows Xj ++ replicate (rows_per_protein modelType) x
       ∧ rowNum' = rowNum + Z.of_nat (rows_per_protein modelType).
Proof.
  unfold fullX_protein, rows_per_protein. intros Hrun.
  apply bind_Some in Hrun as (core_seq & Hcore & Hrun).
  apply bind_Some in Hrun as (x & Hx & Hrun).
  apply encode_core_spec in Hx.
  exists x. split; [by exists core_seq|].
  destruct (String.eqb modelType "classifier").
  - apply bind_Some in Hrun as (X1 & Hc & [= <- <-]).
    apply np_concatenate_spec in Hc as [? ?]. split_and!; try done; lia.
  - destruct (String.eqb modelType "regressor").
    + apply bind_Some in Hrun as (X1 & Hc & [= <- <-]).
      apply np_concatenate_spec in Hc as [? ?]. split_and!; try done; lia.
    + injection Hrun as <- <-. simpl. rewrite app_nil_r. split_and!; try done; lia.
Qed.

Lemma fullX_members_spec members Xj rowNum Xj' rowNum' :
  for_ members (fullX_protein core numAAs modelType aa_pos) (Xj, rowNum)
    = Some (Xj', rowNum') →
  ncols Xj' = ncols Xj
  ∧ rowNum' = rowNum + Z.of_nat (rows_per_protein modelType) * Z.of_nat (length members)
  ∧ ∃ xs, Forall2 row_of members xs
          ∧ rows Xj' = rows Xj ++ concat (replicate (rows_per_protein modelType) <$> xs).
Proof.
  revert Xj rowNum. induction members as [|p members IH]; intros Xj rowNum Hrun.
  - injection Hrun as <- <-. split_and!; [done | simpl; lia |].
    exists []. split; [constructor|]. simpl. by rewrite app_nil_r.
  - simpl in Hrun. apply bind_Some in Hrun as ([X1 n1] & Hp & Hrun).
    apply fullX_protein_spec in Hp as (x & Hx & Hc & Hr & ->).
    apply IH in Hrun as (Hc' & -> & xs & HF & Hr').
    split_and!; [congruence | simpl length; lia |].
    exists (x :: xs). split; [by constructor|].
    rewrite Hr', Hr. simpl. by rewrite <- !app_assoc.
Qed.

Lemma fullX_groups_spec obsGrps Xj rowNum (G : gmap string (Z * Z)) Xj' rowNum' G' :
  for_ obsGrps (fullX_group core numAAs modelType aa_pos) (Xj, rowNum, G)
    = Some (Xj', rowNum', G') →
  let k := Z.of_nat (rows_per_protein modelType) in
  ncols Xj' = ncols Xj
  ∧ rowNum' = rowNum + k * Z.of_nat (length (group_members obsGrps))
  ∧ (∃ xs, Forall2 row_of (group_members obsGrps) xs
           ∧ rows Xj' = rows Xj ++ concat (replicate (rows_per_protein modelType) <$> xs))
  ∧ (∀ g, g ∉ obsGrps.*1 → G' !! g = G !! g)
  ∧ (NoDup (obsGrps.*1) →
     ∀ pre g members post, obsGrps = pre ++ (g, members) :: post →
       G' !! g = Some (rowNum + k * Z.of_nat (length (group_members pre)),
                       rowNum + k * Z.of_nat (length (group_members pre))
                       + k * Z.of_nat (length members) - 1)).
Proof.
  intros Hrun k. revert Xj rowNum G Hrun.
  induction obsGrps as [|[g0 m0] grps IH]; intros Xj rowNum G Hrun.
  - injection Hrun as <- <- <-. unfold group_members. simpl.
    split_and!; [done | lia | | done |].
    + exists []. split; [constructor|]. simpl. by rewrite app_nil_r.
    + intros _ pre g members post Heq. by destruct pre.
  - simpl in Hrun. apply bind_Some in Hrun as ([[X1 n1] G1] & Hg & Hrun).
    unfold fullX_group in Hg.
    apply bind_Some in Hg as ([X1' n1'] & Hm & [= <- <- <-]).
    apply fullX_members_spec in Hm as (Hc1 & -> & xs0 & HF0 & Hr0).
    apply IH in Hrun as (Hc & -> & (xs & HF & Hr) & Hout & Hin).
    assert (Hlen : length (group_members ((g0, m0) :: grps))
                   = (length m0 + length (group_members grps))%nat).
    { unfold group_members. simpl. by rewrite length_app. }
    split_and!.
    + congruence.
    + rewrite Hlen. fold k. lia.
    + exists (xs0 ++ xs). split.
      * unfold group_members. simpl. by apply Forall2_app.
      * rewrite Hr, Hr0, fmap_app, concat_app. by rewrite <- app_assoc.
    + intros g Hg. rewrite fmap_cons in Hg. apply not_elem_of_cons in Hg as [Hne Hg].
      rewrite (Hout g Hg). by rewrite lookup_insert_ne.
    + intros Hnd pre g members post Heq.
      rewrite fmap_cons in Hnd. apply NoDup_cons in Hnd as [Hnotin Hnd].
      destruct pre as [|[g1 m1] pre]; simpl in Heq;
        injection Heq as Hg1 Hm1 Hrest; subst.
      * rewrite (Hout g Hnotin), lookup_insert_eq.
        unfold group_members. simpl. fold k. f_equal. f_equal; lia.
      * rewrite (Hin Hnd pre g members post eq_refl).
        assert (Hl : length (group_members ((g1, m1) :: pre))
                     = (length m1 + length (group_members pre))%nat).
        { unfold group_members. simpl. by rewrite length_app. }
        rewrite Hl. fold k. f_equal. f_equal; lia.
Qed.

End FullX.

Lemma fullX_position_spec core edges obsGrps numAAs modelType (j : nat)
    (X : gmap nat ndarray) (G : gmap string (Z * Z)) X' G' :
  fullX_position core edges obsGrps numAAs modelType j (X, G) = Some (X', G') →
  let k := rows_per_protein modelType in
  ∃ aa_pos M,
    edges !! j = Some aa_pos
    ∧ X' = <[j := M]> X
    ∧ ncols M = (numAAs * length aa_pos)%nat
    ∧ (∃ xs, Forall2 (protein_row core numAAs aa_pos) (group_members obsGrps) xs
             ∧ rows M = concat (replicate k <$> xs))
    ∧ (∀ g, g ∉ obsGrps.*1 → G' !! g = G !! g)
    ∧ (NoDup (obsGrps.*1) →
       ∀ pre g members post, obsGrps = pre ++ (g, members) :: post →
         G' !! g = Some (Z.of_nat k * Z.of_nat (length (group_members pre)),
                         Z.of_nat k * Z.of_nat (length (group_members pre))
                         + Z.of_nat k * Z.of_nat (length members) - 1)).
Proof.
  intros Hrun k. unfold fullX_position in Hrun.
  apply bind_Some in Hrun as (aa_pos & He & Hrun).
  apply bind_Some in Hrun as ([[M n] G1] & Hg & Hrun).
  simpl in Hrun. injection Hrun as <- <-.
  apply fullX_groups_spec in Hg as (Hc & _ & Hrows & Hout & Hin).
  exists aa_pos, M. split_and!; done.
Qed.

(** The state of the loop over the window positions of [formGLM_fullX]. *)
Lemma formGLM_fullX_spec core edges uniqueProteins obsGrps numAAs modelType X G :
  formGLM_fullX core edges uniqueProteins obsGrps numAAs modelType = Some (X, G) →
  let k := rows_per_protein modelType in
  (∀ j, (j < MWID)%nat →
     ∃ aa_pos M,
       edges !! j = Some aa_pos ∧ X !! j = Some M
       ∧ ncols M = (numAAs * length aa_pos)%nat
       ∧ ∃ xs, Forall2 (protein_row core numAAs aa_pos) (group_members obsGrps) xs
               ∧ rows M = concat (replicate k <$> xs))
  ∧ (NoDup (obsGrps.*1) →
     ∀ pre g members post, obsGrps = pre ++ (g, members) :: post →
       G !! g = Some (Z.of_nat k * Z.of_nat (length (group_members pre)),
                      Z.of_nat k * Z.of_nat (length (group_members pre))
                      + Z.of_nat k * Z.of_nat (length members) - 1)).
Proof.
  intros Hrun k. unfold formGLM_fullX in Hrun.
  pose (P := λ (done : list nat) (st : gmap nat ndarray * gmap string (Z * Z)),
    (∀ j, j ∈ done →
       ∃ aa_pos M,
         edges !! j = Some aa_pos ∧ st.1 !! j = Some M
         ∧ ncols M = (numAAs * length aa_pos)%nat
         ∧ ∃ xs, Forall2 (protein_row core numAAs aa_pos) (group_members obsGrps) xs
                 ∧ rows M = concat (replicate k <$> xs))
    ∧ (done ≠ [] → NoDup (obsGrps.*1) →
       ∀ pre g members post, obsGrps = pre ++ (g, members) :: post →
         st.2 !! g = Some (Z.of_nat k * Z.of_nat (length (group_members pre)),
                           Z.of_nat k * Z.of_nat (length (group_members pre))
                           + Z.of_nat k * Z.of_nat (length members) - 1))).
  apply (for_invariant P) in Hrun.
  - destruct Hrun as [HX HG]. split.
    + intros j Hj. apply HX. apply elem_of_seq. lia.
    + apply HG. discriminate.
  - split; [|done]. intros j Hj. by apply elem_of_nil in Hj.
  - intros done a [X1 G1] [X2 G2] [HX HG] _ Hstep.
    apply fullX_position_spec in Hstep
      as (aa_pos & M & He & -> & Hc & Hrows & _ & Hin).
    split; simpl.
    + intros j Hj. destruct (decide (j = a)) as [->|Hne].
      * exists aa_pos, M. by rewrite lookup_insert_eq.
      * rewrite lookup_insert_ne by done. apply HX.
        apply elem_of_app in Hj as [Hj|Hj]; [done|].
        apply list_elem_of_singleton in Hj. congruence.
    + intros _. exact Hin.
Qed.

Lemma encode_core_succeeds (numAAs : nat) (core_seq : string) (aa_pos : list Z) :
  (∀ i, i ∈ aa_pos →
     ∃ c, py_getitem (list_ascii_of_string core_seq) i = Some c ∧ is_Some (A2IND c)) →
  is_Some (encode_core numAAs core_seq aa_pos).
Proof.
  intros Hok. unfold encode_core.
  destruct (for_succeeds (λ _, True) aa_pos
              (λ i x, c ← py_getitem (list_ascii_of_string core_seq) i;
                      aa ← A2IND c; Some (x ++ one_hot numAAs aa)) [])
    as (x & Hx & _); [done | | by exists x].
  intros i x1 Hi _. destruct (Hok i Hi) as (c & Hc & aa & Ha).
  rewrite Hc. simpl. rewrite Ha. simpl. eauto.
Qed.

(** On well-formed inputs [formGLM_fullX] returns its pair. *)
Lemma formGLM_fullX_succeeds core edges uniqueProteins obsGrps numAAs modelType :
  well_formed_design core edges obsGrps →
  is_Some (formGLM_fullX core edges uniqueProteins obsGrps numAAs modelType).
Proof.
  intros Hwf. unfold formGLM_fullX.
  destruct (for_succeeds (λ _, True) (seq 0 MWID)
              (fullX_position core edges obsGrps numAAs modelType) (∅, ∅))
    as (st & Hst & _); [done | | by exists st].
  intros j [X G] Hj _. apply elem_of_seq in Hj.
  destruct (Hwf j ltac:(lia)) as (aa_pos & He & Hprots).
  unfold fullX_position. rewrite He. simpl.
  set (cols := (numAAs * length aa_pos)%nat).
  destruct (for_succeeds
              (λ st : ndarray * Z * gmap string (Z * Z), ncols st.1.1 = cols)
              obsGrps (fullX_group core numAAs modelType aa_pos)
              (mk_ndarray cols [], 0, G))
    as ([[Xj n] G'] & Hrun & _); [done | |].
  2: { rewrite Hrun. simpl. eauto. }
  intros [g members] [[X1 n1] G1] Hg Hcols. simpl in Hcols.
  unfold fullX_group.
  destruct (for_succeeds (λ st : ndarray * Z, ncols st.1 = cols) members
              (fullX_protein core numAAs modelType aa_pos) (X1, n1))
    as ([X2 n2] & Hrun & Hcols2); [done | |].
  2: { rewrite Hrun. simpl. eauto. }
  intros p [X3 n3] Hp Hcols3. simpl in Hcols3.
  assert (Hmem : p ∈ concat (obsGrps.*2)).
  { apply list_elem_of_In, in_concat. exists members. split.
    - apply list_elem_of_In, list_elem_of_fmap. by exists (g, members).
    - by apply list_elem_of_In. }
  destruct (Hprots p Hmem) as (core_seq & Hcore & Hres).
  destruct (encode_core_succeeds numAAs core_seq aa_pos Hres) as [x Hx].
  assert (Hlen : length x = cols).
  { apply encode_core_spec in Hx. by apply encodes_length in Hx. }
  assert (Hcat : ∀ k, np_concatenate X3 (np_tile x k)
                      = Some (mk_ndarray (ncols X3) (rows X3 ++ np_tile x k))).
  { intros k. unfold np_concatenate.
    replace (forallb _ (np_tile x k)) with true; [done|].
    symmetry. apply forallb_forall. intros r Hr.
    apply list_elem_of_In, elem_of_replicate in Hr as [-> _].
    apply Nat.eqb_eq. congruence. }
  unfold fullX_protein. rewrite Hcore. simpl. rewrite Hx. simpl.
  destruct (String.eqb modelType "classifier").
  - rewrite Hcat. simpl. eauto.
  - destruct (String.eqb modelType "regressor").
    + rewrite Hcat. simpl. eauto.
    + eauto.
Qed.

(** C3 (amended). For every window position [j], the design matrix has
    [numAAs * |E_j|] columns, [numAAs] being 19 unless the caller passes
    another value: one block of [numAAs] columns per contact index in [E_j].
    Within a block the column of index [k] is 1 exactly when the residue is
    the amino acid of index [k]; an amino acid whose index is [numAAs] or
    more (Y, index 19, under the default) has no column and leaves its block
    at 0. *)
Theorem formGLM_fullX_columns core edges uniqueProteins obsGrps numAAs
    modelType X G (j : nat) :
  formGLM_fullX core edges uniqueProteins obsGrps numAAs modelType = Some (X, G) →
  (j < MWID)%nat →
  ∃ aa_pos M,
    edges !! j = Some aa_pos ∧ X !! j = Some M
    ∧ ncols M = (numAAs * length aa_pos)%nat
    ∧ (∀ row, row ∈ rows M →
         length row = (numAAs * length aa_pos)%nat
         ∧ ∃ aas, length aas = length aa_pos
                  ∧ Forall (λ aa, (aa < 20)%nat) aas
                  ∧ row = concat (one_hot numAAs <$> aas))
    ∧ (∀ aa k, (k < numAAs)%nat →
         one_hot numAAs aa !! k = Some (if decide (k = aa) then 1 else 0))
    ∧ (∀ aa, (numAAs ≤ aa)%nat → one_hot numAAs aa = replicate numAAs 0)
    ∧ numAAs_default = 19%nat ∧ A2IND "Y" = Some 19%nat.
Proof.
  intros Hrun Hj.
  destruct (formGLM_fullX_spec _ _ _ _ _ _ _ _ Hrun) as [HX _].
  destruct (HX j Hj) as (aa_pos & M & He & HM & Hc & xs & HF & Hrows).
  exists aa_pos, M. split_and!; try done.
  - intros row Hrow. rewrite Hrows in Hrow.
    apply list_elem_of_In, in_concat in Hrow as (blk & Hblk & Hrow).
    apply list_elem_of_In in Hblk, Hrow.
    apply list_elem_of_fmap in Hblk as (x & -> & Hx).
    apply elem_of_replicate in Hrow as [-> _].
    destruct (proj1 (list_elem_of_lookup _ _) Hx) as (i & Hi).
    destruct (Forall2_lookup_r _ _ _ _ _ HF Hi) as (p & _ & core_seq & _ & Henc).
    split; [by eapply encodes_length|].
    destruct Henc as (aas & HF2 & Hb & ->).
    exists aas. split_and!; try done. symmetry. by eapply Forall2_length.
  - intros aa k. apply one_hot_lookup.
  - intros aa. apply one_hot_beyond.
Qed.

(** C3 (counterexample). With the default [numAAs] the matrix of position 3
    of the example, whose contact list holds one index, has 19 columns and
    not 20. Its first four rows, of the protein with T (index 16) at that
    contact, have their 1 in column 16; its last four rows, of the protein
    with Y (index 19), are all 0: Y has no indicator column. *)
Lemma formGLM_fullX_default_has_19_columns :
  formGLM_fullX ex_core ex_edges ex_uniqueProteins ex_obsGrps
    numAAs_default "classifier" = Some ex_design
  ∧ ex_edges !! 3%nat = Some [2]
  ∧ ex_design.1 !! 3%nat
    = Some (mk_ndarray 19 (replicate 4 (<[16%nat := 1]> (replicate 19 0))
                           ++ replicate 4 (replicate 19 0)))
  ∧ (19 ≠ length [2] * 20)%nat.
Proof. split_and!; [vm_compute; reflexivity.. | simpl; lia]. Qed.

Lemma length_concat_replicate {A} (k : nat) (xs : list (list A)) :
  length (concat (replicate k <$> xs)) = (k * length xs)%nat.
Proof.
  induction xs as [|x xs IH]; [simpl; lia|].
  rewrite fmap_cons. change (concat (?a :: ?l)) with (a ++ concat l).
  rewrite length_app, length_replicate, IH. simpl. lia.
Qed.

(** C6. The row range [grpInd[g]] of a group has width [4 * |group|] in
    classifier mode and [|group|] in regressor mode; in traversal order the
    ranges start at 0, each starts right after the previous one ends, and the
    last ends at the last row, the number of rows being the same at every
    window position; the ranges written while any one position is built are
    the returned ones. *)
Theorem formGLM_fullX_row_ranges core edges uniqueProteins obsGrps numAAs
    modelType X G :
  NoDup (obsGrps.*1) →
  formGLM_fullX core edges uniqueProteins obsGrps numAAs modelType = Some (X, G) →
  let k := Z.of_nat (rows_per_protein modelType) in
  let totalRows := k * Z.of_nat (length (group_members obsGrps)) in
  (rows_per_protein "classifier" = 4%nat ∧ rows_per_protein "regressor" = 1%nat)
  ∧ (∀ pre g members post, obsGrps = pre ++ (g, members) :: post →
       ∃ grpStart grpEnd,
         G !! g = Some (grpStart, grpEnd)
         ∧ grpEnd - grpStart + 1 = k * Z.of_nat (length members)
         ∧ grpStart = k * Z.of_nat (length (group_members pre))
         ∧ grpEnd + 1 = k * Z.of_nat (length (group_members (pre ++ [(g, members)])))
         ∧ (post = [] → grpEnd + 1 = totalRows))
  ∧ (∀ j, (j < MWID)%nat →
       ∃ M, X !! j = Some M ∧ Z.of_nat (length (rows M)) = totalRows)
  ∧ (∀ j X0 G0 X1 G1 g,
       fullX_position core edges obsGrps numAAs modelType j (X0, G0) = Some (X1, G1) →
       g ∈ obsGrps.*1 → G1 !! g = G !! g).
Proof.
  intros Hnd Hrun k totalRows.
  destruct (formGLM_fullX_spec _ _ _ _ _ _ _ _ Hrun) as [HX HG].
  specialize (HG Hnd).
  assert (Happ : ∀ pre g members,
            length (group_members (pre ++ [(g, members)]))
            = (length (group_members pre) + length members)%nat).
  { intros pre g members. unfold group_members.
    rewrite fmap_app, concat_app, length_app. simpl. rewrite app_nil_r. done. }
  split_and!; [done | done | | |].
  - intros pre g members post Heq.
    eexists _, _. split; [exact (HG pre g members post Heq)|].
    fold k. split_and!; [lia | done | rewrite Happ; lia |].
    intros ->. unfold totalRows. rewrite Heq, Happ. lia.
  - intros j Hj. destruct (HX j Hj) as (aa_pos & M & _ & HM & _ & xs & HF & Hrows).
    exists M. split; [done|].
    rewrite Hrows, length_concat_replicate.
    apply Forall2_length in HF. unfold totalRows, k. rewrite HF. lia.
  - intros j X0 G0 X1 G1 g Hpos Hg.
    apply fullX_position_spec in Hpos as (_ & _ & _ & _ & _ & _ & _ & Hin).
    apply list_elem_of_fmap in Hg as ([g' members] & -> & Hg).
    apply list_elem_of_split in Hg as (pre & post & Heq). simpl.
    rewrite (Hin Hnd pre g' members post Heq).
    by rewrite (HG pre g' members post Heq).
Qed.

(** ** The chain monad *)

Section ChainLogic.

Context `{Libraries}.

Lemma wp_mono {A} (m : chain A) (post post' : A → world → Prop) w :
  wp m post w → (∀ a w', post a w' → post' a w') → wp m post' w.
Proof. intros Hwp Himp a w' Hrun. by apply Himp, Hwp. Qed.

Lemma wp_ret {A} (a : A) (post : A → world → Prop) w :
  post a w → wp (mret a) post w.
Proof. intros Hp a' w' [= <- <-]. done. Qed.

Lemma wp_bind {A B} (m : chain A) (k : A → chain B) (post : B → world → Prop) w :
  wp m (λ a w', wp (k a) post w') w → wp (m ≫= k) post w.
Proof.
  intros Hwp b w'' Hrun. unfold mbind, chain_mbind, chain_bind in Hrun.
  destruct (m w) as [a w'| |] eqn:Hm; [|done..].
  by apply (Hwp a w' Hm).
Qed.

Lemma wp_lift {A} (o : option A) (post : A → world → Prop) w :
  (∀ a, o = Some a → post a w) → wp (lift o) post w.
Proof.
  intros Hp a w' Hrun. unfold lift in Hrun.
  destruct o as [a0|]; [|done]. injection Hrun as <- <-. by apply Hp.
Qed.

Lemma wp_draw {A} (f : Rng → option (A * Rng)) (post : A → world → Prop) w :
  (∀ a g, f (w_rng w) = Some (a, g) → post a (mk_world g (w_heap w))) →
  wp (draw f) post w.
Proof.
  intros Hp a w' Hrun. unfold draw in Hrun.
  destruct (f (w_rng w)) as [[a0 g]|] eqn:Hf; [|done].
  injection Hrun as <- <-. by apply Hp.
Qed.

Lemma wp_deref (l : nat) (post : gmap string Z → world → Prop) w :
  (∀ d, w_heap w !! l = Some d → post d w) → wp (deref l) post w.
Proof.
  intros Hp d w' Hrun. unfold deref in Hrun.
  destruct (w_heap w !! l) as [d0|] eqn:Hl; [|done].
  injection Hrun as <- <-. by apply Hp.
Qed.

Lemma wp_setitem (l : nat) (k : string) (v : Z) (post : unit → world → Prop) w :
  (∀ d, w_heap w !! l = Some d →
        post () (mk_world (w_rng w) (<[l := <[k := v]> d]> (w_heap w)))) →
  wp (setitem l k v) post w.
Proof.
  intros Hp u w' Hrun. unfold setitem in Hrun.
  destruct (w_heap w !! l) as [d0|] eqn:Hl; [|done].
  injection Hrun as <- <-. by apply Hp.
Qed.

Lemma wp_new_dict (d : gmap string Z) (post : nat → world → Prop) w :
  (∀ l, w_heap w !! l = None →
        post l (mk_world (w_rng w) (<[l := d]> (w_heap w)))) →
  wp (new_dict d) post w.
Proof.
  intros Hp l w' Hrun. unfold new_dict in Hrun.
  injection Hrun as <- <-. apply Hp.
  apply not_elem_of_dom. apply is_fresh.
Qed.

(** A loop invariant for [cfor]. *)
Lemma wp_cfor {A S} (inv : list A → S → world → Prop) (l : list A)
    (body : A → S → chain S) (s : S) w :
  inv [] s w →
  (∀ done a s1 w1, a ∈ l → inv done s1 w1 →
     wp (body a s1) (λ s2 w2, inv (done ++ [a]) s2 w2) w1) →
  wp (cfor l body s) (inv l) w.
Proof.
  intros H0 Hstep.
  assert (Hgen : ∀ rest done s1 w1, (∀ a, a ∈ rest → a ∈ l) → inv done s1 w1 →
            wp (cfor rest body s1) (inv (done ++ rest)) w1).
  { induction rest as [|a rest IH]; intros done s1 w1 Hin Hinv.
    - rewrite app_nil_r. by apply wp_ret.
    - simpl. apply wp_bind.
      eapply wp_mono; [apply (Hstep done); [apply Hin; by left | done]|].
      intros s2 w2 Hinv2. simpl in Hinv2.
      replace (done ++ a :: rest) with ((done ++ [a]) ++ rest)
        by (by rewrite <- app_assoc).
      apply IH; [|done]. intros b Hb. apply Hin. by right. }
  apply (Hgen l [] s w); auto.
Qed.

End ChainLogic.

(** ** The convergence test *)

Lemma Qltb_lt (x y : Q) : Qltb x y = true ↔ (x < y)%Q.
Proof.
  unfold Qltb. rewrite negb_true_iff. split.
  - intros Hb. apply Qnot_le_lt. intros Hle.
    apply Qle_bool_iff in Hle. congruence.
  - intros Hlt. destruct (Qle_bool y x) eqn:E; [|done].
    apply Qle_bool_iff in E. by apply Qlt_not_le in Hlt.
Qed.

(** A loop that counts the rounds whose test succeeds. *)
Lemma for_count {A} (f : A → option bool) (l : list A) (n0 n : Z) :
  for_ l (λ a n, b ← f a; Some (if b : bool then n + 1 else n)) n0 = Some n →
  n0 ≤ n ≤ n0 + Z.of_nat (length l)
  ∧ (n = n0 + Z.of_nat (length l) ↔ Forall (λ a, f a = Some true) l).
Proof.
  revert n0. induction l as [|a l IH]; intros n0 Hrun; simpl in Hrun.
  - injection Hrun as <-. simpl. split; [lia|]. split; [constructor | lia].
  - apply bind_Some in Hrun as (n1 & Hb & Hrun).
    apply bind_Some in Hb as (b & Hf & [= <-]).
    apply IH in Hrun as [Hbound Hall]. simpl length.
    destruct b.
    + split; [lia|]. split.
      * intros ->. constructor; [done|]. apply Hall. lia.
      * intros Hfa. apply Forall_cons in Hfa as [_ Hfa]. apply Hall in Hfa. lia.
    + split; [lia|]. split; [lia|].
      intros Hfa. apply Forall_cons in Hfa as [Hfa _]. congruence.
Qed.

(** The count reaches 5 exactly when five values have been recorded and
    each of the five most recent ones is within the tolerance of [ll]. *)
Lemma count_within_tol_five (ll : Q) (llsAll : list Q) (n : Z) :
  count_within_tol ll llsAll = Some n →
  n = 5 ↔ (5 ≤ length llsAll)%nat
          ∧ Forall (λ prev, (Qabs (ll - prev) < tol)%Q)
              (drop (length llsAll - 5) llsAll).
Proof.
  unfold count_within_tol. set (len := Z.of_nat (length llsAll)).
  intros Hrun.
  rewrite (for_ext _ _ (λ i nIterLTtol,
             b ← (prev ← py_getitem llsAll (len - i - 1);
                  Some (Qltb (Qabs (ll - prev)) tol));
             Some (if b : bool then nIterLTtol + 1 else nIterLTtol))) in Hrun.
  2: { intros i k. by destruct (py_getitem llsAll (len - i - 1)). }
  apply for_count in Hrun as [Hbound Hall].
  rewrite py_range_length in Hbound, Hall.
  rewrite Forall_forall in Hall.
  split.
  - intros ->. assert (Hlen : (5 ≤ length llsAll)%nat) by lia.
    split; [done|].
    apply Forall_lookup. intros t x Hx.
    rewrite lookup_drop in Hx.
    assert (Ht : (t < 5)%nat) by (apply lookup_lt_Some in Hx; lia).
    assert (Hf := proj1 Hall ltac:(lia) (Z.of_nat (4 - t))).
    rewrite py_getitem_nonneg in Hf by lia.
    replace (Z.to_nat (len - Z.of_nat (4 - t) - 1))
      with (length llsAll - 5 + t)%nat in Hf by lia.
    rewrite Hx in Hf. apply Qltb_lt.
    assert (Hin : Z.of_nat (4 - t) ∈ py_range (len `min` 5)).
    { unfold py_range. apply list_elem_of_fmap. exists (4 - t)%nat.
      split; [done|]. apply elem_of_seq. lia. }
    specialize (Hf Hin). injection Hf as Hf. exact Hf.
  - intros [Hlen Hfa].
    assert (Hgoal : Forall (λ i, (prev ← py_getitem llsAll (len - i - 1);
                                  Some (Qltb (Qabs (ll - prev)) tol)) = Some true)
                      (py_range (len `min` 5))).
    { apply Forall_forall. intros i Hi.
      unfold py_range in Hi. apply list_elem_of_fmap in Hi as (t & -> & Ht).
      apply elem_of_seq in Ht.
      rewrite py_getitem_nonneg by lia.
      destruct (lookup_lt_is_Some_2 llsAll (Z.to_nat (len - Z.of_nat t - 1)))
        as [x Hx]; [lia|].
      rewrite Hx. change (Some (Qltb (Qabs (ll - x)) tol) = Some true).
      f_equal. apply Qltb_lt.
      rewrite Forall_lookup in Hfa. apply (Hfa (4 - t)%nat).
      rewrite lookup_drop. rewrite <- Hx. f_equal. lia. }
    rewrite <- Forall_forall in Hall. apply Hall in Hgoal. lia.
Qed.

Lemma count_within_tol_total (ll : Q) (llsAll : list Q) :
  is_Some (count_within_tol ll llsAll).
Proof.
  unfold count_within_tol. set (len := Z.of_nat (length llsAll)).
  assert (Hgen : ∀ l n0, (∀ i, i ∈ l → 0 ≤ i < len) →
            is_Some (for_ l (λ i nIterLTtol,
                       prev ← py_getitem llsAll (len - i - 1);
                       let delta := Qabs (ll - prev) in
                       Some (if Qltb delta tol then nIterLTtol + 1 else nIterLTtol)) n0)).
  { induction l as [|i l IH]; intros n0 Hin; simpl; [by eexists|].
    rewrite py_getitem_nonneg by (specialize (Hin i ltac:(by left)); lia).
    destruct (lookup_lt_is_Some_2 llsAll (Z.to_nat (len - i - 1))) as [x Hx].
    { specialize (Hin i ltac:(by left)). lia. }
    rewrite Hx. simpl. apply IH. intros k Hk. apply Hin. by right. }
  apply Hgen. intros i Hi. unfold py_range in Hi.
  apply list_elem_of_fmap in Hi as (t & -> & Ht). apply elem_of_seq in Ht. lia.
Qed.

(** ** One pass of the loop body *)

Section Iteration.

Context `{Libraries}.
Variable inp : chain_inputs.

Lemma heap_step_refl start rev w : heap_step inp start rev w w.
Proof. intros l d Hl. exists d. done. Qed.

Lemma heap_step_trans start rev w1 w2 w3 :
  heap_step inp start rev w1 w2 → heap_step inp start rev w2 w3 →
  heap_step inp start rev w1 w3.
Proof.
  intros H12 H23 l d Hl.
  destruct (H12 l d Hl) as (d2 & Hl2 & Hsame2 & Hpin2).
  destruct (H23 l d2 Hl2) as (d3 & Hl3 & Hsame3 & Hpin3).
  exists d3. split_and!; [done| |].
  - intros Hs Hr. rewrite Hsame3, Hsame2; done.
  - intros q Hq. rewrite Hpin3, Hpin2; done.
Qed.

Lemma heap_step_rng start rev w g :
  heap_step inp start rev w (mk_world g (w_heap w)).
Proof. intros l d Hl. exists d. done. Qed.

(** Writing an unpinned key of [start] or [rev]. *)
Lemma heap_step_setitem start rev w l0 d0 (k : string) (v : Z) :
  (l0 = start ∨ l0 = rev) →
  fixedStarts inp !! k = None →
  w_heap w !! l0 = Some d0 →
  heap_step inp start rev w (mk_world (w_rng w) (<[l0 := <[k := v]> d0]> (w_heap w))).
Proof.
  intros Hl0 Hk Hd0 l d Hl. simpl.
  destruct (decide (l = l0)) as [->|Hne].
  - rewrite lookup_insert_eq. eexists. split; [done|]. simplify_eq. split.
    + intros ? ?. destruct Hl0; congruence.
    + intros q [x Hq]. rewrite lookup_insert_ne; [done|]. congruence.
  - rewrite lookup_insert_ne by done. exists d. done.
Qed.

Lemma resample_protein_heap model start rev p st w :
  wp (resample_protein inp model start rev p st)
     (λ _ w', heap_step inp start rev w w') w.
Proof.
  unfold resample_protein. destruct st as [valuesChanged index_p].
  destruct (decide (is_Some (fixedStarts inp !! p))) as [Hpin|Hfree].
  { apply wp_ret, heap_step_refl. }
  assert (Hk : fixedStarts inp !! p = None).
  { destruct (fixedStarts inp !! p) eqn:E; [|done]. exfalso. apply Hfree. by eexists. }
  apply wp_bind, wp_lift. intros testX _.
  apply wp_bind, wp_draw. intros [[s r] lls] g _.
  apply wp_bind, wp_deref. intros startd _.
  apply wp_bind, wp_lift. intros sp _.
  set (w1 := mk_world g (w_heap w)).
  assert (H1 : heap_step inp start rev w w1) by apply heap_step_rng.
  apply wp_bind.
  apply (wp_mono _ (λ _ w', w' = w1)).
  { destruct (decide (s ≠ sp)).
    - by apply wp_ret.
    - apply wp_bind, wp_deref. intros revd _.
      apply wp_bind, wp_lift. intros rp _. by apply wp_ret. }
  intros changed w' Hw'. simpl in Hw'. subst w'.
  apply wp_bind, wp_setitem. intros d Hd.
  assert (H2 := heap_step_setitem start rev w1 start d p s (or_introl eq_refl) Hk Hd).
  apply wp_bind, wp_setitem. intros d' Hd'.
  apply wp_ret.
  eapply heap_step_trans; [exact H1|].
  eapply heap_step_trans; [exact H2|].
  apply (heap_step_setitem start rev _ rev d' p r (or_intror eq_refl) Hk Hd').
Qed.

Lemma sweep_group_heap start rev grp st w :
  wp (sweep_group inp start rev grp st) (λ _ w', heap_step inp start rev w w') w.
Proof.
  unfold sweep_group. destruct st as [valuesChanged model0].
  destruct grp as [grpID members].
  apply wp_bind, wp_lift. intros [startInd_ho endIndex_ho] _.
  apply wp_bind, wp_lift. intros trainX _.
  apply wp_bind, wp_deref. intros startd _.
  apply wp_bind, wp_deref. intros revd _.
  apply wp_bind, wp_lift. intros trainW _.
  apply wp_bind, wp_lift. intros model _.
  apply wp_bind.
  eapply wp_mono.
  { apply (wp_cfor (λ _ _ w', heap_step inp start rev w w')).
    - apply heap_step_refl.
    - intros done p st1 w1 _ Hinv.
      eapply wp_mono; [apply resample_protein_heap|].
      intros st2 w2 Hstep. by eapply heap_step_trans. }
  intros [vc ip] w' Hstep. by apply wp_ret.
Qed.

Lemma sweep_ll_world model start rev w :
  wp (sweep_ll inp model start rev) (λ _ w', w' = w) w.
Proof.
  unfold sweep_ll.
  apply wp_bind, wp_deref. intros startd _.
  apply wp_bind, wp_deref. intros revd _.
  apply wp_lift. done.
Qed.

(** The effect of one pass of the loop body on the local variables and on
    the store. *)
Lemma gibbs_iteration_spec ls w :
  wp (gibbs_iteration inp ls)
     (λ ls' w', iteration_locals ls ls'
                ∧ heap_step inp (v_start ls) (v_rev ls) w w') w.
Proof.
  unfold gibbs_iteration.
  apply wp_bind. eapply wp_mono.
  { apply (wp_cfor (λ _ _ w', heap_step inp (v_start ls) (v_rev ls) w w')).
    - apply heap_step_refl.
    - intros done grp st1 w1 _ Hinv.
      eapply wp_mono; [apply sweep_group_heap|].
      intros st2 w2 Hstep. by eapply heap_step_trans. }
  intros [valuesChanged model] w1 Hstep.
  apply wp_bind. eapply wp_mono; [apply sweep_ll_world|].
  intros ll w2 Hw2. simpl in Hw2. subst w2.
  apply wp_bind. apply (wp_mono _ (λ _ w', w' = w1)).
  { destruct (verbose inp).
    - apply wp_bind, wp_deref. intros startd _.
      apply wp_bind, wp_deref. intros revd _.
      by apply wp_lift.
    - by apply wp_ret. }
  intros u w3 Hw3. simpl in Hw3. subst w3.
  destruct (Qltb (v_bestll ls) ll) eqn:Hbest.
  - apply wp_bind, wp_lift. intros n Hn. apply wp_ret.
    split; [|done]. unfold iteration_locals. simpl.
    split_and!; try done. exists ll, n. rewrite Hbest. done.
  - apply wp_bind, wp_lift. intros n Hn. apply wp_ret.
    split; [|done]. unfold iteration_locals. simpl.
    split_and!; try done. exists ll, n. rewrite Hbest. done.
Qed.

End Iteration.

(** ** The while loop *)

Lemma run_ending_at_snoc (old : list Q) (ll : Q) :
  run_ending_at (old ++ [ll]) (length old)
  ↔ (5 ≤ length old)%nat
    ∧ Forall (λ prev, (Qabs (ll - prev) < tol)%Q) (drop (length old - 5) old).
Proof.
  unfold run_ending_at. split.
  - intros (Hk & x & Hx & Hrun). split; [done|].
    rewrite lookup_app_r, Nat.sub_diag in Hx by lia. injection Hx as <-.
    apply Forall_lookup. intros t y Hy. rewrite lookup_drop in Hy.
    assert (Ht : (t < 5)%nat) by (apply lookup_lt_Some in Hy; lia).
    destruct (Hrun (5 - t)%nat ltac:(lia)) as (y' & Hy' & Hclose).
    rewrite lookup_app_l in Hy' by lia.
    replace (length old - (5 - t))%nat with (length old - 5 + t)%nat in Hy' by lia.
    congruence.
  - intros [Hk Hfa]. split; [done|]. exists ll. split.
    + by rewrite lookup_app_r, Nat.sub_diag by lia.
    + intros i Hi. rewrite lookup_app_l by lia.
      destruct (lookup_lt_is_Some_2 old (length old - i)%nat) as [y Hy]; [lia|].
      exists y. split; [done|].
      rewrite Forall_lookup in Hfa. apply (Hfa (5 - i)%nat).
      rewrite lookup_drop. rewrite <- Hy. f_equal. lia.
Qed.

Lemma run_ending_at_prefix (old : list Q) (ll : Q) (k : nat) :
  (k < length old)%nat →
  run_ending_at (old ++ [ll]) k ↔ run_ending_at old k.
Proof.
  intros Hk. unfold run_ending_at.
  rewrite lookup_app_l by done.
  split; intros (H5 & x & Hx & Hrun); (split; [done|]); exists x;
    (split; [done|]); intros i Hi; specialize (Hrun i Hi).
  - by rewrite lookup_app_l in Hrun by lia.
  - by rewrite lookup_app_l by lia.
Qed.

Lemma run_ending_at_bound (l : list Q) (k : nat) :
  run_ending_at l k → (k < length l)%nat.
Proof. intros (_ & x & Hx & _). by apply lookup_lt_Some in Hx. Qed.

Section Loop.

Context `{Libraries}.
Variable inp : chain_inputs.

(** The loop body keeps the invariant when the loop condition holds. *)
Lemma loop_invariant_step (ls ls' : locals) :
  loop_invariant inp ls →
  v_nIters ls < maxIters inp →
  v_converged ls = false →
  iteration_locals ls ls' →
  loop_invariant inp ls'.
Proof.
  intros (Hn & Hlen & Hhead & Hbest & Hmax & Hrun & Hconv) Hlt Hnc
         (Hn' & _ & _ & ll & n & Hlls & Hcount & Hconv' & Hbest').
  assert (Hfive := count_within_tol_five _ _ _ Hcount).
  assert (Hsnoc := run_ending_at_snoc (v_llsAll ls) ll).
  assert (Hk : length (v_llsAll ls) = Z.to_nat (v_nIters ls')) by lia.
  unfold loop_invariant. rewrite Hlls, Hn'.
  split_and!.
  - lia.
  - lia.
  - rewrite length_app. simpl. lia.
  - rewrite lookup_app_l; [done|]. lia.
  - destruct (Qltb (v_bestll ls) ll); injection Hbest' as -> _ _.
    + apply elem_of_app. right. by left.
    + apply elem_of_app. by left.
  - destruct (Qltb (v_bestll ls) ll) eqn:E; injection Hbest' as -> _ _.
    + apply Qltb_lt in E. apply Forall_app. split.
      * eapply Forall_impl; [exact Hmax|]. intros x Hx. simpl in Hx.
        apply Qlt_le_weak. eapply Qle_lt_trans; eauto.
      * repeat constructor. apply Qle_refl.
    + apply Forall_app. split; [done|]. repeat constructor.
      apply Qnot_lt_le. intros Hlt'. apply Qltb_lt in Hlt'. congruence.
  - intros k Hk'.
    assert (Hb := run_ending_at_bound _ _ Hk'). rewrite length_app in Hb. simpl in Hb.
    destruct (decide (k = length (v_llsAll ls))) as [->|Hne].
    + apply Hsnoc, Hfive in Hk'. subst n. split; [by rewrite Hconv' | lia].
    + assert (Hlt' : (k < length (v_llsAll ls))%nat) by lia.
      apply (proj1 (run_ending_at_prefix _ ll k Hlt')) in Hk'.
      apply Hrun in Hk' as [? ?]. congruence.
  - intros Hc. rewrite Hconv' in Hc.
    destruct (n =? 5) eqn:E; [|congruence].
    apply Z.eqb_eq in E.
    replace (Z.to_nat (v_nIters ls + 1)) with (length (v_llsAll ls)) by lia.
    apply Hsnoc, Hfive. done.
Qed.

End Loop.

(** ** Initialisation *)

Section Init.

Context `{Libraries}.

(** After [initStarts] the two dicts are distinct objects and every pinned
    protein of the list has its supplied register. *)
Lemma initStarts_spec uniqueProteins pwms mWid (fixedStarts : gmap string (Z * Z)) w :
  wp (initStarts uniqueProteins pwms mWid fixedStarts)
     (λ '(start, rev) w',
        start ≠ rev
        ∧ ∃ sd rd, w_heap w' !! start = Some sd ∧ w_heap w' !! rev = Some rd
            ∧ ∀ p fs fr, p ∈ uniqueProteins → fixedStarts !! p = Some (fs, fr) →
                sd !! p = Some fs ∧ rd !! p = Some fr) w.
Proof.
  unfold initStarts.
  apply wp_bind, wp_new_dict. intros start Hstart.
  apply wp_bind, wp_new_dict. intros rev Hrev. simpl in Hrev.
  assert (Hne : start ≠ rev).
  { intros ->. by rewrite lookup_insert_eq in Hrev. }
  apply wp_bind. eapply wp_mono.
  { apply (wp_cfor (λ done _ w',
       ∃ sd rd, w_heap w' !! start = Some sd ∧ w_heap w' !! rev = Some rd
         ∧ ∀ p fs fr, p ∈ done → fixedStarts !! p = Some (fs, fr) →
             sd !! p = Some fs ∧ rd !! p = Some fr)).
    - exists ∅, ∅. simpl. rewrite lookup_insert_ne, !lookup_insert_eq by done.
      split_and!; try done. intros p fs fr Hp. by apply elem_of_nil in Hp.
    - intros done k [] w1 _ (sd & rd & Hsd & Hrd & Hpin).
      destruct (fixedStarts !! k) as [[fs0 fr0]|] eqn:Hk.
      + apply wp_bind, wp_setitem. intros d Hd. simplify_eq.
        apply wp_setitem. simpl. intros d' Hd'.
        rewrite lookup_insert_ne in Hd' by done. simplify_eq.
        exists (<[k := fs0]> sd), (<[k := fr0]> rd). simpl.
        rewrite lookup_insert_eq, lookup_insert_ne, lookup_insert_eq by done.
        split_and!; try done. intros p fs fr Hp Hfx.
        destruct (decide (p = k)) as [->|Hpk].
        * rewrite !lookup_insert_eq. by simplify_eq.
        * rewrite !lookup_insert_ne by done. apply Hpin; [|done].
          apply elem_of_app in Hp as [Hp|Hp]; [done|].
          apply list_elem_of_singleton in Hp. congruence.
      + apply wp_bind, wp_draw. intros r g _.
        apply wp_bind, wp_setitem. simpl. intros d Hd. simplify_eq.
        apply wp_bind, wp_lift. intros pwm _.
        apply wp_bind, wp_draw. simpl. intros s g' _.
        apply wp_setitem. simpl. intros d' Hd'.
        rewrite lookup_insert_ne in Hd' by done. simplify_eq.
        exists (<[k := s]> sd), (<[k := r]> rd). simpl.
        rewrite lookup_insert_eq, lookup_insert_ne, lookup_insert_eq by done.
        split_and!; try done. intros p fs fr Hp Hfx.
        assert (Hpk : p ≠ k) by (intros ->; congruence).
        rewrite !lookup_insert_ne by done. apply Hpin; [|done].
        apply elem_of_app in Hp as [Hp|Hp]; [done|].
        apply list_elem_of_singleton in Hp. congruence. }
  intros [] w' Hinv. by apply wp_ret.
Qed.

Variable inp : chain_inputs.

Lemma gibbs_init_spec w :
  wp (gibbs_init inp) (λ '(ls, _, _) w', loop_entry inp ls w') w.
Proof.
  unfold gibbs_init.
  apply wp_bind.
  apply (wp_mono _ (λ '(start, rev) w',
      ∃ sd rd, w_heap w' !! start = Some sd ∧ w_heap w' !! rev = Some rd
        ∧ (init_oracle inp = false →
           ∀ p fs fr, p ∈ uniqueProteins inp → fixedStarts inp !! p = Some (fs, fr) →
             sd !! p = Some fs ∧ rd !! p = Some fr))).
  { unfold gibbs_registers. destruct (init_oracle inp).
    - apply wp_bind, wp_lift. intros nb_res _.
      apply wp_bind, wp_lift. intros nb_opt _.
      apply wp_bind, wp_lift. intros s _.
      apply wp_bind, wp_lift. intros r _.
      apply wp_bind, wp_new_dict. intros start Hstart.
      apply wp_bind, wp_new_dict. simpl. intros rev Hrev.
      apply wp_ret. simpl.
      assert (Hne : start ≠ rev).
      { intros ->. by rewrite lookup_insert_eq in Hrev. }
      exists s, r. rewrite lookup_insert_ne, !lookup_insert_eq by done. done.
    - eapply wp_mono; [apply initStarts_spec|].
      intros [start rev] w' (_ & sd & rd & ? & ? & ?). exists sd, rd. eauto. }
  intros [start rev] w1 (sd & rd & Hsd & Hrd & Hpin).
  apply wp_bind, wp_deref. intros startd Hstartd.
  rewrite Hsd in Hstartd. injection Hstartd as <-.
  apply wp_bind, wp_deref. intros revd Hrevd.
  rewrite Hrd in Hrevd. injection Hrevd as <-.
  apply wp_bind, wp_lift. intros init_model _.
  apply wp_bind, wp_lift. intros init_PC_agree _.
  apply wp_bind, wp_lift. intros init_mse _.
  apply wp_bind. unfold deepcopy.
  apply wp_bind, wp_deref. intros d Hd.
  rewrite Hsd in Hd. injection Hd as <-.
  apply wp_new_dict. intros bestStart HbS.
  apply wp_bind. apply wp_bind, wp_deref. simpl. intros d Hd.
  apply wp_new_dict. simpl. intros bestRev HbR.
  apply wp_ret. unfold loop_entry. simpl.
  assert (bestStart ≠ start) by congruence.
  assert (bestStart ≠ rev) by congruence.
  assert (bestRev ≠ bestStart).
  { intros ->. by rewrite lookup_insert_eq in HbR. }
  rewrite lookup_insert_ne in HbR by done.
  rewrite lookup_insert_ne in Hd by congruence.
  rewrite Hrd in Hd. injection Hd as <-.
  assert (bestRev ≠ start) by congruence.
  assert (bestRev ≠ rev) by congruence.
  split_and!; try done.
  exists sd, rd.
  rewrite !lookup_insert_eq.
  rewrite !(lookup_insert_ne _ bestRev) by done.
  rewrite !lookup_insert_eq.
  rewrite !(lookup_insert_ne _ bestStart) by done.
  done.
Qed.

End Init.

(** ** Runs of the loop *)

Section Fuel.

Context `{Libraries}.

Lemma no_timeout_ret {A} (a : A) : no_timeout (mret a).
Proof. intros w. done. Qed.

Lemma no_timeout_bind {A B} (m : chain A) (k : A → chain B) :
  no_timeout m → (∀ a, no_timeout (k a)) → no_timeout (m ≫= k).
Proof.
  intros Hm Hk w. unfold mbind, chain_mbind, chain_bind.
  destruct (m w) as [a w'| |] eqn:E; [apply Hk | done | by apply Hm in E].
Qed.

Lemma no_timeout_lift {A} (o : option A) : no_timeout (lift o).
Proof. intros w. unfold lift. by destruct o. Qed.

Lemma no_timeout_draw {A} (f : Rng → option (A * Rng)) : no_timeout (draw f).
Proof. intros w. unfold draw. by destruct (f (w_rng w)) as [[? ?]|]. Qed.

Lemma no_timeout_deref (l : nat) : no_timeout (deref l).
Proof. intros w. unfold deref. by destruct (w_heap w !! l). Qed.

Lemma no_timeout_setitem (l : nat) (k : string) (v : Z) : no_timeout (setitem l k v).
Proof. intros w. unfold setitem. by destruct (w_heap w !! l). Qed.

Lemma no_timeout_new_dict (d : gmap string Z) : no_timeout (new_dict d).
Proof. intros w. done. Qed.

Lemma no_timeout_cfor {A S} (l : list A) (body : A → S → chain S) (s : S) :
  (∀ a s, no_timeout (body a s)) → no_timeout (cfor l body s).
Proof.
  intros Hb. revert s. induction l as [|a l IH]; intros s; simpl.
  - apply no_timeout_ret.
  - apply no_timeout_bind; [apply Hb | apply IH].
Qed.

End Fuel.

Ltac no_timeout_auto :=
  repeat first
    [ apply no_timeout_ret | apply no_timeout_lift | apply no_timeout_draw
    | apply no_timeout_deref | apply no_timeout_setitem | apply no_timeout_new_dict
    | apply no_timeout_bind; [|intros ?]
    | match goal with
      | |- no_timeout (match ?x with _ => _ end) => destruct x
      end ].

Section Runs.

Context `{Libraries}.
Variable inp : chain_inputs.

Lemma resample_protein_no_timeout model start rev p st :
  no_timeout (resample_protein inp model start rev p st).
Proof. unfold resample_protein. no_timeout_auto. Qed.

Lemma sweep_group_no_timeout start rev grp st :
  no_timeout (sweep_group inp start rev grp st).
Proof.
  unfold sweep_group. no_timeout_auto.
  apply no_timeout_cfor. intros p st'. apply resample_protein_no_timeout.
Qed.

Lemma gibbs_iteration_no_timeout ls : no_timeout (gibbs_iteration inp ls).
Proof.
  unfold gibbs_iteration, sweep_ll. no_timeout_auto.
  apply no_timeout_cfor. intros g st. apply sweep_group_no_timeout.
Qed.

Lemma sweeps_rel_refl ls w : sweeps_rel inp ls w ls w.
Proof.
  unfold sweeps_rel. split_and!; try done; [apply heap_step_refl|].
  right. done.
Qed.

Lemma sweeps_rel_step ls w ls1 w1 ls2 w2 :
  sweeps_rel inp ls w ls1 w1 →
  iteration_locals ls1 ls2 →
  heap_step inp (v_start ls1) (v_rev ls1) w1 w2 →
  sweeps_rel inp ls w ls2 w2.
Proof.
  intros (Hs & Hr & Hheap & Hbest) (_ & Hs' & Hr' & ll & n & _ & _ & _ & Hb) Hheap'.
  rewrite Hs, Hr in Hheap'.
  unfold sweeps_rel. split_and!; [congruence | congruence | |].
  - by eapply heap_step_trans.
  - destruct (Qltb (v_bestll ls1) ll); injection Hb as -> -> ->.
    + left. split; congruence.
    + destruct Hbest as [[? ?]|(? & ? & ?)]; [left | right]; split_and!; congruence.
Qed.


(** The while loop: at its exit the invariant holds and the loop condition
    fails. *)
Lemma gibbs_loop_spec (fuel : nat) ls w :
  loop_invariant inp ls →
  wp (gibbs_loop inp fuel ls)
     (λ ls' w', loop_invariant inp ls'
                ∧ sweeps_rel inp ls w ls' w'
                ∧ (v_nIters ls' <? maxIters inp) && negb (v_converged ls') = false) w.
Proof.
  assert (Hgen : ∀ fuel ls1 w1, loop_invariant inp ls1 → sweeps_rel inp ls w ls1 w1 →
            wp (gibbs_loop inp fuel ls1)
               (λ ls' w', loop_invariant inp ls'
                          ∧ sweeps_rel inp ls w ls' w'
                          ∧ (v_nIters ls' <? maxIters inp) && negb (v_converged ls') = false) w1).
  { clear fuel. induction fuel as [|fuel IH]; intros ls1 w1 Hinv Hrel; simpl;
      destruct ((v_nIters ls1 <? maxIters inp) && negb (v_converged ls1)) eqn:Hcond;
      try (by apply wp_ret).
    - intros a w' Hrun. done.
    - apply andb_true_iff in Hcond as [Hlt Hnc].
      apply Z.ltb_lt in Hlt. apply negb_true_iff in Hnc.
      apply wp_bind. eapply wp_mono; [apply gibbs_iteration_spec|].
      intros ls2 w2 [Hloc Hheap]. apply IH.
      + by eapply loop_invariant_step.
      + by eapply sweeps_rel_step. }
  intros Hinv. apply Hgen; [done | apply sweeps_rel_refl].
Qed.

(** [maxIters] units of fuel are never exhausted. *)
Lemma gibbs_loop_no_timeout (fuel : nat) ls :
  (Z.to_nat (maxIters inp - v_nIters ls) ≤ fuel)%nat →
  no_timeout (gibbs_loop inp fuel ls).
Proof.
  revert ls. induction fuel as [|fuel IH]; intros ls Hfuel w; simpl;
    destruct ((v_nIters ls <? maxIters inp) && negb (v_converged ls)) eqn:Hcond;
    try done.
  - apply andb_true_iff in Hcond as [Hlt _]. apply Z.ltb_lt in Hlt. lia.
  - apply andb_true_iff in Hcond as [Hlt _]. apply Z.ltb_lt in Hlt.
    unfold mbind, chain_mbind, chain_bind.
    destruct (gibbs_iteration inp ls w) as [ls' w'| |] eqn:Hit.
    + destruct (gibbs_iteration_spec inp ls w ls' w' Hit) as [(Hn & _) _].
      apply IH. lia.
    + done.
    + by apply gibbs_iteration_no_timeout in Hit.
Qed.

End Runs.

(** ** Whole runs *)

Section WholeRun.

Context `{Libraries}.
Variable inp : chain_inputs.

Lemma chain_bind_returned {A B} (m : chain A) (k : A → chain B) w b w'' :
  (m ≫= k) w = Returned b w'' →
  ∃ a w', m w = Returned a w' ∧ k a w' = Returned b w''.
Proof.
  unfold mbind, chain_mbind, chain_bind. intros Hrun.
  destruct (m w) as [a w'| |] eqn:Hm; [|done..]. by exists a, w'.
Qed.

Lemma loop_entry_invariant ls w : loop_entry inp ls w → loop_invariant inp ls.
Proof.
  intros (Hn & Hlls & Hbest & Hconv & _).
  unfold loop_invariant. rewrite Hn, Hlls, Hbest, Hconv.
  split_and!; try done.
  - lia.
  - by left.
  - repeat constructor. apply Qle_refl.
  - intros k Hk. apply run_ending_at_bound in Hk as Hb.
    destruct Hk as [Hk _]. simpl in Hb. lia.
Qed.

(** The state at the exit of the while loop of a run. *)
Lemma gibbs_sweeps_returned ls a b w w1 :
  gibbs_sweeps inp w = Returned (ls, a, b) w1 →
  ∃ ls0 w0,
    loop_entry inp ls0 w0
    ∧ loop_invariant inp ls
    ∧ sweeps_rel inp ls0 w0 ls w1
    ∧ (v_nIters ls <? maxIters inp) && negb (v_converged ls) = false.
Proof.
  unfold gibbs_sweeps. intros Hrun.
  apply chain_bind_returned in Hrun as ([[ls0 a0] b0] & w0 & Hinit & Hrun).
  apply chain_bind_returned in Hrun as (ls' & w' & Hloop & Hret).
  injection Hret as -> -> -> ->.
  assert (Hentry := gibbs_init_spec inp w _ _ Hinit). simpl in Hentry.
  destruct (gibbs_loop_spec inp _ ls0 w0 (loop_entry_invariant _ _ Hentry) _ _ Hloop)
    as (Hinv & Hrel & Hcond).
  by exists ls0, w0.
Qed.

Lemma gibbs_finish_spec ls a b w :
  wp (gibbs_finish inp ls a b)
     (λ res w', res_ll res = v_bestll ls
                ∧ w_heap w !! v_bestStart ls = Some (res_start res)
                ∧ w_heap w !! v_bestRev ls = Some (res_rev res)) w.
Proof.
  unfold gibbs_finish.
  apply wp_bind, wp_deref. intros startd Hs.
  apply wp_bind, wp_deref. intros revd Hr.
  apply wp_bind, wp_lift. intros m1 _.
  apply wp_bind, wp_lift. intros pc1 _.
  apply wp_bind, wp_lift. intros mse _.
  apply wp_bind, wp_lift. intros m2 _.
  apply wp_bind, wp_lift. intros pc2 _.
  apply wp_ret. done.
Qed.

(** A returned chain, taken apart: the loop's exit state and what the
    result record takes from it. *)
Lemma gibbsSampleGLM_returned res w :
  gibbsSampleGLM inp = Returned res w →
  ∃ ls0 w0 ls a b w1,
    gibbs_sweeps inp (gibbs_world inp) = Returned (ls, a, b) w1
    ∧ loop_entry inp ls0 w0
    ∧ loop_invariant inp ls
    ∧ sweeps_rel inp ls0 w0 ls w1
    ∧ (v_nIters ls <? maxIters inp) && negb (v_converged ls) = false
    ∧ res_ll res = v_bestll ls
    ∧ w_heap w1 !! v_bestStart ls = Some (res_start res)
    ∧ w_heap w1 !! v_bestRev ls = Some (res_rev res).
Proof.
  unfold gibbsSampleGLM. intros Hrun. unseed Hrun.
  apply chain_bind_returned in Hrun as ([[ls a] b] & w1 & Hsweeps & Hfin).
  destruct (gibbs_sweeps_returned _ _ _ _ _ Hsweeps) as (ls0 & w0 & He & Hi & Hr & Hc).
  destruct (gibbs_finish_spec _ _ _ _ _ _ Hfin) as (Hll & Hs & Hrv).
  exists ls0, w0, ls, a, b, w1. done.
Qed.

Lemma gibbs_sweeps_no_timeout : no_timeout (gibbs_sweeps inp).
Proof.
  assert (Hnt : no_timeout (gibbs_init inp)).
  { unfold gibbs_init, gibbs_registers, initStarts, deepcopy. no_timeout_auto.
    apply no_timeout_cfor. intros k []. no_timeout_auto. }
  intros w. unfold gibbs_sweeps, mbind, chain_mbind, chain_bind.
  destruct (gibbs_init inp w) as [[[ls0 a0] b0] w0| |] eqn:Hinit.
  - assert (Hentry := gibbs_init_spec inp w _ _ Hinit). simpl in Hentry.
    destruct Hentry as (Hn & _).
    destruct (gibbs_loop inp (Z.to_nat (maxIters inp)) ls0 w0) as [ls' w'| |] eqn:Hloop;
      [done | done |].
    apply gibbs_loop_no_timeout in Hloop; [done|]. rewrite Hn. lia.
  - done.
  - by apply Hnt in Hinit.
Qed.

Lemma gibbsSampleGLM_no_timeout : gibbsSampleGLM inp ≠ OutOfFuel.
Proof.
  unfold gibbsSampleGLM, seeded, mbind, chain_mbind, chain_bind.
  destruct (seed_in_range (randSeed inp)); [|done].
  destruct (gibbs_sweeps inp (gibbs_world inp)) as [[[ls a] b] w1| |] eqn:Hs.
  - assert (Hnt : no_timeout (gibbs_finish inp ls a b))
      by (unfold gibbs_finish; no_timeout_auto).
    apply Hnt.
  - done.
  - by apply gibbs_sweeps_no_timeout in Hs.
Qed.

End WholeRun.

(** ** Properties of the chain driver *)

Section ChainDriver.

Context `{Libraries}.
Variable inp : chain_inputs.

(** C2 (amended). After a sweep the loop body declares convergence exactly
    when at least five log-likelihoods have been recorded before it (the
    initial [-1e30] counts as one) and the sweep's log-likelihood differs by
    less than the tolerance 1.0 from each of the five most recent ones; with
    fewer than five recorded it never declares convergence. *)
Theorem convergence_requires_five_records ls w ls' w' :
  gibbs_iteration inp ls w = Returned ls' w' →
  v_converged ls = false →
  ∃ ll, v_llsAll ls' = v_llsAll ls ++ [ll]
    ∧ tol = 1%Q
    ∧ (v_converged ls' = true
       ↔ (5 ≤ length (v_llsAll ls))%nat
         ∧ Forall (λ prev, (Qabs (ll - prev) < tol)%Q)
             (drop (length (v_llsAll ls) - 5) (v_llsAll ls)))
    ∧ ((length (v_llsAll ls) < 5)%nat → v_converged ls' = false).
Proof.
  intros Hrun Hnc.
  destruct (gibbs_iteration_spec inp ls w ls' w' Hrun)
    as [(_ & _ & _ & ll & n & Hlls & Hcount & Hconv & _) _].
  assert (Hfive := count_within_tol_five _ _ _ Hcount).
  assert (Hiff : v_converged ls' = true ↔ n = 5).
  { rewrite Hconv, Hnc. destruct (n =? 5) eqn:E.
    - apply Z.eqb_eq in E. done.
    - apply Z.eqb_neq in E. split; [done | intros; congruence]. }
  exists ll. split_and!; [done | done | by rewrite Hiff |].
  intros Hlt. apply not_true_is_false. intros E.
  apply Hiff, Hfive in E as [Hge _]. lia.
Qed.

(** C4 (amended). The log-likelihood field of the returned record is the
    greatest of the values recorded in the history, whose first entry is the
    initial [-1e30] and whose other entries are the log-likelihoods of the
    sweeps; in particular it is at least [-1e30] and at least the
    log-likelihood of every sweep. *)
Theorem returned_ll_is_best_recorded res w :
  gibbsSampleGLM inp = Returned res w →
  ∃ ls a b w1,
    gibbs_sweeps inp (gibbs_world inp) = Returned (ls, a, b) w1
    ∧ v_llsAll ls !! 0%nat = Some bestll_init
    ∧ length (v_llsAll ls) = S (Z.to_nat (v_nIters ls))
    ∧ res_ll res ∈ v_llsAll ls
    ∧ Forall (λ x, (x <= res_ll res)%Q) (v_llsAll ls)
    ∧ (bestll_init <= res_ll res)%Q.
Proof.
  intros Hrun.
  destruct (gibbsSampleGLM_returned inp res w Hrun)
    as (ls0 & w0 & ls & a & b & w1 & Hs & _ & Hinv & _ & _ & Hll & _ & _).
  destruct Hinv as (_ & Hlen & Hhead & Hbest & Hmax & _).
  exists ls, a, b, w1. rewrite Hll. split_and!; try done.
  rewrite Forall_lookup in Hmax. apply (Hmax 0%nat). done.
Qed.

(** C5 (amended). A run never exhausts the fuel that stands for the loop
    bound. It executes at most [maxIters] sweeps, one recorded
    log-likelihood per sweep. When the log-likelihoods of six consecutive
    sweeps [k-5 .. k] are equal, the chain has stopped at sweep [k] or
    before: it executes no sweep after [k]. *)
Theorem chain_sweeps_bounded :
  gibbs_sweeps inp (gibbs_world inp) ≠ OutOfFuel
  ∧ gibbsSampleGLM inp ≠ OutOfFuel
  ∧ ∀ ls a b w, gibbs_sweeps inp (gibbs_world inp) = Returned (ls, a, b) w →
      0 ≤ v_nIters ls ≤ Z.max 0 (maxIters inp)
      ∧ length (v_llsAll ls) = S (Z.to_nat (v_nIters ls))
      ∧ ∀ (k : nat) (c : Q),
          (6 ≤ k)%nat →
          (∀ i, (k - 5 ≤ i ≤ k)%nat →
                ∃ x, v_llsAll ls !! i = Some x ∧ (x == c)%Q) →
          v_nIters ls ≤ Z.of_nat k.
Proof.
  split_and!.
  - apply gibbs_sweeps_no_timeout.
  - apply gibbsSampleGLM_no_timeout.
  - intros ls a b w Hrun.
    destruct (gibbs_sweeps_returned inp _ _ _ _ _ Hrun) as (ls0 & w0 & _ & Hinv & _).
    destruct Hinv as (Hn & Hlen & _ & _ & _ & Hruns & _).
    split_and!; [lia | lia | done |].
    intros k c Hk Hconst.
    assert (Hend : run_ending_at (v_llsAll ls) k).
    { split; [lia|].
      destruct (Hconst k ltac:(lia)) as (x & Hx & Hxc).
      exists x. split; [done|]. intros i Hi.
      destruct (Hconst (k - i)%nat ltac:(lia)) as (y & Hy & Hyc).
      exists y. split; [done|].
      assert (Hz : (Qabs (x - y) == 0)%Q).
      { rewrite Hxc, Hyc. assert (Hcc : (c - c == 0)%Q) by ring.
        rewrite Hcc. reflexivity. }
      rewrite Hz. reflexivity. }
    apply Hruns in Hend as [_ Heq]. lia.
Qed.


(** X16. Once the log-likelihood of a sweep has exceeded the initial
    [-1e30], the registers in the returned record are those that are
    current when the loop is left: [bestStart] and [bestRev] name the dicts
    that the sweeps keep writing. *)
Lemma returned_registers_are_current res w :
  gibbsSampleGLM inp = Returned res w →
  ∃ ls a b w1,
    gibbs_sweeps inp (gibbs_world inp) = Returned (ls, a, b) w1
    ∧ ((bestll_init < res_ll res)%Q →
       current_registers ls w1 = Some (res_start res, res_rev res)).
Proof.
  intros Hrun.
  destruct (gibbsSampleGLM_returned inp res w Hrun)
    as (ls0 & w0 & ls & a & b & w1 & Hs & Hentry & _ & Hrel & _ & Hll & HbS & HbR).
  exists ls, a, b, w1. split; [done|]. intros Hlt.
  destruct Hentry as (_ & _ & Hb0 & _).
  destruct Hrel as (Hst & Hrv & _ & [[HS HR]|(_ & _ & Hbll)]).
  - unfold current_registers. rewrite Hst, Hrv, <- HS, <- HR, HbS, HbR. done.
  - rewrite Hll, Hbll, Hb0 in Hlt. by apply Qlt_irrefl in Hlt.
Qed.

End ChainDriver.

(** ** Runs of the example chains *)

Section Outcomes.

Context `{Libraries}.
Variable inp : chain_inputs.

Lemma chain_outcome_returned x :
  chain_outcome inp = Some x →
  ∃ res w, gibbsSampleGLM inp = Returned res w
           ∧ x = (Qred (res_ll res), map_to_list (res_start res),
                  map_to_list (res_rev res)).
Proof.
  unfold chain_outcome. destruct (gibbsSampleGLM inp) as [res w| |]; [|done..].
  intros [= <-]. by exists res, w.
Qed.

Lemma history_outcome_returned n l :
  history_outcome inp = Some (n, l) →
  ∃ ls a b w, gibbs_sweeps inp (gibbs_world inp) = Returned (ls, a, b) w
              ∧ v_nIters ls = n ∧ Qred <$> v_llsAll ls = l.
Proof.
  unfold history_outcome.
  destruct (gibbs_sweeps inp (gibbs_world inp)) as [[[ls a] b] w| |]; [|done..].
  intros [= <- <-]. by exists ls, a, b, w.
Qed.

Lemma initial_loglik_outcome_returned q :
  initial_loglik_outcome inp = Some q →
  ∃ q0 w, initial_loglik inp = Returned q0 w ∧ q = Qred q0.
Proof.
  unfold initial_loglik_outcome. destruct (initial_loglik inp) as [q0 w| |]; [|done..].
  intros [= <-]. by exists q0, w.
Qed.

Lemma convergence_outcome_returned k x :
  convergence_outcome inp k = Some x →
  ∃ ls w, after_sweeps inp k = Returned ls w
          ∧ x = (Qred <$> v_llsAll ls, v_converged ls).
Proof.
  unfold convergence_outcome. destruct (after_sweeps inp k) as [ls w| |]; [|done..].
  intros [= <-]. by exists ls, w.
Qed.


Lemma sweep_outcome_returned k x :
  sweep_outcome inp k = Some x →
  ∃ ls w sd rd ll,
    after_sweeps inp k = Returned ls w
    ∧ current_registers ls w = Some (sd, rd)
    ∧ last (v_llsAll ls) = Some ll
    ∧ x = (Qred ll, map_to_list sd, map_to_list rd).
Proof.
  unfold sweep_outcome. destruct (after_sweeps inp k) as [ls w| |]; [|done..].
  intros Hx. apply bind_Some in Hx as ([sd rd] & Hregs & Hx).
  apply bind_Some in Hx as (ll & Hll & [= <-]).
  by exists ls, w, sd, rd, ll.
Qed.

(** The first sweep of a run is the loop body applied to the entry state. *)
Lemma after_one_sweep ls w :
  after_sweeps inp 1 = Returned ls w →
  ∃ ls0 w0, loop_entry inp ls0 w0 ∧ gibbs_iteration inp ls0 w0 = Returned ls w.
Proof.
  unfold after_sweeps. intros Hrun. unseed Hrun.
  apply chain_bind_returned in Hrun as ([[ls0 a0] b0] & w0 & Hinit & Hrun).
  assert (Hentry := gibbs_init_spec inp _ _ _ Hinit). simpl in Hentry.
  simpl in Hrun. apply chain_bind_returned in Hrun as (ls1 & w1 & Hit & Hret).
  injection Hret as -> ->. by exists ls0, w0.
Qed.

End Outcomes.

Lemma Qred_eq (x y : Q) : Qred x = y → (x == y)%Q.
Proof. intros <-. symmetry. apply Qred_correct. Qed.

(** C1 (the code at a failing input). In the two-sweep example the first
    sweep ends with starts p1 = 1, p2 = 1 and log-likelihood -222240/187,
    the second with starts p1 = 0, p2 = 0 and the smaller -233040/187. The
    returned record has the log-likelihood of the first sweep and the
    registers of the second: [bestStart = start] made [bestStart] a second
    name of the dict that the second sweep overwrote. *)
Lemma gibbs_returns_registers_of_last_sweep :
  @sweep_outcome libs_best_first (ex_inputs 2 ∅) 1
    = Some ((-222240 # 187)%Q, [("p1", 1); ("p2", 1)], [("p1", 0); ("p2", 0)])
  ∧ @sweep_outcome libs_best_first (ex_inputs 2 ∅) 2
    = Some ((-233040 # 187)%Q, [("p1", 0); ("p2", 0)], [("p1", 0); ("p2", 0)])
  ∧ @chain_outcome libs_best_first (ex_inputs 2 ∅)
    = Some ((-222240 # 187)%Q, [("p1", 0); ("p2", 0)], [("p1", 0); ("p2", 0)]).
Proof. split_and!; vm_compute; reflexivity. Qed.

(** C2 (counterexample). In the steady example every sweep has the
    log-likelihood -222240/187. After the second sweep the history is the
    initial -1e30 and the two sweeps: one sweep log-likelihood had been
    recorded before it, fewer than five, and the second sweep is within
    the tolerance of it; convergence is not declared, and the chain goes on
    until its sixth sweep. *)
Lemma steady_chain_second_sweep_not_converged :
  ∃ ls w,
    @after_sweeps libs_steady (ex_inputs MAXITER ∅) 2 = Returned ls w
    ∧ Qred <$> v_llsAll ls = [bestll_init; -222240 # 187; -222240 # 187]%Q
    ∧ Forall (λ prev, (Qabs ((-222240 # 187) - prev) < tol)%Q) [(-222240 # 187)%Q]
    ∧ v_converged ls = false
    ∧ @history_outcome libs_steady (ex_inputs MAXITER ∅)
      = Some (6, [bestll_init; -222240 # 187; -222240 # 187; -222240 # 187;
                  -222240 # 187; -222240 # 187; -222240 # 187]%Q).
Proof.
  assert (E : @convergence_outcome libs_steady (ex_inputs MAXITER ∅) 2
              = Some ([bestll_init; -222240 # 187; -222240 # 187]%Q, false))
    by (vm_compute; reflexivity).
  apply convergence_outcome_returned in E as (ls & w & Hrun & Hx).
  injection Hx as Hh Hc.
  exists ls, w. split; [exact Hrun|]. split; [symmetry; exact Hh|].
  split; [repeat constructor|]. split; [symmetry; exact Hc|].
  vm_compute. reflexivity.
Qed.

(** A chain whose sweeps all have the same log-likelihood stops after its
    sixth sweep, the first one that has five sweeps before it: at sweeps 2 to
    5 every earlier sweep agrees with the current one and the loop goes on. *)
Lemma steady_chain_stops_after_six_sweeps :
  @history_outcome libs_steady (ex_inputs MAXITER ∅)
  = Some (6, [bestll_init; -222240 # 187; -222240 # 187; -222240 # 187;
              -222240 # 187; -222240 # 187; -222240 # 187]%Q).
Proof. vm_compute. reflexivity. Qed.

(** C4 (counterexample). In the steady example, run with the iteration cap
    15 of the module, the returned log-likelihood -222240/187 is below the
    full-data log-likelihood -222325801760/188198857 of the initial
    registers. *)
Lemma returned_ll_below_initial_loglik :
  ∃ res w q0 w0,
    @gibbsSampleGLM libs_steady (ex_inputs MAXITER ∅) = Returned res w
    ∧ @initial_loglik libs_steady (ex_inputs MAXITER ∅) = Returned q0 w0
    ∧ (res_ll res < q0)%Q.
Proof.
  assert (E1 : @chain_outcome libs_steady (ex_inputs MAXITER ∅)
               = Some ((-222240 # 187)%Q, [("p1", 1); ("p2", 1)],
                       [("p1", 0); ("p2", 0)]))
    by (vm_compute; reflexivity).
  assert (E2 : @initial_loglik_outcome libs_steady (ex_inputs MAXITER ∅)
               = Some (-222325801760 # 188198857)%Q)
    by (vm_compute; reflexivity).
  apply chain_outcome_returned in E1 as (res & w & Hrun & Hx).
  apply initial_loglik_outcome_returned in E2 as (q0 & w0 & Hq & Hq0).
  exists res, w, q0, w0. split_and!; [done..|].
  injection Hx as Hll _ _. symmetry in Hll, Hq0.
  apply Qred_eq in Hll, Hq0. rewrite Hll, Hq0. reflexivity.
Qed.

(** C5 (counterexample). In the late-run example, with the iteration cap 15
    of the module, the log-likelihoods of the five sweeps 2 to 6 are all
    -222240/187, and the chain still executes sweep 7. *)
Lemma five_equal_sweeps_do_not_stop_the_chain :
  ∃ ls a b w,
    @gibbs_sweeps libs_late_run (ex_inputs MAXITER ∅)
      (@gibbs_world libs_late_run (ex_inputs MAXITER ∅)) = Returned (ls, a, b) w
    ∧ (∀ i, (2 ≤ i ≤ 6)%nat →
         ∃ x, v_llsAll ls !! i = Some x ∧ (x == -222240 # 187)%Q)
    ∧ v_nIters ls = 7.
Proof.
  assert (E : @history_outcome libs_late_run (ex_inputs MAXITER ∅)
              = Some (7, [bestll_init; -233040 # 187; -222240 # 187; -222240 # 187;
                          -222240 # 187; -222240 # 187; -222240 # 187;
                          -222240 # 187]%Q))
    by (vm_compute; reflexivity).
  apply history_outcome_returned in E as (ls & a & b & w & Hrun & Hn & Hl).
  exists ls, a, b, w. split_and!; [done | | done].
  intros i Hi.
  assert (Hi' : (Qred <$> v_llsAll ls) !! i = Some (-222240 # 187)%Q).
  { rewrite Hl. destruct i as [|[|[|[|[|[|[|i]]]]]]]; try lia; reflexivity. }
  rewrite list_lookup_fmap in Hi'.
  apply fmap_Some in Hi' as (x & Hx & Hred).
  exists x. split; [done|]. apply Qred_eq. done.
Qed.

(** ** The theorems at the example inputs *)

Lemma convergence_requires_five_records_witness :
  ∃ ls w ls' w',
    @gibbs_iteration libs_best_first (ex_inputs 2 ∅) ls w = Returned ls' w'
    ∧ v_converged ls = false
    ∧ v_converged ls' = false.
Proof.
  assert (E : @sweep_outcome libs_best_first (ex_inputs 2 ∅) 1
              = Some ((-222240 # 187)%Q, [("p1", 1); ("p2", 1)],
                      [("p1", 0); ("p2", 0)]))
    by (vm_compute; reflexivity).
  apply sweep_outcome_returned in E as (ls & w & sd & rd & ll & Hrun & _).
  apply after_one_sweep in Hrun as (ls0 & w0 & Hentry & Hit).
  destruct Hentry as (_ & Hlls & _ & Hconv & _).
  destruct (convergence_requires_five_records _ ls0 w0 ls w Hit Hconv)
    as (ll' & _ & _ & _ & Hfew).
  exists ls0, w0, ls, w. split_and!; [done..|].
  apply Hfew. rewrite Hlls. simpl. lia.
Defined.

Lemma formGLM_fullX_columns_witness :
  ∃ M, ex_design.1 !! 3%nat = Some M ∧ ncols M = 19%nat.
Proof.
  destruct (formGLM_fullX_columns ex_core ex_edges ex_uniqueProteins ex_obsGrps
              numAAs_default "classifier" ex_design.1 ex_design.2 3)
    as (aa_pos & M & He & HM & Hc & _).
  - vm_compute. reflexivity.
  - unfold MWID. lia.
  - exists M. split; [done|]. rewrite Hc.
    vm_compute in He. injection He as <-. reflexivity.
Defined.

Lemma formGLM_fullX_row_ranges_witness :
  ∃ grpStart grpEnd,
    ex_design.2 !! "AGY" = Some (grpStart, grpEnd)
    ∧ grpEnd - grpStart + 1 = 4
    ∧ grpStart = 4.
Proof.
  destruct (formGLM_fullX_row_ranges ex_core ex_edges ex_uniqueProteins ex_obsGrps
              numAAs_default "classifier" ex_design.1 ex_design.2)
    as (_ & Hr & _).
  - apply (bool_decide_unpack _). vm_compute. exact I.
  - vm_compute. reflexivity.
  - destruct (Hr [("AGT", ["p1"])] "AGY" ["p2"] [] eq_refl)
      as (a & b & HG & Hw & Hs & _).
    exists a, b. split_and!; [exact HG | exact Hw | exact Hs].
Defined.

Lemma decode_register_inverts_enumeration_witness :
  ∃ lls ll,
    @sampleStartPosGLM (tape_libraries [1]) ex_testX ex_uniqueProteins 0 ex_pwms
      ex_edges ex_model [1] = Some (1, 0, lls, [])
    ∧ ex_lls !! 1%nat = Some ll
    ∧ @candidate_ll (tape_libraries [1]) ex_testX ex_uniqueProteins 0 ex_pwms
        ex_model "p1" 1 0 = Some ll.
Proof.
  assert (E : @sampleStartPosGLM (tape_libraries [1]) ex_testX ex_uniqueProteins 0
                ex_pwms ex_edges ex_model [1]
              = Some (1, 0, [1%Q; 59378249 # 8266121449; 1%Q;
                             59378249 # 8266121449]%Q, []))
    by (vm_compute; reflexivity).
  destruct (@decode_register_inverts_enumeration (tape_libraries [1]) _ _ _ _ _ _
              _ _ _ _ _ E)
    as (holdout & pwm & raw & m & i & Hh & Hp & Hraw & _ & Hcount & _ & Hm & _
        & Hchoice & _ & _ & _ & Hpos).
  assert (holdout = "p1") as ->
    by (vm_compute in Hh; by injection Hh as <-).
  assert (pwm = ex_pwm1) as ->
    by (vm_compute in Hp; by injection Hp as <-).
  assert (Hex : raw = ex_lls)
    by (apply (inj Some); rewrite <- Hraw; vm_compute; reflexivity).
  subst raw.
  vm_compute in Hm. injection Hm as <-.
  vm_compute in Hchoice.
  injection Hchoice as <-.
  destruct Hpos as (_ & ll & Hll & Hc & _); [vm_compute; split; [discriminate|reflexivity]|].
  exists [1%Q; 59378249 # 8266121449; 1%Q; 59378249 # 8266121449]%Q, ll.
  split; [exact E|]. split; [exact Hll|exact Hc].
Defined.

Lemma returned_ll_is_best_recorded_witness :
  ∃ res w,
    @gibbsSampleGLM libs_steady (ex_inputs MAXITER ∅) = Returned res w
    ∧ (bestll_init <= res_ll res)%Q.
Proof.
  assert (E : @chain_outcome libs_steady (ex_inputs MAXITER ∅)
              = Some ((-222240 # 187)%Q, [("p1", 1); ("p2", 1)],
                      [("p1", 0); ("p2", 0)]))
    by (vm_compute; reflexivity).
  apply chain_outcome_returned in E as (res & w & Hrun & _).
  destruct (@returned_ll_is_best_recorded libs_steady _ res w Hrun)
    as (ls & a & b & w1 & _ & _ & _ & _ & _ & Hle).
  exists res, w. split; [exact Hrun | exact Hle].
Defined.



Lemma formGLM_trainW_classifier_sums_to_one_witness :
  ∃ Wj, ex_trainW !! 0%nat = Some Wj ∧ (Qsum Wj == 1)%Q.
Proof.
  destruct (formGLM_trainW_classifier_sums_to_one ex_pwms ex_uniqueProteins
              ex_registers ex_registers ex_trainW 0)
    as (rows_ & HF & _ & HW & Hsum).
  - vm_compute. reflexivity.
  - unfold MWID. lia.
  - eexists. split; [exact HW|]. apply Hsum.
    apply Forall2_cons_inv_l in HF as (r1 & t1 & H1 & HF & ->).
    apply Forall2_cons_inv_l in HF as (r2 & t2 & H2 & HF & ->).
    apply Forall2_nil_inv_l in HF as ->.
    vm_compute in H1. injection H1 as <-.
    vm_compute in H2. injection H2 as <-.
    reflexivity.
Defined.

(** ** Observation groups *)

Lemma proteins_with_core_snoc core k c' c :
  proteins_with_core (core ++ [(k, c')]) c
  = proteins_with_core core c ++ (if decide (c' = c) then [k] else []).
Proof.
  unfold proteins_with_core. rewrite filter_app, fmap_app. f_equal.
  rewrite filter_cons, filter_nil. simpl. destruct (decide (c' = c)); reflexivity.
Qed.

Lemma grpIDcore_lookup (core : list (string * string)) (c : string) :
  foldl (λ (grps : gmap string (list string)) '(k, c),
           match grps !! c with
           | None => <[c := [k]]> grps
           | Some members => <[c := members ++ [k]]> grps
           end) ∅ core !! c
  = nonempty_list (proteins_with_core core c).
Proof.
  induction core as [|[k c'] core IH] using rev_ind; [reflexivity|].
  rewrite foldl_app, proteins_with_core_snoc. cbn [foldl].
  set (G := foldl _ ∅ core) in *.
  destruct (decide (c' = c)) as [->|Hne].
  - rewrite IH. destruct (proteins_with_core core c) as [|x l]; cbn [nonempty_list].
    + rewrite lookup_insert_eq. reflexivity.
    + rewrite lookup_insert_eq. reflexivity.
  - rewrite app_nil_r, <- IH.
    destruct (G !! c'); rewrite lookup_insert_ne; auto.
Qed.

Lemma concat_Permutation_proper {A} (l k : list (list A)) :
  l ≡ₚ k → concat l ≡ₚ concat k.
Proof.
  induction 1; simpl.
  - reflexivity.
  - rewrite IHPermutation. reflexivity.
  - rewrite !(assoc_L (++)). f_equiv. apply Permutation_app_comm.
  - etrans; eauto.
Qed.

Lemma grpIDcore_members (core : list (string * string)) :
  concat ((map_to_list (foldl (λ (grps : gmap string (list string)) '(k, c),
           match grps !! c with
           | None => <[c := [k]]> grps
           | Some members => <[c := members ++ [k]]> grps
           end) ∅ core)).*2) ≡ₚ core.*1.
Proof.
  induction core as [|[k c'] core IH] using rev_ind.
  - simpl. rewrite map_to_list_empty. reflexivity.
  - rewrite foldl_app, fmap_app. cbn [foldl fmap list_fmap fst].
    set (G := foldl _ ∅ core) in *.
    destruct (G !! c') as [ms|] eqn:E.
    + rewrite <- (insert_delete_eq G).
      rewrite map_to_list_insert by apply lookup_delete_eq.
      rewrite <- IH.
      rewrite <- (concat_Permutation_proper _ _
                   (fmap_Permutation snd _ _ (map_to_list_delete G c' ms E))).
      simpl. rewrite <- !(assoc_L (++)). f_equiv. apply Permutation_app_comm.
    + rewrite map_to_list_insert by done. simpl. rewrite IH.
      apply Permutation_cons_append.
Qed.

Lemma zip_take_r {A B} (l : list A) (k : list B) :
  zip l (take (length l) k) = zip l k.
Proof.
  revert k; induction l as [|x l IH]; intros [|y k]; simpl; f_equal; auto.
Qed.

Lemma hdist_prefix (l1 l2 : list ascii) (n : nat) :
  (n ≤ length l1)%nat →
  for_ (py_range (Z.of_nat n)) (λ xpos hdist,
    a ← py_getitem l1 xpos;
    b ← py_getitem l2 xpos;
    Some (if decide (a ≠ b) then hdist + 1 else hdist)) 0
  = if decide (n ≤ length l2)%nat
    then Some (Z.of_nat (length (filter (λ ab, ab.1 ≠ ab.2)
                                   (zip (take n l1) (take n l2)))))
    else None.
Proof.
  induction n as [|n IH]; intros Hn.
  - rewrite decide_True by lia. reflexivity.
  - assert (Hr : py_range (Z.of_nat (S n)) = py_range (Z.of_nat n) ++ [Z.of_nat n]).
    { unfold py_range. rewrite !Nat2Z.id, seq_S, fmap_app. reflexivity. }
    rewrite Hr, for_app, IH by lia. clear IH Hr.
    destruct (decide (n ≤ length l2)%nat) as [Hle|Hgt].
    2:{ rewrite decide_False by lia. reflexivity. }
    cbn [mbind option_bind for_].
    rewrite !py_getitem_nonneg, !Nat2Z.id by lia.
    destruct (lookup_lt_is_Some_2 l1 n) as [a Ha]; [lia|]. rewrite Ha.
    cbn [mbind option_bind].
    destruct (decide (S n ≤ length l2)%nat) as [Hle'|Hgt'].
    2:{ rewrite lookup_ge_None_2 by lia. reflexivity. }
    destruct (lookup_lt_is_Some_2 l2 n) as [b Hb]; [lia|]. rewrite Hb.
    cbn [mbind option_bind]. f_equal.
    rewrite (take_S_r _ _ _ Ha), (take_S_r _ _ _ Hb).
    rewrite zip_with_app by (rewrite !length_take; lia).
    cbn [zip_with]. rewrite filter_app, length_app.
    rewrite filter_cons, filter_nil. cbn [fst snd].
    destruct (decide (a ≠ b)); simpl; lia.
Qed.

Lemma hdist_spec (c1 c2 : string) :
  hdist c1 c2
  = if decide (length (list_ascii_of_string c1) ≤ length (list_ascii_of_string c2))%nat
    then Some (mismatches c1 c2) else None.
Proof.
  unfold hdist, mismatches.
  rewrite hdist_prefix by lia.
  destruct (decide _); [|reflexivity].
  rewrite firstn_all, zip_take_r. reflexivity.
Qed.

Lemma mismatches_sym (c1 c2 : string) : mismatches c1 c2 = mismatches c2 c1.
Proof.
  unfold mismatches. f_equal.
  generalize (list_ascii_of_string c1) (list_ascii_of_string c2).
  induction l as [|a l IH]; intros [|b k]; simpl; try reflexivity.
  rewrite !filter_cons. cbn [fst snd].
  destruct (decide (a ≠ b)) as [H1|H1], (decide (b ≠ a)) as [H2|H2]; simpl;
    try (rewrite IH; reflexivity).
  - exfalso. apply H2. intros ->. apply H1. reflexivity.
  - exfalso. apply H1. intros ->. apply H2. reflexivity.
Qed.

Lemma mismatches_refl (c : string) : mismatches c c = 0.
Proof.
  unfold mismatches.
  generalize (list_ascii_of_string c). induction l as [|a l IH]; [reflexivity|].
  simpl. rewrite filter_cons. cbn [fst snd].
  rewrite decide_False by (intros Hn; apply Hn; reflexivity). exact IH.
Qed.

Lemma mismatches_bound (c1 c2 : string) :
  0 ≤ mismatches c1 c2 ≤ Z.of_nat (length (list_ascii_of_string c1)).
Proof.
  unfold mismatches. split; [lia|].
  apply inj_le. etrans; [apply length_filter|].
  rewrite length_zip_with. lia.
Qed.

Lemma nonempty_list_Some {A} (l m : list A) :
  nonempty_list l = Some m ↔ m ≠ [] ∧ m = l.
Proof.
  destruct l; simpl; split.
  - discriminate.
  - intros [? ->]. congruence.
  - intros [= <-]. split; [discriminate|reflexivity].
  - intros [_ ->]. reflexivity.
Qed.

Lemma proteins_with_core_elem core c k :
  k ∈ proteins_with_core core c ↔ (k, c) ∈ core.
Proof.
  unfold proteins_with_core. rewrite list_elem_of_fmap. split.
  - intros ([k' c'] & -> & Hin). apply list_elem_of_filter in Hin as [Hc Hin].
    simpl in Hc. subst c'. exact Hin.
  - intros Hin. exists (k, c). split; [reflexivity|].
    apply list_elem_of_filter. split; [reflexivity|exact Hin].
Qed.

(** X1. [assignObsGrps(core, 'grpIDcore')] raises nothing and partitions the
    proteins by core sequence: the group of a core sequence exists exactly
    when some protein has it and holds exactly those proteins, in the order
    of [core]; in whatever order the groups are enumerated, their keys are
    pairwise distinct and their members together are the proteins of
    [core], each once. *)
Theorem assignObsGrps_partitions_by_core (core : list (string * string)) :
  ∃ grps, assignObsGrps core "grpIDcore" = Some grps
    ∧ (∀ c members, grps !! c = Some members
         ↔ members ≠ [] ∧ members = proteins_with_core core c)
    ∧ (∀ k c, (k, c) ∈ core →
         ∃ members, grps !! c = Some members ∧ k ∈ members
                    ∧ ∀ k', k' ∈ members ↔ (k', c) ∈ core)
    ∧ (∀ obsGrps, obsGrps ≡ₚ map_to_list grps →
         NoDup (obsGrps.*1) ∧ group_members obsGrps ≡ₚ core.*1).
Proof.
  eexists. split; [reflexivity|]. split_and!.
  - intros c members. rewrite grpIDcore_lookup. apply nonempty_list_Some.
  - intros k c Hin. exists (proteins_with_core core c).
    rewrite grpIDcore_lookup.
    assert (Hk : k ∈ proteins_with_core core c) by (apply proteins_with_core_elem, Hin).
    split_and!.
    + apply nonempty_list_Some. split; [|reflexivity].
      intros Hnil. rewrite Hnil in Hk. inversion Hk.
    + exact Hk.
    + intros k'. apply proteins_with_core_elem.
  - intros obsGrps Hperm. split.
    + rewrite Hperm. apply NoDup_fst_map_to_list.
    + unfold group_members. rewrite Hperm. apply grpIDcore_members.
Qed.

Lemma for_collect {A B} (f : A → option B) (l : list A) (acc : list B) :
  for_ l (λ a acc, b ← f a; Some (acc ++ [b])) acc
  = bs ← mapM f l; Some (acc ++ bs).
Proof.
  revert acc; induction l as [|a l IH]; intros acc; cbn [for_ mapM].
  - simpl. rewrite app_nil_r. reflexivity.
  - destruct (f a) as [b|]; cbn [mbind option_bind]; [|reflexivity].
    rewrite IH. destruct (mapM f l); cbn [mbind option_bind mret option_ret]; [|reflexivity].
    rewrite <- (assoc_L (++)). reflexivity.
Qed.

Lemma useUniqueProteins_mapM obsGrps :
  useUniqueProteins obsGrps = mapM (λ grp, head grp.2) obsGrps.
Proof.
  unfold useUniqueProteins.
  rewrite (for_ext _ _ (λ grp acc, b ← head grp.2; Some (acc ++ [b]))).
  - rewrite for_collect. destruct (mapM _ obsGrps); reflexivity.
  - intros [key members] acc. rewrite py_getitem_nonneg by lia.
    destruct members; reflexivity.
Qed.

Lemma mapM_None_elem {A B} (f : A → option B) (l : list A) :
  mapM f l = None ↔ ∃ x, x ∈ l ∧ f x = None.
Proof.
  induction l as [|a l IH]; cbn [mapM].
  - split; [discriminate|]. intros (x & Hx & _). inversion Hx.
  - destruct (f a) as [b|] eqn:E; cbn [mbind option_bind].
    + destruct (mapM f l) as [k|]; cbn [mbind option_bind mret option_ret].
      * split; [discriminate|]. intros (x & Hx & Hn).
        apply elem_of_cons in Hx as [->|Hx]; [congruence|].
        assert (Hex : ∃ x, x ∈ l ∧ f x = None) by eauto.
        apply IH in Hex. discriminate.
      * split; [|reflexivity]. intros _.
        destruct (proj1 IH eq_refl) as (x & Hx & Hn).
        exists x. split; [right; exact Hx|exact Hn].
    + split; [|reflexivity]. intros _. exists a. split; [left|exact E].
Qed.

(** X4. [useUniqueProteins] raises exactly when some group is empty;
    otherwise it returns one protein per group, in group order, each the
    first member of its group. *)
Theorem useUniqueProteins_first_members (obsGrps : list (string * list string)) :
  (useUniqueProteins obsGrps = None ↔ ∃ key, (key, []) ∈ obsGrps)
  ∧ ∀ reps, useUniqueProteins obsGrps = Some reps →
      Forall2 (λ grp p, ∃ rest, grp.2 = p :: rest) obsGrps reps.
Proof.
  rewrite useUniqueProteins_mapM. split.
  - rewrite mapM_None_elem. split.
    + intros ([key members] & Hin & Hno). exists key.
      destruct members as [|p rest]; [exact Hin|discriminate].
    + intros (key & Hin). exists (key, []). split; [exact Hin|reflexivity].
  - intros reps Hm. apply mapM_Some in Hm.
    eapply Forall2_impl; [exact Hm|].
    intros [key members] p. simpl. destruct members as [|q rest]; [discriminate|].
    intros [= ->]. eauto.
Qed.

Lemma assignObsGrps_grpIDcore_lookup core grps :
  assignObsGrps core "grpIDcore" = Some grps →
  ∀ c, grps !! c = nonempty_list (proteins_with_core core c).
Proof. intros [= <-] c. apply grpIDcore_lookup. Qed.

(** X5. On the groups that [assignObsGrps(core, 'grpIDcore')] returns,
    enumerated in any order, [useUniqueProteins] raises nothing and returns
    one representative per distinct core sequence: the representative of a
    group has the group's key as its core sequence, the keys are pairwise
    distinct and they are exactly the core sequences that occur. *)
Theorem useUniqueProteins_of_assignObsGrps (core : list (string * string))
    (grps : gmap string (list string)) (obsGrps : list (string * list string)) :
  assignObsGrps core "grpIDcore" = Some grps →
  obsGrps ≡ₚ map_to_list grps →
  ∃ reps, useUniqueProteins obsGrps = Some reps
    ∧ Forall2 (λ grp p, head grp.2 = Some p ∧ (p, grp.1) ∈ core) obsGrps reps
    ∧ NoDup (obsGrps.*1)
    ∧ (∀ c, c ∈ obsGrps.*1 ↔ c ∈ core.*2).
Proof.
  intros Hgrps Hperm.
  pose proof (assignObsGrps_grpIDcore_lookup _ _ Hgrps) as Hlook.
  assert (Hmem : ∀ c members, (c, members) ∈ obsGrps →
            members ≠ [] ∧ members = proteins_with_core core c).
  { intros c members Hin. rewrite Hperm in Hin.
    apply elem_of_map_to_list in Hin. rewrite Hlook in Hin.
    apply nonempty_list_Some, Hin. }
  destruct (useUniqueProteins obsGrps) as [reps|] eqn:E.
  2:{ rewrite useUniqueProteins_mapM in E. apply mapM_None_elem in E
        as ([c members] & Hin & Hno).
      destruct (Hmem _ _ Hin) as [Hne _]. destruct members; [done|discriminate]. }
  exists reps. split; [reflexivity|]. split_and!.
  - rewrite useUniqueProteins_mapM in E. apply mapM_Some in E.
    eapply Forall2_impl_elem; [exact E|].
    intros [c members] p Hin Hhead. simpl in *. split; [exact Hhead|].
    destruct (Hmem _ _ Hin) as [_ ->].
    apply proteins_with_core_elem. apply head_Some_elem_of, Hhead.
  - rewrite Hperm. apply NoDup_fst_map_to_list.
  - intros c. rewrite Hperm. split.
    + intros Hc. apply list_elem_of_fmap in Hc as ([c' members] & -> & Hin).
      apply elem_of_map_to_list in Hin. rewrite Hlook in Hin.
      apply nonempty_list_Some in Hin as [Hne ->]. simpl.
      destruct (proteins_with_core core c') as [|k l] eqn:Ek; [done|].
      assert (Hk : k ∈ proteins_with_core core c') by (rewrite Ek; left).
      apply proteins_with_core_elem in Hk.
      apply list_elem_of_fmap. exists (k, c'). split; [reflexivity|exact Hk].
    + intros Hc. apply list_elem_of_fmap in Hc as ([k c'] & -> & Hin). simpl.
      apply list_elem_of_fmap. exists (c', proteins_with_core core c').
      split; [reflexivity|]. apply elem_of_map_to_list. rewrite Hlook.
      apply nonempty_list_Some. split; [|reflexivity].
      apply proteins_with_core_elem in Hin. intros Hnil. rewrite Hnil in Hin. inversion Hin.
Qed.

Lemma useUniqueProteins_of_assignObsGrps_witness :
  ∃ reps,
    useUniqueProteins
      (map_to_list (default ∅ (assignObsGrps [("p1", "AGT"); ("p2", "AGY"); ("p3", "AGT")]
                                 "grpIDcore")))
    = Some reps
    ∧ length reps = 2%nat.
Proof.
  destruct (useUniqueProteins_of_assignObsGrps
              [("p1", "AGT"); ("p2", "AGY"); ("p3", "AGT")]%string
              (default ∅ (assignObsGrps [("p1", "AGT"); ("p2", "AGY"); ("p3", "AGT")]
                                 "grpIDcore"))
              (map_to_list (default ∅ (assignObsGrps [("p1", "AGT"); ("p2", "AGY"); ("p3", "AGT")]
                                 "grpIDcore"))))
    as (reps & Hr & Hf & _).
  - reflexivity.
  - reflexivity.
  - exists reps. split; [exact Hr|].
    apply Forall2_length in Hf. rewrite <- Hf. vm_compute. reflexivity.
Defined.

Lemma getProtDistMat_rows (core : list (string * string)) protDist prots :
  NoDup (core.*1) →
  getProtDistMat core = Some (protDist, prots) →
  prots = merge_sort String.le (core.*1)
  ∧ Forall2 (λ k1 row, ∃ c1, (k1, c1) ∈ core
               ∧ Forall2 (λ k2 d, ∃ c2, (k2, c2) ∈ core ∧ hdist c1 c2 = Some d) prots row)
      prots protDist.
Proof.
  intros Hnd Hrun. unfold getProtDistMat in Hrun.
  apply bind_Some in Hrun as (M & HM & [= <- <-]).
  split; [reflexivity|].
  apply mapM_Some in HM. eapply Forall2_impl; [exact HM|].
  intros k1 row Hrow. simpl in Hrow.
  apply bind_Some in Hrow as (c1 & Hc1 & Hrow).
  exists c1. split; [apply elem_of_list_to_map; assumption|].
  apply mapM_Some in Hrow. eapply Forall2_impl; [exact Hrow|].
  intros k2 d Hd. simpl in Hd. apply bind_Some in Hd as (c2 & Hc2 & Hd).
  exists c2. split; [apply elem_of_list_to_map; assumption|exact Hd].
Qed.

Lemma getProtDistMat_is_Some (core : list (string * string)) :
  NoDup (core.*1) →
  is_Some (getProtDistMat core)
  ↔ ∀ k1 c1 k2 c2, (k1, c1) ∈ core → (k2, c2) ∈ core → seq_len c1 = seq_len c2.
Proof.
  intros Hnd.
  assert (Hperm : merge_sort String.le (core.*1) ≡ₚ core.*1)
    by apply merge_sort_Permutation.
  split.
  - intros [[protDist prots] Hrun] k1 c1 k2 c2 H1 H2.
    destruct (getProtDistMat_rows _ _ _ Hnd Hrun) as [-> Hrows].
    assert (Hle : ∀ k1 c1 k2 c2, (k1, c1) ∈ core → (k2, c2) ∈ core →
              (seq_len c1 ≤ seq_len c2)%nat).
    { clear k1 c1 k2 c2 H1 H2. intros k1 c1 k2 c2 H1 H2.
      assert (Hk1 : k1 ∈ merge_sort String.le (core.*1)).
      { rewrite Hperm. apply list_elem_of_fmap. exists (k1, c1). done. }
      assert (Hk2 : k2 ∈ merge_sort String.le (core.*1)).
      { rewrite Hperm. apply list_elem_of_fmap. exists (k2, c2). done. }
      apply list_elem_of_lookup in Hk1 as [i Hi], Hk2 as [j Hj].
      destruct (Forall2_lookup_l _ _ _ _ _ Hrows Hi) as (row & Hrow & c1' & Hc1 & Hr).
      destruct (Forall2_lookup_l _ _ _ _ _ Hr Hj) as (d & Hd & c2' & Hc2 & Hh).
      assert (c1' = c1) as ->.
      { apply elem_of_list_to_map in Hc1, H1; try assumption. congruence. }
      assert (c2' = c2) as ->.
      { apply elem_of_list_to_map in Hc2, H2; try assumption. congruence. }
      rewrite hdist_spec in Hh. fold (seq_len c1) (seq_len c2) in Hh.
      destruct (decide _); [assumption|discriminate]. }
    apply Nat.le_antisymm; eauto.
  - intros Heq. unfold getProtDistMat.
    assert (Hin : ∀ k, k ∈ merge_sort String.le (core.*1) →
              ∃ c, (k, c) ∈ core
                   ∧ (list_to_map core : gmap string string) !! k = Some c).
    { intros k Hk. rewrite Hperm in Hk.
      apply list_elem_of_fmap in Hk as ([k' c] & -> & Hk). exists c.
      split; [exact Hk|]. apply elem_of_list_to_map; assumption. }
    destruct (mapM _ (merge_sort String.le (core.*1))) as [M|] eqn:E; [eexists; reflexivity|].
    exfalso. apply mapM_None_elem in E as (k1 & Hk1 & E).
    destruct (Hin _ Hk1) as (c1 & Hc1 & Hl1). rewrite Hl1 in E. simpl in E.
    apply mapM_None_elem in E as (k2 & Hk2 & E).
    destruct (Hin _ Hk2) as (c2 & Hc2 & Hl2). rewrite Hl2 in E. simpl in E.
    rewrite hdist_spec in E. fold (seq_len c1) (seq_len c2) in E.
    rewrite decide_True in E; [discriminate|].
    rewrite (Heq _ _ _ _ Hc1 Hc2). reflexivity.
Qed.

(** X3. [getProtDistMat] returns exactly when all core sequences have the
    same length (otherwise [c2[xpos]] raises). When it returns, [prots] is
    the sorted list of the proteins and entry [(i, j)] of the matrix is the
    number of positions at which the cores of [prots[i]] and [prots[j]]
    differ: the matrix is symmetric, zero on the diagonal and bounded by the
    core length. *)
Theorem getProtDistMat_distances (core : list (string * string)) :
  NoDup (core.*1) →
  (is_Some (getProtDistMat core)
   ↔ ∀ k1 c1 k2 c2, (k1, c1) ∈ core → (k2, c2) ∈ core → seq_len c1 = seq_len c2)
  ∧ ∀ protDist prots, getProtDistMat core = Some (protDist, prots) →
      prots ≡ₚ core.*1 ∧ Sorted String.le prots
      ∧ ∀ i j k1 k2 c1 c2,
          prots !! i = Some k1 → prots !! j = Some k2 →
          (k1, c1) ∈ core → (k2, c2) ∈ core →
          (row ← protDist !! i; row !! j) = Some (mismatches c1 c2)
          ∧ (row ← protDist !! j; row !! i) = Some (mismatches c1 c2)
          ∧ 0 ≤ mismatches c1 c2 ≤ Z.of_nat (seq_len c1)
          ∧ (i = j → mismatches c1 c2 = 0).
Proof.
  intros Hnd. split; [apply getProtDistMat_is_Some, Hnd|].
  intros protDist prots Hrun.
  destruct (getProtDistMat_rows _ _ _ Hnd Hrun) as [-> Hrows].
  split; [apply merge_sort_Permutation|].
  split; [apply (Sorted_merge_sort String.le)|].
  assert (Hent : ∀ i j k1 k2 c1 c2,
            merge_sort String.le (core.*1) !! i = Some k1 →
            merge_sort String.le (core.*1) !! j = Some k2 →
            (k1, c1) ∈ core → (k2, c2) ∈ core →
            (row ← protDist !! i; row !! j) = Some (mismatches c1 c2)).
  { intros i j k1 k2 c1 c2 Hi Hj H1 H2.
    destruct (Forall2_lookup_l _ _ _ _ _ Hrows Hi) as (row & Hrow & c1' & Hc1 & Hr).
    destruct (Forall2_lookup_l _ _ _ _ _ Hr Hj) as (d & Hd & c2' & Hc2 & Hh).
    assert (c1' = c1) as ->.
    { apply elem_of_list_to_map in Hc1, H1; try assumption. congruence. }
    assert (c2' = c2) as ->.
    { apply elem_of_list_to_map in Hc2, H2; try assumption. congruence. }
    rewrite Hrow. simpl. rewrite Hd. rewrite hdist_spec in Hh.
    destruct (decide _); [congruence|discriminate]. }
  intros i j k1 k2 c1 c2 Hi Hj H1 H2. split; [|split; [|split]].
  - eapply Hent; eassumption.
  - rewrite mismatches_sym. eapply Hent; eassumption.
  - apply mismatches_bound.
  - intros ->. assert (k1 = k2) as -> by congruence.
    assert (c1 = c2) as ->.
    { apply elem_of_list_to_map in H1, H2; try assumption. congruence. }
    apply mismatches_refl.
Qed.

Lemma assignObsGrps_none_lookup (keys : list string) (k : string) :
  foldl (λ (grps : gmap string (list string)) k, <[k := [k]]> grps) ∅ keys !! k
  = if decide (k ∈ keys) then Some [k] else None.
Proof.
  induction keys as [|k' keys IH] using rev_ind.
  - rewrite decide_False by (intros Hk; inversion Hk). reflexivity.
  - rewrite foldl_app. cbn [foldl].
    destruct (decide (k' = k)) as [->|Hne].
    + rewrite lookup_insert_eq, decide_True; [reflexivity|].
      apply elem_of_app. right. left.
    + rewrite lookup_insert_ne, IH by assumption.
      destruct (decide (k ∈ keys)) as [Hin|Hin].
      * rewrite decide_True; [reflexivity|]. apply elem_of_app. left. exact Hin.
      * rewrite decide_False; [reflexivity|].
        rewrite elem_of_app, list_elem_of_singleton. intros [?|?]; congruence.
Qed.

(** X2. With [by = 'none'] every protein is a group of its own, keyed by
    its name. With [by = 'hd1'] no group is ever formed: the call raises
    when two core sequences differ in length and returns the empty dict
    otherwise. *)
Theorem assignObsGrps_other_modes (core : list (string * string)) :
  NoDup (core.*1) →
  (∃ grps, assignObsGrps core "none" = Some grps
     ∧ ∀ k, grps !! k = (if decide (k ∈ core.*1) then Some [k] else None))
  ∧ (is_Some (assignObsGrps core "hd1")
     ↔ ∀ k1 c1 k2 c2, (k1, c1) ∈ core → (k2, c2) ∈ core → seq_len c1 = seq_len c2)
  ∧ (∀ grps, assignObsGrps core "hd1" = Some grps → grps = ∅).
Proof.
  intros Hnd. split_and!.
  - eexists. split; [reflexivity|]. intros k. apply assignObsGrps_none_lookup.
  - rewrite <- (getProtDistMat_is_Some core Hnd). unfold assignObsGrps.
    change (String.eqb "hd1" "none") with false.
    change (String.eqb "hd1" "grpIDcore") with false.
    change (String.eqb "hd1" "hd1") with true. cbv iota.
    destruct (getProtDistMat core); simpl; split; intros [? ?]; eauto; discriminate.
  - unfold assignObsGrps.
    change (String.eqb "hd1" "none") with false.
    change (String.eqb "hd1" "grpIDcore") with false.
    change (String.eqb "hd1" "hd1") with true. cbv iota.
    intros grps Hrun. apply bind_Some in Hrun as (? & _ & [= <-]). reflexivity.
Qed.

Lemma getProtDistMat_distances_witness :
  ∃ protDist, getProtDistMat ex_core_items = Some (protDist, ["p1"; "p2"; "p3"])
    ∧ (row ← protDist !! 0%nat; row !! 1%nat) = Some (mismatches "AGT" "AGY")
    ∧ mismatches "AGT" "AGY" = 1.
Proof.
  assert (Hnd : NoDup (ex_core_items.*1)).
  { apply (bool_decide_unpack _). vm_compute. exact I. }
  destruct (getProtDistMat_distances ex_core_items Hnd) as [_ Hd].
  destruct (getProtDistMat ex_core_items) as [[protDist prots]|] eqn:E;
    vm_compute in E; [|discriminate].
  injection E as <- <-.
  destruct (Hd _ _ eq_refl) as (_ & _ & Hent).
  destruct (Hent 0%nat 1%nat "p1" "p2" "AGT" "AGY") as (H1 & _);
    try reflexivity; try (apply (bool_decide_unpack _); vm_compute; exact I).
  eexists. split; [reflexivity|]. split; [exact H1|reflexivity].
Defined.

Lemma assignObsGrps_other_modes_witness :
  assignObsGrps ex_core_items "hd1" = Some ∅.
Proof.
  assert (Hnd : NoDup (ex_core_items.*1)).
  { apply (bool_decide_unpack _). vm_compute. exact I. }
  destruct (assignObsGrps_other_modes ex_core_items Hnd) as (_ & _ & Hempty).
  destruct (assignObsGrps ex_core_items "hd1") as [grps|] eqn:E.
  - rewrite (Hempty grps eq_refl). reflexivity.
  - vm_compute in E. discriminate.
Defined.

(** ** The content of the design matrices *)

Lemma lookup_concat_uniform {A} (ls : list (list A)) (n m k : nat) :
  Forall (λ l, length l = n) ls →
  (k < n)%nat →
  concat ls !! (m * n + k)%nat = (l ← ls !! m; l !! k).
Proof.
  intros Hall Hk. revert m. induction Hall as [|l ls Hl Hall IH]; intros m.
  - reflexivity.
  - cbn [concat]. destruct m as [|m].
    + simpl. rewrite lookup_app_l by lia. reflexivity.
    + rewrite lookup_app_r by lia.
      replace (S m * n + k - length l)%nat with (m * n + k)%nat by lia.
      apply IH.
Qed.

Lemma take_concat_uniform {A} (ls : list (list A)) (n m : nat) :
  Forall (λ l, length l = n) ls →
  take (m * n) (concat ls) = concat (take m ls).
Proof.
  intros Hall. revert m. induction Hall as [|l ls Hl Hall IH]; intros m.
  - simpl. rewrite !take_nil. reflexivity.
  - destruct m as [|m]; [reflexivity|]. cbn [concat take].
    rewrite take_app_ge by lia.
    replace (S m * n - length l)%nat with (m * n)%nat by lia.
    rewrite IH. reflexivity.
Qed.

Lemma drop_concat_uniform {A} (ls : list (list A)) (n m : nat) :
  Forall (λ l, length l = n) ls →
  drop (m * n) (concat ls) = concat (drop m ls).
Proof.
  intros Hall. revert m. induction Hall as [|l ls Hl Hall IH]; intros m.
  - simpl. rewrite !drop_nil. reflexivity.
  - destruct m as [|m]; [reflexivity|]. cbn [concat drop].
    rewrite drop_app_ge by lia.
    replace (S m * n - length l)%nat with (m * n)%nat by lia.
    apply IH.
Qed.

Lemma Forall_replicate_length {A} (k : nat) (xs : list A) :
  Forall (λ l, length l = k) (replicate k <$> xs).
Proof.
  apply Forall_fmap, Forall_true. intros x. simpl. apply length_replicate.
Qed.

(** X6. [formGLM_fullX] returns exactly on well-formed inputs: it raises if
    and only if some window position has no contact list, some protein of a
    group has no core sequence, or some contact index lies outside a core
    sequence or names a symbol that is not one of the twenty amino acids;
    the mode string and [numAAs] play no part in this. *)
Theorem formGLM_fullX_raises_iff core edges uniqueProteins obsGrps numAAs modelType :
  is_Some (formGLM_fullX core edges uniqueProteins obsGrps numAAs modelType)
  ↔ well_formed_design core edges obsGrps.
Proof.
  split; [|apply formGLM_fullX_succeeds].
  intros [[X G] Hrun] j Hj.
  destruct (formGLM_fullX_spec _ _ _ _ _ _ _ _ Hrun) as [Hpos _].
  destruct (Hpos j Hj) as (aa_pos & M & He & _ & _ & xs & Hrows & _).
  exists aa_pos. split; [exact He|].
  intros p Hp. fold (group_members obsGrps) in Hp.
  apply list_elem_of_lookup in Hp as [i Hi].
  destruct (Forall2_lookup_l _ _ _ _ _ Hrows Hi) as (x & _ & core_seq & Hc & aas & Haas & _).
  exists core_seq. split; [exact Hc|].
  intros pos Hpos'. apply list_elem_of_lookup in Hpos' as [m Hm].
  destruct (Forall2_lookup_l _ _ _ _ _ Haas Hm) as (aa & _ & c & Hget & Haa).
  exists c. split; [exact Hget|]. rewrite Haa. eauto.
Qed.

(** X7. In the matrix of window position [j], the protein at position [i]
    of the group traversal owns the rows [r*i .. r*i + r - 1] ([r] = 4 for the
    classifier, 1 for the regressor), all equal to its feature row [x]; the
    matrix has [r] rows per protein. In [x], the block of contact [m] starts
    at column [m * numAAs], and its column [k] is 1 exactly when the residue
    of the core sequence at that contact is amino acid number [k]. *)
Theorem formGLM_fullX_entries core edges uniqueProteins obsGrps numAAs modelType
    X G (j i : nat) (p : string) :
  formGLM_fullX core edges uniqueProteins obsGrps numAAs modelType = Some (X, G) →
  (j < MWID)%nat →
  group_members obsGrps !! i = Some p →
  let r := rows_per_protein modelType in
  ∃ aa_pos M core_seq x,
    edges !! j = Some aa_pos ∧ X !! j = Some M ∧ core !! p = Some core_seq
    ∧ length (rows M) = (r * length (group_members obsGrps))%nat
    ∧ (∀ t, (t < r)%nat → rows M !! (r * i + t)%nat = Some x)
    ∧ (∀ m pos, aa_pos !! m = Some pos →
         ∃ c aa, py_getitem (list_ascii_of_string core_seq) pos = Some c
           ∧ A2IND c = Some aa
           ∧ ∀ k, (k < numAAs)%nat →
               x !! (m * numAAs + k)%nat = Some (if decide (k = aa) then 1 else 0)).
Proof.
  intros Hrun Hj Hi r.
  destruct (formGLM_fullX_spec _ _ _ _ _ _ _ _ Hrun) as [Hpos _].
  destruct (Hpos j Hj) as (aa_pos & M & He & HX & _ & xs & Hrows & HM).
  destruct (Forall2_lookup_l _ _ _ _ _ Hrows Hi)
    as (x & Hx & core_seq & Hc & aas & Haas & _ & ->).
  exists aa_pos, M, core_seq, (concat (one_hot numAAs <$> aas)).
  split_and!; try assumption.
  - rewrite HM, length_concat_replicate, <- (Forall2_length _ _ _ Hrows). reflexivity.
  - intros t Ht. rewrite HM, (Nat.mul_comm r i).
    rewrite (lookup_concat_uniform _ r) by (apply Forall_replicate_length || exact Ht).
    rewrite list_lookup_fmap, Hx. simpl. apply lookup_replicate_2. exact Ht.
  - intros m pos Hm.
    destruct (Forall2_lookup_l _ _ _ _ _ Haas Hm) as (aa & Haa & c & Hget & HA).
    exists c, aa. split_and!; try assumption.
    intros k Hk.
    rewrite (lookup_concat_uniform _ numAAs)
      by (try exact Hk; apply Forall_fmap, Forall_true; intros ?; apply one_hot_length).
    rewrite list_lookup_fmap, Haa. simpl. apply one_hot_lookup, Hk.
Qed.

(** ** The hold-out split *)

Lemma filter_imap_keep {A} (f : nat → bool) (l : list A) (off : nat) :
  (∀ i, (i < length l)%nat → f (off + i)%nat = false) →
  snd <$> filter (λ ir, f (fst ir) = false) (imap (λ i r, ((off + i)%nat, r)) l) = l.
Proof.
  revert off; induction l as [|x l IH]; intros off Hall; [reflexivity|].
  cbn [imap]. rewrite filter_cons. cbn [fst].
  rewrite decide_True by (apply Hall; simpl; lia).
  cbn [fmap list_fmap snd]. f_equal.
  rewrite <- (IH (S off)) at 2.
  - f_equal. f_equal. apply imap_ext. intros i y _. simpl. f_equal. lia.
  - intros i Hi. replace (S off + i)%nat with (off + S i)%nat by lia.
    apply Hall. simpl. lia.
Qed.

Lemma filter_imap_drop {A} (f : nat → bool) (l : list A) (off : nat) :
  (∀ i, (i < length l)%nat → f (off + i)%nat ≠ false) →
  snd <$> filter (λ ir, f (fst ir) = false) (imap (λ i r, ((off + i)%nat, r)) l) = [].
Proof.
  revert off; induction l as [|x l IH]; intros off Hall; [reflexivity|].
  cbn [imap]. rewrite filter_cons. cbn [fst].
  rewrite decide_False by (apply Hall; simpl; lia).
  rewrite <- (IH (S off)).
  - f_equal. f_equal. apply imap_ext. intros i y _. simpl. f_equal. lia.
  - intros i Hi. replace (S off + i)%nat with (off + S i)%nat by lia.
    apply Hall. simpl. lia.
Qed.

Ltac leb_cases :=
  repeat match goal with
         | |- context [?x <=? ?y] => destruct (Z.leb_spec x y)
         end;
  simpl; first [reflexivity | discriminate | exfalso; lia].

Lemma np_delete_rows_middle (M : ndarray) (l1 l2 l3 : list (list Z)) :
  rows M = l1 ++ l2 ++ l3 →
  rows (np_delete_rows M (Z.of_nat (length l1))
          (Z.of_nat (length l1) + Z.of_nat (length l2) - 1)) = l1 ++ l3
  ∧ ncols (np_delete_rows M (Z.of_nat (length l1))
          (Z.of_nat (length l1) + Z.of_nat (length l2) - 1)) = ncols M.
Proof.
  intros HM. split; [|reflexivity].
  unfold np_delete_rows. cbn [rows]. rewrite HM.
  set (a := Z.of_nat (length l1)).
  set (b := a + Z.of_nat (length l2) - 1).
  set (listed := λ i : Z, (a <=? i) && (i <=? b)).
  rewrite !imap_app, !filter_app, !fmap_app.
  rewrite <- (app_nil_l l3) at 2. rewrite (assoc_L (++) l1 [] l3), <- (assoc_L (++)).
  f_equal; [|f_equal].
  - apply (filter_imap_keep (λ i, listed (Z.of_nat i)) l1 0).
    intros i Hi. unfold listed. subst a b. leb_cases.
  - apply (filter_imap_drop (λ i, listed (Z.of_nat i)) l2 (length l1)).
    intros i Hi. unfold listed. subst a b. leb_cases.
  - rewrite <- (filter_imap_keep (λ i, listed (Z.of_nat i)) l3
                  (length l1 + length l2)) at 2.
    + f_equal. f_equal. apply imap_ext. intros i y _. simpl. f_equal. lia.
    + intros i Hi. unfold listed. subst a b. leb_cases.
Qed.

Lemma group_members_app (l1 l2 : list (string * list string)) :
  group_members (l1 ++ l2) = group_members l1 ++ group_members l2.
Proof. unfold group_members. rewrite fmap_app, concat_app. reflexivity. Qed.

Lemma group_members_cons g members (l : list (string * list string)) :
  group_members ((g, members) :: l) = members ++ group_members l.
Proof. reflexivity. Qed.

Lemma trainProteins_of_middle (A B C : list string) :
  trainProteins_of (A ++ B ++ C) (4 * Z.of_nat (length A))
    (4 * Z.of_nat (length A) + 4 * Z.of_nat (length B) - 1)
  = A ++ C.
Proof.
  unfold trainProteins_of, py_slice_to, py_slice_from, py_clip.
  replace (4 * Z.of_nat (length A) / 4) with (Z.of_nat (length A))
    by (apply Z.div_unique_exact; lia).
  replace ((4 * Z.of_nat (length A) + 4 * Z.of_nat (length B) - 1) / 4 + 1)
    with (Z.of_nat (length A) + Z.of_nat (length B)).
  2:{ assert ((4 * Z.of_nat (length A) + 4 * Z.of_nat (length B) - 1) / 4
              = Z.of_nat (length A) + Z.of_nat (length B) - 1); [|lia].
      symmetry. apply (Z.div_unique _ _ _ 3); lia. }
  rewrite !length_app.
  destruct (Z.leb_spec 0 (Z.of_nat (length A))); [|lia].
  destruct (Z.leb_spec 0 (Z.of_nat (length A) + Z.of_nat (length B))); [|lia].
  rewrite Z.min_r by lia. rewrite Z.min_r by lia.
  rewrite Nat2Z.id.
  replace (Z.to_nat (Z.of_nat (length A) + Z.of_nat (length B)))
    with (length A + length B)%nat by lia.
  rewrite take_app_length. f_equal.
  rewrite drop_app_ge by lia. rewrite drop_app_ge by lia.
  replace (length A + length B - length A - length B)%nat with 0%nat by lia.
  reflexivity.
Qed.

Lemma for_seq_build {V} (f : nat → option V)
    (body : nat → gmap nat V → option (gmap nat V)) (n : nat) :
  (∀ j acc, body j acc = v ← f j; Some (<[j := v]> acc)) →
  (∀ j, (j < n)%nat → is_Some (f j)) →
  ∃ m, for_ (seq 0 n) body ∅ = Some m ∧ ∀ j, (j < n)%nat → m !! j = f j.
Proof.
  intros Hbody. induction n as [|n IH]; intros Hall.
  - exists ∅. split; [reflexivity|]. intros j Hj. lia.
  - destruct IH as (m & Hm & Hlook); [intros j Hj; apply Hall; lia|].
    destruct (Hall n) as [v Hv]; [lia|].
    exists (<[n := v]> m). rewrite seq_S, for_app, Hm. cbn [mbind option_bind for_ plus].
    rewrite Hbody, Hv. cbn [mbind option_bind]. split; [reflexivity|].
    intros j Hj. destruct (decide (j = n)) as [->|Hne].
    + rewrite lookup_insert_eq. congruence.
    + rewrite lookup_insert_ne by congruence. apply Hlook. lia.
Qed.

Lemma formGLM_trainX_spec (X : gmap nat ndarray) (a b : Z) :
  (∀ j, (j < MWID)%nat → is_Some (X !! j)) →
  ∃ trainX, formGLM_trainX X a b = Some trainX
    ∧ ∀ j M, (j < MWID)%nat → X !! j = Some M →
        trainX !! j = Some (np_delete_rows M a b).
Proof.
  intros HX.
  destruct (for_seq_build (λ j, Xj ← X !! j; Some (np_delete_rows Xj a b))
              (λ j trainX, Xj ← X !! j; Some (<[j := np_delete_rows Xj a b]> trainX))
              MWID) as (m & Hm & Hlook).
  - intros j acc. destruct (X !! j); reflexivity.
  - intros j Hj. destruct (HX j Hj) as [M ->]. eexists; reflexivity.
  - exists m. split; [exact Hm|]. intros j M Hj HM. rewrite Hlook, HM by exact Hj. reflexivity.
Qed.

Lemma formGLM_testX_spec (X : gmap nat ndarray) (index : Z) :
  (∀ j, (j < MWID)%nat → is_Some (X !! j)) →
  ∃ testX, formGLM_testX X index "classifier" = Some testX
    ∧ ∀ j M, (j < MWID)%nat → X !! j = Some M →
        testX !! j = Some (np_row_slice M (4 * index) (4 * index + 4)).
Proof.
  intros HX. unfold formGLM_testX.
  change (String.eqb "classifier" "classifier") with true. cbv iota.
  destruct (for_seq_build (λ j, Xj ← X !! j; Some (np_row_slice Xj (4 * index) (4 * index + 4)))
              (λ j testX, Xj ← X !! j;
                 Some (<[j := np_row_slice Xj (4 * index) (4 * index + 4)]> testX))
              MWID) as (m & Hm & Hlook).
  - intros j acc. destruct (X !! j); reflexivity.
  - intros j Hj. destruct (HX j Hj) as [M ->]. eexists; reflexivity.
  - exists m. split; [exact Hm|]. intros j M Hj HM. rewrite Hlook, HM by exact Hj. reflexivity.
Qed.

Lemma py_slice_block {A} (xs : list (list A)) (i : nat) (x : list A) :
  xs !! i = Some x →
  py_slice (concat (replicate 4 <$> xs)) (4 * Z.of_nat i) (4 * Z.of_nat i + 4)
  = replicate 4 x.
Proof.
  intros Hx. pose proof (lookup_lt_Some _ _ _ Hx) as Hlt.
  unfold py_slice, py_clip. rewrite length_concat_replicate.
  destruct (Z.leb_spec 0 (4 * Z.of_nat i)); [|lia].
  destruct (Z.leb_spec 0 (4 * Z.of_nat i + 4)); [|lia].
  rewrite !Z.min_r by lia.
  replace (Z.to_nat (4 * Z.of_nat i)) with (i * 4)%nat by lia.
  replace (Z.to_nat (4 * Z.of_nat i + 4)) with (S i * 4)%nat by lia.
  rewrite (take_concat_uniform _ 4) by apply Forall_replicate_length.
  rewrite (drop_concat_uniform _ 4) by (apply Forall_take, Forall_replicate_length).
  rewrite <- fmap_take, <- fmap_drop.
  rewrite (take_S_r _ _ _ Hx), drop_app_length'
    by (rewrite length_take; lia).
  simpl. reflexivity.
Qed.

Lemma Forall2_app_inv_l_3 {A B} (P : A → B → Prop) (l1 l2 l3 : list A) (k : list B) :
  Forall2 P (l1 ++ l2 ++ l3) k →
  ∃ k1 k2 k3, k = k1 ++ k2 ++ k3 ∧ Forall2 P l1 k1 ∧ Forall2 P l2 k2 ∧ Forall2 P l3 k3.
Proof.
  intros H. apply Forall2_app_inv_l in H as (k1 & k23 & H1 & H23 & ->).
  apply Forall2_app_inv_l in H23 as (k2 & k3 & H2 & H3 & ->).
  exists k1, k2, k3. auto.
Qed.

Lemma formGLM_fullX_has_positions core edges uP0 obsGrps numAAs modelType X G :
  formGLM_fullX core edges uP0 obsGrps numAAs modelType = Some (X, G) →
  ∀ j, (j < MWID)%nat → is_Some (X !! j).
Proof.
  intros Hrun j Hj.
  destruct (formGLM_fullX_spec _ _ _ _ _ _ _ _ Hrun) as [Hpos _].
  destruct (Hpos j Hj) as (aa_pos & M & _ & HX & _). eauto.
Qed.

Lemma py_repeat_length {A} (l : list A) (n : nat) :
  length (py_repeat l n) = (n * length l)%nat.
Proof.
  unfold py_repeat. induction n as [|n IH]; [reflexivity|].
  cbn [replicate concat]. rewrite length_app, IH. lia.
Qed.

(** X8. With [uniqueProteins] in group order, as [main] sets it, and the
    row range [grpInd[g]] of a group: the training proteins computed in the
    sweep are exactly the proteins of the other groups, in order;
    [formGLM_trainX] returns, for every window position, exactly the rows of
    those proteins, four per protein and in the same order; and the label
    vector of [formGLM_Y] has one entry per remaining row. *)
Theorem heldout_group_is_removed core edges uP0 obsGrps numAAs X G
    pre g members post (j : nat) :
  NoDup (obsGrps.*1) →
  formGLM_fullX core edges uP0 obsGrps numAAs "classifier" = Some (X, G) →
  obsGrps = pre ++ (g, members) :: post →
  (j < MWID)%nat →
  let uniqueProteins := group_members obsGrps in
  let trainProteins := group_members pre ++ group_members post in
  ∃ startInd_ho endIndex_ho trainX aa_pos Mtrain xs Yj,
    G !! g = Some (startInd_ho, endIndex_ho)
    ∧ trainProteins_of uniqueProteins startInd_ho endIndex_ho = trainProteins
    ∧ formGLM_trainX X startInd_ho endIndex_ho = Some trainX
    ∧ edges !! j = Some aa_pos
    ∧ trainX !! j = Some Mtrain
    ∧ Forall2 (protein_row core numAAs aa_pos) trainProteins xs
    ∧ rows Mtrain = concat (replicate 4 <$> xs)
    ∧ formGLM_Y trainProteins !! j = Some Yj
    ∧ length Yj = length (rows Mtrain).
Proof.
  intros Hnd Hrun Hobs Hj uniqueProteins trainProteins.
  destruct (formGLM_fullX_spec _ _ _ _ _ _ _ _ Hrun) as [Hpos Hgrp].
  specialize (Hgrp Hnd pre g members post Hobs).
  change (rows_per_protein "classifier") with 4%nat in Hgrp, Hpos.
  destruct (Hpos j Hj) as (aa_pos & M & He & HX & _ & xs & Hrows & HM).
  assert (HuP : uniqueProteins = group_members pre ++ members ++ group_members post).
  { unfold uniqueProteins. rewrite Hobs, group_members_app, group_members_cons.
    reflexivity. }
  unfold uniqueProteins in HuP. rewrite HuP in Hrows.
  apply Forall2_app_inv_l_3 in Hrows as (x1 & x2 & x3 & -> & H1 & H2 & H3).
  destruct (formGLM_trainX_spec X (Z.of_nat 4 * Z.of_nat (length (group_members pre)))
              (Z.of_nat 4 * Z.of_nat (length (group_members pre))
               + Z.of_nat 4 * Z.of_nat (length members) - 1))
    as (trainX & HtrainX & Hlook).
  { eapply formGLM_fullX_has_positions, Hrun. }
  rewrite !fmap_app, !concat_app in HM.
  destruct (np_delete_rows_middle M _ _ _ HM) as [Hdel _].
  rewrite !length_concat_replicate in Hdel.
  rewrite <- (Forall2_length _ _ _ H1), <- (Forall2_length _ _ _ H2) in Hdel.
  replace (Z.of_nat (4 * length (group_members pre)))
    with (Z.of_nat 4 * Z.of_nat (length (group_members pre))) in Hdel by lia.
  replace (Z.of_nat (4 * length members))
    with (Z.of_nat 4 * Z.of_nat (length members)) in Hdel by lia.
  eexists _, _, trainX, aa_pos, _, (x1 ++ x3), _.
  split_and!.
  - exact Hgrp.
  - fold uniqueProteins. unfold uniqueProteins. rewrite HuP.
    apply trainProteins_of_middle.
  - exact HtrainX.
  - exact He.
  - apply Hlook; [exact Hj|exact HX].
  - apply Forall2_app; assumption.
  - rewrite Hdel, fmap_app, concat_app. reflexivity.
  - apply formGLM_Y_lookup, Hj.
  - rewrite Hdel, <- concat_app, <- fmap_app, length_concat_replicate.
    rewrite py_repeat_length. unfold trainProteins.
    rewrite !length_app, (Forall2_length _ _ _ H1), (Forall2_length _ _ _ H3).
    simpl. lia.
Qed.

(** X9. With [uniqueProteins] in group order, the index
    [startInd_ho/4 + m] that the sweep passes to the sampler for the [m]-th
    member [p] of the held-out group names [p] itself in [uniqueProteins],
    and [formGLM_testX] at that index returns, for every window position, the
    four copies of the feature row of [p]. *)
Theorem heldout_index_names_member core edges uP0 obsGrps numAAs X G
    pre g members post (m : nat) (p : string) :
  NoDup (obsGrps.*1) →
  formGLM_fullX core edges uP0 obsGrps numAAs "classifier" = Some (X, G) →
  obsGrps = pre ++ (g, members) :: post →
  members !! m = Some p →
  ∃ startInd_ho endIndex_ho testX,
    G !! g = Some (startInd_ho, endIndex_ho)
    ∧ py_getitem (group_members obsGrps) (startInd_ho / 4 + Z.of_nat m) = Some p
    ∧ formGLM_testX X (startInd_ho / 4 + Z.of_nat m) "classifier" = Some testX
    ∧ ∀ j, (j < MWID)%nat →
        ∃ aa_pos x Mj,
          edges !! j = Some aa_pos
          ∧ protein_row core numAAs aa_pos p x
          ∧ testX !! j = Some Mj
          ∧ rows Mj = replicate 4 x.
Proof.
  intros Hnd Hrun Hobs Hm.
  destruct (formGLM_fullX_spec _ _ _ _ _ _ _ _ Hrun) as [Hpos Hgrp].
  specialize (Hgrp Hnd pre g members post Hobs).
  change (rows_per_protein "classifier") with 4%nat in Hgrp, Hpos.
  set (n := length (group_members pre)) in *.
  assert (Hdiv : Z.of_nat 4 * Z.of_nat n / 4 + Z.of_nat m = Z.of_nat (n + m)).
  { replace (Z.of_nat 4 * Z.of_nat n / 4) with (Z.of_nat n); [lia|].
    apply Z.div_unique_exact; lia. }
  assert (Hp : group_members obsGrps !! (n + m)%nat = Some p).
  { rewrite Hobs, group_members_app, group_members_cons.
    rewrite lookup_app_r by (unfold n; lia).
    replace (n + m - length (group_members pre))%nat with m by (unfold n; lia).
    rewrite lookup_app_l by (eapply lookup_lt_Some, Hm). exact Hm. }
  destruct (formGLM_testX_spec X (Z.of_nat (n + m))) as (testX & HtestX & Hlook).
  { eapply formGLM_fullX_has_positions, Hrun. }
  eexists _, _, testX. split; [exact Hgrp|]. rewrite Hdiv.
  split_and!.
  - rewrite py_getitem_nonneg, Nat2Z.id by lia. exact Hp.
  - exact HtestX.
  - intros j Hj.
    destruct (Hpos j Hj) as (aa_pos & M & He & HX & _ & xs & Hrows & HM).
    destruct (Forall2_lookup_l _ _ _ _ _ Hrows Hp) as (x & Hx & Hrow).
    exists aa_pos, x, (np_row_slice M (4 * Z.of_nat (n + m)) (4 * Z.of_nat (n + m) + 4)).
    split_and!; try assumption.
    + apply Hlook; assumption.
    + cbn [np_row_slice rows]. rewrite HM. apply py_slice_block, Hx.
Qed.

(** ** main: the assertions on the design *)

Lemma foldl_uprots (obsGrps : list (string * list string)) (acc : list string) :
  foldl (λ uprots '(grp, members), uprots ++ members) acc obsGrps
  = acc ++ group_members obsGrps.
Proof.
  revert acc; induction obsGrps as [|[g members] l IH]; intros acc.
  - simpl. rewrite app_nil_r. reflexivity.
  - cbn [foldl]. rewrite IH, group_members_cons, (assoc_L (++)). reflexivity.
Qed.

(** X10. In [main], the per-group assertion
    [len(obsGrps[g])*4 == grpInd[g][1]-grpInd[g][0]+1] can never fail on the
    output of [formGLM_fullX]: the block returns exactly when [formGLM_fullX]
    returns and the groups hold as many proteins as there are PWMs, and the
    new [uniqueProteins] is the list of the group members in group order. *)
Theorem main_design_assertions core edges pwms_keys obsGrps :
  NoDup (obsGrps.*1) →
  main_design core edges pwms_keys obsGrps
  = '(fullX, grpInd) ← formGLM_fullX core edges pwms_keys obsGrps
                         numAAs_default "classifier";
    if decide (length (group_members obsGrps) = length pwms_keys)
    then Some (fullX, grpInd, group_members obsGrps) else None.
Proof.
  intros Hnd. unfold main_design.
  destruct (formGLM_fullX core edges pwms_keys obsGrps numAAs_default "classifier")
    as [[X G]|] eqn:Hrun; [|reflexivity].
  cbn [mbind option_bind].
  destruct (formGLM_fullX_spec _ _ _ _ _ _ _ _ Hrun) as [_ Hgrp].
  specialize (Hgrp Hnd).
  change (rows_per_protein "classifier") with 4%nat in Hgrp.
  assert (Hassert : for_ obsGrps (λ '(g, members) (_ : unit),
            '(grpStart, grpEnd) ← G !! g;
            if decide (Z.of_nat (length members) * 4 = grpEnd - grpStart + 1)
            then Some () else None) () = Some ()).
  { destruct (for_succeeds (λ _ : unit, True) obsGrps
                (λ '(g, members) (_ : unit),
                   '(grpStart, grpEnd) ← G !! g;
                   if decide (Z.of_nat (length members) * 4 = grpEnd - grpStart + 1)
                   then Some () else None) ()) as ([] & Hfor & _); [exact I| |exact Hfor].
    intros [g members] [] Hin _.
    apply list_elem_of_split in Hin as (pre & post & Hobs).
    rewrite (Hgrp pre g members post Hobs). cbn [mbind option_bind].
    rewrite decide_True by lia. exists (). done. }
  rewrite Hassert. cbn [mbind option_bind].
  rewrite foldl_uprots. reflexivity.
Qed.

Lemma formGLM_fullX_entries_witness :
  ∃ M x, ex_design.1 !! 3%nat = Some M
    ∧ length (rows M) = 8%nat
    ∧ rows M !! 1%nat = Some x.
Proof.
  destruct (formGLM_fullX_entries ex_core ex_edges ex_uniqueProteins ex_obsGrps
              numAAs_default "classifier" ex_design.1 ex_design.2 3 0 "p1")
    as (aa_pos & M & core_seq & x & _ & HX & _ & Hlen & Hrows & _).
  - vm_compute. reflexivity.
  - vm_compute. lia.
  - reflexivity.
  - exists M, x. split_and!; [exact HX | exact Hlen | apply (Hrows 1%nat); vm_compute; lia].
Defined.

Lemma heldout_group_is_removed_witness :
  ∃ startInd_ho endIndex_ho,
    ex_design.2 !! "AGY" = Some (startInd_ho, endIndex_ho)
    ∧ trainProteins_of (group_members ex_obsGrps) startInd_ho endIndex_ho = ["p1"].
Proof.
  destruct (heldout_group_is_removed ex_core ex_edges ex_uniqueProteins ex_obsGrps
              numAAs_default ex_design.1 ex_design.2 [("AGT", ["p1"])] "AGY" ["p2"] [] 0)
    as (a & b & _ & _ & _ & _ & _ & HG & Htrain & _).
  - apply (bool_decide_unpack _). vm_compute. exact I.
  - vm_compute. reflexivity.
  - reflexivity.
  - vm_compute. lia.
  - exists a, b. split; [exact HG|exact Htrain].
Defined.

Lemma heldout_index_names_member_witness :
  ∃ startInd_ho endIndex_ho,
    ex_design.2 !! "AGY" = Some (startInd_ho, endIndex_ho)
    ∧ py_getitem (group_members ex_obsGrps) (startInd_ho / 4 + 0) = Some "p2".
Proof.
  destruct (heldout_index_names_member ex_core ex_edges ex_uniqueProteins ex_obsGrps
              numAAs_default ex_design.1 ex_design.2 [("AGT", ["p1"])] "AGY" ["p2"] []
              0 "p2")
    as (a & b & _ & HG & Hp & _).
  - apply (bool_decide_unpack _). vm_compute. exact I.
  - vm_compute. reflexivity.
  - reflexivity.
  - reflexivity.
  - exists a, b. split; [exact HG|exact Hp].
Defined.

Lemma main_design_assertions_witness :
  main_design ex_core ex_edges ["p2"; "p1"] ex_obsGrps
  = Some (ex_design.1, ex_design.2, ["p1"; "p2"]).
Proof.
  rewrite main_design_assertions.
  - vm_compute. reflexivity.
  - apply (bool_decide_unpack _). vm_compute. exact I.
Defined.

(** ** Registers stay inside the PWMs *)

Section SamplerRange.

Context `{Libraries}.

Lemma candidate_lls_length testX uniqueProteins index pwms_ model holdout
    (seqWid mWid : Z) (lls : list Q) :
  candidate_lls testX uniqueProteins index pwms_ model holdout seqWid mWid = Some lls →
  length lls = (2 * Z.to_nat (seqWid - mWid + 1))%nat.
Proof.
  intros Hlls. apply candidate_lls_blocks in Hlls as (b0 & b1 & -> & H0 & H1).
  apply Forall2_length in H0, H1. rewrite py_range_length in H0, H1.
  rewrite length_app. lia.
Qed.

Lemma sampleStartPosGLM_range testX uniqueProteins index pwms_ edges_ model
    (g g' : Rng) (s r : Z) (lls : list Q) :
  (∀ p g i g', np_random_choice p g = Some (i, g') → 0 ≤ i < Z.of_nat (length p)) →
  sampleStartPosGLM testX uniqueProteins index pwms_ edges_ model g
    = Some (s, r, lls, g') →
  ∃ holdout pwm,
    py_getitem uniqueProteins index = Some holdout
    ∧ pwms_ !! holdout = Some pwm
    ∧ Z.of_nat (size edges_) ≤ Z.of_nat (length pwm)
    ∧ Z.of_nat (length lls) = 2 * (Z.of_nat (length pwm) - Z.of_nat (size edges_) + 1)
    ∧ 0 ≤ s ≤ Z.of_nat (length pwm) - Z.of_nat (size edges_)
    ∧ (r = 0 ∨ r = 1).
Proof.
  intros Hchoice Hrun.
  apply sampleStartPosGLM_decodes in Hrun
    as (holdout & pwm & raw & m & i & Hh & Hp & Hraw & Hmax & -> & Hi & Hdec).
  exists holdout, pwm. split; [exact Hh|]. split; [exact Hp|].
  pose proof (candidate_lls_length _ _ _ _ _ _ _ _ _ Hraw) as Hlen.
  apply Hchoice in Hi. rewrite !length_fmap in Hi.
  assert (Hne : raw ≠ []) by (intros ->; discriminate).
  assert (Hpos : (0 < length raw)%nat) by (destruct raw; [done|simpl; lia]).
  set (cnt := Z.of_nat (length pwm) - Z.of_nat (size edges_) + 1) in *.
  assert (Hcnt : 1 ≤ cnt) by lia.
  assert (Hn : Z.of_nat (length raw) = 2 * cnt) by lia.
  rewrite length_fmap.
  unfold decode_register in Hdec. rewrite Hn in Hdec.
  replace (2 * cnt / 2) with cnt in Hdec by (apply Z.div_unique_exact; lia).
  injection Hdec as <- <-.
  pose proof (Z.mod_pos_bound i cnt) as Hmod.
  split_and!; try lia.
  destruct (cnt <=? i); auto.
Qed.

End SamplerRange.

Section Registers.

Context `{Libraries}.
Hypothesis Hrng : rng_in_range.

Lemma wp_cfor_split {A S} (inv : list A → S → world → Prop) (l : list A)
    (body : A → S → chain S) (s : S) w :
  inv [] s w →
  (∀ done a rest s1 w1, l = done ++ a :: rest → inv done s1 w1 →
     wp (body a s1) (λ s2 w2, inv (done ++ [a]) s2 w2) w1) →
  wp (cfor l body s) (inv l) w.
Proof.
  assert (Hgen : ∀ rest done s w,
            l = done ++ rest → inv done s w →
            (∀ done a rest s1 w1, l = done ++ a :: rest → inv done s1 w1 →
               wp (body a s1) (λ s2 w2, inv (done ++ [a]) s2 w2) w1) →
            wp (cfor rest body s) (inv l) w).
  { induction rest as [|a rest IH]; intros done s0 w0 Hl Hinv Hstep.
    - rewrite app_nil_r in Hl. subst done. by apply wp_ret.
    - cbn [cfor]. apply wp_bind. eapply wp_mono; [eapply Hstep; eassumption|].
      intros s2 w2 Hinv2. apply (IH (done ++ [a])); [|exact Hinv2|exact Hstep].
      rewrite <- (assoc_L (++)). exact Hl. }
  intros Hinv Hstep. apply (Hgen l []); auto.
Qed.

Lemma initStarts_valid uniqueProteins pwms_ mWid (fixedStarts : gmap string (Z * Z)) w :
  wp (initStarts uniqueProteins pwms_ mWid fixedStarts)
     (λ '(start, rev) w',
        start ≠ rev
        ∧ ∃ sd rd, w_heap w' !! start = Some sd ∧ w_heap w' !! rev = Some rd
            ∧ ∀ p, p ∈ uniqueProteins → fixedStarts !! p = None →
                ∃ s r, sd !! p = Some s ∧ rd !! p = Some r
                       ∧ valid_register pwms_ mWid p s r) w.
Proof.
  destruct Hrng as [Hrandint _].
  unfold initStarts.
  apply wp_bind, wp_new_dict. intros start Hstart.
  apply wp_bind, wp_new_dict. intros rev Hrev. simpl in Hrev.
  assert (Hne : start ≠ rev).
  { intros ->. by rewrite lookup_insert_eq in Hrev. }
  apply wp_bind. eapply wp_mono.
  { apply (wp_cfor (λ done _ w',
       ∃ sd rd, w_heap w' !! start = Some sd ∧ w_heap w' !! rev = Some rd
         ∧ ∀ p, p ∈ done → fixedStarts !! p = None →
             ∃ s r, sd !! p = Some s ∧ rd !! p = Some r
                    ∧ valid_register pwms_ mWid p s r)).
    - exists ∅, ∅. simpl. rewrite lookup_insert_ne, !lookup_insert_eq by done.
      split_and!; try done. intros p Hp. by apply elem_of_nil in Hp.
    - intros done k [] w1 _ (sd & rd & Hsd & Hrd & Hval).
      destruct (fixedStarts !! k) as [[fs0 fr0]|] eqn:Hk.
      + apply wp_bind, wp_setitem. intros d Hd. simplify_eq.
        apply wp_setitem. simpl. intros d' Hd'.
        rewrite lookup_insert_ne in Hd' by done. simplify_eq.
        exists (<[k := fs0]> sd), (<[k := fr0]> rd). simpl.
        rewrite lookup_insert_eq, lookup_insert_ne, lookup_insert_eq by done.
        split_and!; try done. intros p Hp Hfree.
        assert (Hpk : p ≠ k) by (intros ->; congruence).
        rewrite !lookup_insert_ne by done. apply Hval; [|done].
        apply elem_of_app in Hp as [Hp|Hp]; [done|].
        apply list_elem_of_singleton in Hp. congruence.
      + apply wp_bind, wp_draw. intros r g Hr.
        apply wp_bind, wp_setitem. simpl. intros d Hd. simplify_eq.
        apply wp_bind, wp_lift. intros pwm Hpwm.
        apply wp_bind, wp_draw. simpl. intros s g' Hs.
        apply wp_setitem. simpl. intros d' Hd'.
        rewrite lookup_insert_ne in Hd' by done. simplify_eq.
        exists (<[k := s]> sd), (<[k := r]> rd). simpl.
        rewrite lookup_insert_eq, lookup_insert_ne, lookup_insert_eq by done.
        split_and!; try done. intros p Hp Hfree.
        destruct (decide (p = k)) as [->|Hpk].
        * rewrite !lookup_insert_eq. exists s, r. split_and!; try done.
          apply Hrandint in Hr, Hs.
          exists pwm. split; [exact Hpwm|]. lia.
        * rewrite !lookup_insert_ne by done. apply Hval; [|done].
          apply elem_of_app in Hp as [Hp|Hp]; [done|].
          apply list_elem_of_singleton in Hp. congruence. }
  intros [] w' Hinv. by apply wp_ret.
Qed.

Variable inp : chain_inputs.

Lemma resample_protein_valid model start rev p valuesChanged index_p w :
  start ≠ rev →
  py_getitem (uniqueProteins inp) index_p = Some p →
  heap_registers_valid inp start rev w →
  wp (resample_protein inp model start rev p (valuesChanged, index_p))
     (λ st w', st.2 = index_p + 1 ∧ heap_registers_valid inp start rev w') w.
Proof.
  destruct Hrng as [_ Hchoice].
  intros Hne Hp Hvalid.
  unfold resample_protein.
  destruct (decide (is_Some (fixedStarts inp !! p))) as [Hpin|Hfree].
  { apply wp_ret. done. }
  apply wp_bind, wp_lift. intros testX _.
  apply wp_bind, wp_draw. intros [[s r] lls] g Hdraw.
  apply (sampleStartPosGLM_range _ _ _ _ _ _ _ _ _ _ _ Hchoice) in Hdraw
    as (holdout & pwm & Hh & Hpwm & _ & _ & Hs & Hr).
  assert (holdout = p) as -> by congruence.
  apply wp_bind, wp_deref. intros startd Hstartd.
  apply wp_bind, wp_lift. intros sp _.
  set (w1 := mk_world g (w_heap w)).
  apply wp_bind.
  apply (wp_mono _ (λ _ w', w' = w1)).
  { destruct (decide (s ≠ sp)).
    - by apply wp_ret.
    - apply wp_bind, wp_deref. intros revd _.
      apply wp_bind, wp_lift. intros rp _. by apply wp_ret. }
  intros changed w' Hw'. simpl in Hw'. subst w'.
  destruct Hvalid as (sd & rd & Hsd & Hrd & Hval).
  apply wp_bind, wp_setitem. intros d Hd. simpl in Hd.
  rewrite Hsd in Hd. injection Hd as <-.
  apply wp_bind, wp_setitem. simpl. intros d' Hd'.
  rewrite lookup_insert_ne in Hd' by done.
  rewrite Hrd in Hd'. injection Hd' as <-.
  apply wp_ret. split; [reflexivity|].
  exists (<[p := s]> sd), (<[p := r]> rd). simpl.
  rewrite lookup_insert_eq, lookup_insert_ne, lookup_insert_eq by done.
  split_and!; try done.
  intros q Hq Hqfree. destruct (decide (q = p)) as [->|Hqp].
  - rewrite !lookup_insert_eq. exists s, r. split_and!; try done.
    exists pwm. done.
  - rewrite !lookup_insert_ne by done. by apply Hval.
Qed.

Hypothesis Hmain : inputs_from_main inp.

Lemma group_members_split (pre post : list (string * list string)) g members :
  group_members (pre ++ (g, members) :: post)
  = group_members pre ++ members ++ group_members post.
Proof. unfold group_members. rewrite fmap_app, concat_app. reflexivity. Qed.

Lemma sweep_group_valid start rev pre grpID members post st w :
  start ≠ rev →
  obsGrps inp = pre ++ (grpID, members) :: post →
  heap_registers_valid inp start rev w →
  wp (sweep_group inp start rev (grpID, members) st)
     (λ _ w', heap_registers_valid inp start rev w') w.
Proof.
  intros Hne Hobs Hvalid.
  destruct Hmain as (Hnd & HuP & core & numAAs & uP0 & Hfull).
  destruct (formGLM_fullX_spec _ _ _ _ _ _ _ _ Hfull) as [_ Hgrp].
  specialize (Hgrp Hnd pre grpID members post Hobs).
  change (rows_per_protein "classifier") with 4%nat in Hgrp.
  set (n := length (group_members pre)) in *.
  unfold sweep_group. destruct st as [valuesChanged model0].
  apply wp_bind, wp_lift. intros [startInd_ho endIndex_ho] Hind.
  rewrite Hgrp in Hind. injection Hind as <- <-.
  apply wp_bind, wp_lift. intros trainX _.
  apply wp_bind, wp_deref. intros startd _.
  apply wp_bind, wp_deref. intros revd _.
  apply wp_bind, wp_lift. intros trainW _.
  apply wp_bind, wp_lift. intros model _.
  replace (Z.of_nat 4 * Z.of_nat n / 4) with (Z.of_nat n)
    by (apply Z.div_unique_exact; lia).
  apply wp_bind.
  eapply wp_mono.
  { apply (wp_cfor_split (λ done st' w',
             st'.2 = Z.of_nat (n + length done)
             ∧ heap_registers_valid inp start rev w')).
    - simpl. split; [f_equal; lia|exact Hvalid].
    - intros done p rest [vc ip] w1 Hmem [Hip Hval1]. simpl in Hip. subst ip.
      eapply wp_mono.
      { apply resample_protein_valid; [exact Hne| |exact Hval1].
        rewrite py_getitem_nonneg, Nat2Z.id by lia.
        rewrite HuP, Hobs, group_members_split, Hmem.
        rewrite lookup_app_r by (unfold n; lia).
        replace (n + length done - length (group_members pre))%nat
          with (length done) by (unfold n; lia).
        rewrite <- !(assoc_L (++)).
        rewrite lookup_app_r by lia. rewrite Nat.sub_diag. reflexivity. }
      intros [vc' ip'] w2 [Hip' Hval2]. simpl in Hip'. split; [|exact Hval2].
      simpl. rewrite length_app. simpl. lia. }
  intros [vc ip] w' [_ Hval']. by apply wp_ret.
Qed.

Lemma gibbs_iteration_valid ls w :
  v_start ls ≠ v_rev ls →
  heap_registers_valid inp (v_start ls) (v_rev ls) w →
  wp (gibbs_iteration inp ls)
     (λ _ w', heap_registers_valid inp (v_start ls) (v_rev ls) w') w.
Proof.
  intros Hne Hvalid. unfold gibbs_iteration.
  apply wp_bind. eapply wp_mono.
  { apply (wp_cfor_split (λ _ _ w',
             heap_registers_valid inp (v_start ls) (v_rev ls) w')).
    - exact Hvalid.
    - intros done [grpID members] rest st1 w1 Hobs Hinv.
      eapply sweep_group_valid; eassumption. }
  intros [valuesChanged model] w1 Hval1.
  apply wp_bind. eapply wp_mono; [apply sweep_ll_world|].
  intros ll w2 Hw2. simpl in Hw2. subst w2.
  apply wp_bind. apply (wp_mono _ (λ _ w', w' = w1)).
  { destruct (verbose inp).
    - apply wp_bind, wp_deref. intros startd _.
      apply wp_bind, wp_deref. intros revd _.
      by apply wp_lift.
    - by apply wp_ret. }
  intros u w3 Hw3. simpl in Hw3. subst w3.
  destruct (Qltb (v_bestll ls) ll).
  - apply wp_bind, wp_lift. intros n Hn. apply wp_ret. exact Hval1.
  - apply wp_bind, wp_lift. intros n Hn. apply wp_ret. exact Hval1.
Qed.

Lemma gibbs_iterate_valid (k : nat) ls w :
  v_start ls ≠ v_rev ls →
  heap_registers_valid inp (v_start ls) (v_rev ls) w →
  wp (gibbs_iterate inp k ls)
     (λ ls' w', v_start ls' = v_start ls ∧ v_rev ls' = v_rev ls
                ∧ heap_registers_valid inp (v_start ls) (v_rev ls) w') w.
Proof.
  revert ls w. induction k as [|k IH]; intros ls w Hne Hvalid.
  - apply wp_ret. done.
  - cbn [gibbs_iterate]. apply wp_bind.
    intros ls1 w1 Hrun.
    destruct (gibbs_iteration_spec inp ls w ls1 w1 Hrun) as [(_ & Hs & Hr & _) _].
    pose proof (gibbs_iteration_valid ls w Hne Hvalid ls1 w1 Hrun) as Hval1.
    simpl in Hval1. rewrite <- Hs, <- Hr in Hval1, Hne.
    eapply wp_mono; [apply (IH ls1 w1 Hne Hval1)|].
    intros ls2 w2 (Hs2 & Hr2 & Hval2). rewrite Hs2, Hr2. rewrite Hs, Hr in *. done.
Qed.

Lemma gibbs_loop_valid (fuel : nat) ls w :
  v_start ls ≠ v_rev ls →
  heap_registers_valid inp (v_start ls) (v_rev ls) w →
  wp (gibbs_loop inp fuel ls)
     (λ ls' w', v_start ls' = v_start ls ∧ v_rev ls' = v_rev ls
                ∧ heap_registers_valid inp (v_start ls) (v_rev ls) w') w.
Proof.
  revert ls w. induction fuel as [|fuel IH]; intros ls w Hne Hvalid;
    cbn [gibbs_loop];
    destruct ((v_nIters ls <? maxIters inp) && negb (v_converged ls));
    try (apply wp_ret; done).
  - intros ls' w' Hrun. discriminate.
  - apply wp_bind.
    intros ls1 w1 Hrun.
    destruct (gibbs_iteration_spec inp ls w ls1 w1 Hrun) as [(_ & Hs & Hr & _) _].
    pose proof (gibbs_iteration_valid ls w Hne Hvalid ls1 w1 Hrun) as Hval1.
    simpl in Hval1. rewrite <- Hs, <- Hr in Hval1, Hne.
    eapply wp_mono; [apply (IH ls1 w1 Hne Hval1)|].
    intros ls2 w2 (Hs2 & Hr2 & Hval2). rewrite Hs2, Hr2. rewrite Hs, Hr in *. done.
Qed.

Lemma gibbs_init_valid w :
  init_oracle inp = false →
  wp (gibbs_init inp)
     (λ '(ls, _, _) w', v_start ls ≠ v_rev ls
                        ∧ heap_registers_valid inp (v_start ls) (v_rev ls) w') w.
Proof.
  intros Horacle. unfold gibbs_init.
  apply wp_bind.
  apply (wp_mono _ (λ '(start, rev) w',
      start ≠ rev ∧ heap_registers_valid inp start rev w')).
  { unfold gibbs_registers. rewrite Horacle.
    eapply wp_mono; [apply initStarts_valid|].
    intros [start rev] w' (Hne & sd & rd & ? & ? & ?). split; [exact Hne|].
    exists sd, rd. done. }
  intros [start rev] w1 (Hne & sd & rd & Hsd & Hrd & Hval).
  apply wp_bind, wp_deref. intros startd Hstartd.
  apply wp_bind, wp_deref. intros revd Hrevd.
  apply wp_bind, wp_lift. intros init_model _.
  apply wp_bind, wp_lift. intros init_PC_agree _.
  apply wp_bind, wp_lift. intros init_mse _.
  apply wp_bind. unfold deepcopy.
  apply wp_bind, wp_deref. intros d Hd.
  apply wp_new_dict. intros bestStart HbS.
  apply wp_bind. apply wp_bind, wp_deref. simpl. intros d' Hd'.
  apply wp_new_dict. simpl. intros bestRev HbR.
  apply wp_ret. simpl. split; [exact Hne|].
  assert (bestStart ≠ start) by congruence.
  assert (bestStart ≠ rev) by congruence.
  assert (bestRev ≠ bestStart).
  { intros ->. by rewrite lookup_insert_eq in HbR. }
  rewrite lookup_insert_ne in HbR by done.
  assert (bestRev ≠ start) by congruence.
  assert (bestRev ≠ rev) by congruence.
  exists sd, rd. simpl.
  rewrite !(lookup_insert_ne _ bestRev) by done.
  rewrite !(lookup_insert_ne _ bestStart) by done.
  done.
Qed.

End Registers.

Section RegistersTheorem.

Context `{Libraries}.
Variable inp : chain_inputs.

(** X11. A chain that draws its initial registers with [initStarts], on
    inputs laid out as [main] lays them out and with draws that numpy's
    contract allows, keeps every register that is not pinned inside its PWM:
    after the initialisation, after every sweep and in the returned record,
    each such protein has a start [s] with [0 <= s <= len(pwm) - mWid] and an
    orientation 0 or 1. *)
Theorem registers_stay_inside_pwms :
  rng_in_range →
  init_oracle inp = false →
  inputs_from_main inp →
  (∀ k ls w, after_sweeps inp k = Returned ls w →
     ∃ sd rd, current_registers ls w = Some (sd, rd) ∧ registers_valid inp sd rd)
  ∧ (∀ res w, gibbsSampleGLM inp = Returned res w →
       registers_valid inp (res_start res) (res_rev res)).
Proof.
  intros Hrng Horacle Hmain. split.
  - intros k ls w Hrun. unfold after_sweeps in Hrun. unseed Hrun.
    apply chain_bind_returned in Hrun as ([[ls0 a0] b0] & w0 & Hinit & Hiter).
    destruct (gibbs_init_valid Hrng inp _ Horacle _ _ Hinit) as [Hne Hval0].
    destruct (gibbs_iterate_valid Hrng inp Hmain k ls0 w0 Hne Hval0 ls w Hiter)
      as (Hs & Hr & sd & rd & Hsd & Hrd & Hval).
    exists sd, rd. split; [|exact Hval].
    unfold current_registers. rewrite Hs, Hr, Hsd. simpl. rewrite Hrd. reflexivity.
  - intros res w Hrun. unfold gibbsSampleGLM in Hrun. unseed Hrun.
    apply chain_bind_returned in Hrun as ([[ls a] b] & w1 & Hsweeps & Hfin).
    unfold gibbs_sweeps in Hsweeps.
    apply chain_bind_returned in Hsweeps as ([[ls0 a0] b0] & w0 & Hinit & Hloop).
    apply chain_bind_returned in Hloop as (ls' & w1' & Hloop & Hret).
    injection Hret as -> -> -> ->.
    destruct (gibbs_init_valid Hrng inp _ Horacle _ _ Hinit) as [Hne Hval0].
    pose proof (gibbs_init_spec inp _ _ _ Hinit) as Hentry. simpl in Hentry.
    destruct (gibbs_loop_valid Hrng inp Hmain _ ls0 w0 Hne Hval0 ls w1 Hloop)
      as (Hs & Hr & Hval1).
    destruct (gibbs_loop_spec inp _ ls0 w0 (loop_entry_invariant inp _ _ Hentry)
                ls w1 Hloop) as (_ & Hrel & _).
    destruct (gibbs_finish_spec inp ls a b w1 res w Hfin) as (_ & HbS & HbR).
    destruct Hrel as (_ & _ & Hstep & Hbest).
    destruct Hbest as [[Hb1 Hb2]|(Hb1 & Hb2 & _)].
    + destruct Hval1 as (sd & rd & Hsd & Hrd & Hval).
      rewrite Hb1, Hsd in HbS. rewrite Hb2, Hrd in HbR.
      injection HbS as <-. injection HbR as <-. exact Hval.
    + destruct Hentry as (_ & _ & _ & _ & Hn1 & Hn2 & Hn3 & Hn4
                          & sd & rd & Hsd & Hrd & HbS0 & HbR0 & _).
      destruct Hval0 as (sd' & rd' & Hsd' & Hrd' & Hval).
      assert (sd' = sd) as -> by congruence.
      assert (rd' = rd) as -> by congruence.
      destruct (Hstep _ _ HbS0) as (d1 & Hd1 & Hsame1 & _).
      destruct (Hstep _ _ HbR0) as (d2 & Hd2 & Hsame2 & _).
      rewrite (Hsame1 Hn1 Hn2) in Hd1. rewrite (Hsame2 Hn3 Hn4) in Hd2.
      rewrite Hb1, Hd1 in HbS. rewrite Hb2, Hd2 in HbR.
      injection HbS as <-. injection HbR as <-. exact Hval.
Qed.

End RegistersTheorem.

Lemma tape_libraries_in_range (tape : list Z) : @rng_in_range (tape_libraries tape).
Proof.
  split.
  - intros low high g v g' Hdraw. cbn in Hdraw. unfold tape_randint in Hdraw.
    destruct g as [|v0 g0]; [discriminate|].
    destruct (Z.leb_spec low v0), (Z.ltb_spec v0 high); simpl in Hdraw;
      try discriminate.
    injection Hdraw as <- _. lia.
  - intros p g i g' Hdraw. cbn in Hdraw. unfold tape_choice in Hdraw.
    destruct g as [|v0 g0]; [discriminate|].
    destruct (py_getitem p v0) as [pv|] eqn:Hget; [|discriminate].
    destruct (Z.leb_spec 0 v0); simpl in Hdraw; [|discriminate].
    destruct (Qltb 0 pv); [|discriminate].
    injection Hdraw as <- _.
    rewrite py_getitem_nonneg in Hget by lia.
    apply lookup_lt_Some in Hget. lia.
Qed.

Lemma ex_inputs_from_main (maxIters : Z) (fixedStarts : gmap string (Z * Z)) :
  inputs_from_main (ex_inputs maxIters fixedStarts).
Proof.
  split_and!.
  - apply (bool_decide_unpack _). vm_compute. exact I.
  - reflexivity.
  - exists ex_core, numAAs_default, ex_uniqueProteins. vm_compute. reflexivity.
Qed.

Lemma registers_stay_inside_pwms_witness :
  ∃ res w,
    @gibbsSampleGLM libs_best_first (ex_inputs 2 ∅) = Returned res w
    ∧ registers_valid (ex_inputs 2 ∅) (res_start res) (res_rev res).
Proof.
  assert (E : @chain_outcome libs_best_first (ex_inputs 2 ∅)
              = Some ((-222240 # 187)%Q, [("p1", 0); ("p2", 0)],
                      [("p1", 0); ("p2", 0)]))
    by (vm_compute; reflexivity).
  apply chain_outcome_returned in E as (res & w & Hrun & _).
  destruct (@registers_stay_inside_pwms libs_best_first (ex_inputs 2 ∅)) as [_ Hres].
  - apply tape_libraries_in_range.
  - reflexivity.
  - apply ex_inputs_from_main.
  - exists res, w. split; [exact Hrun | exact (Hres res w Hrun)].
Defined.

(** X12. When [sampleStartPosGLM] returns, the PWM of the held-out protein
    is at least as long as the window (a shorter PWM leaves [lls] empty and
    [lls.max()] raises), the list of candidate scores has
    [2 * (len(pwm) - mWid + 1)] entries, and the register returned lies
    inside the PWM: [0 <= s <= len(pwm) - mWid] and [r] is 0 or 1, provided
    the drawn index is one of [range(len(lls))]. *)
Theorem sampleStartPosGLM_register_in_range `{Libraries} testX uniqueProteins
    index pwms_ edges_ model (g g' : Rng) (s r : Z) (lls : list Q) :
  (∀ p g i g', np_random_choice p g = Some (i, g') → 0 ≤ i < Z.of_nat (length p)) →
  sampleStartPosGLM testX uniqueProteins index pwms_ edges_ model g
    = Some (s, r, lls, g') →
  ∃ holdout pwm,
    py_getitem uniqueProteins index = Some holdout
    ∧ pwms_ !! holdout = Some pwm
    ∧ Z.of_nat (size edges_) ≤ Z.of_nat (length pwm)
    ∧ Z.of_nat (length lls) = 2 * (Z.of_nat (length pwm) - Z.of_nat (size edges_) + 1)
    ∧ valid_register pwms_ (Z.of_nat (size edges_)) holdout s r.
Proof.
  intros Hchoice Hrun.
  destruct (sampleStartPosGLM_range _ _ _ _ _ _ _ _ _ _ _ Hchoice Hrun)
    as (holdout & pwm & Hh & Hp & Hw & Hn & Hs & Hr).
  exists holdout, pwm. split_and!; try assumption.
  exists pwm. done.
Qed.

Lemma sampleStartPosGLM_register_in_range_witness :
  ∃ s r lls g',
    @sampleStartPosGLM (tape_libraries [1]) ex_testX ex_uniqueProteins 0 ex_pwms
      ex_edges ex_model [1] = Some (s, r, lls, g')
    ∧ valid_register ex_pwms (Z.of_nat (size ex_edges)) "p1" s r.
Proof.
  destruct (@sampleStartPosGLM (tape_libraries [1]) ex_testX ex_uniqueProteins 0
              ex_pwms ex_edges ex_model [1]) as [[[[s r] lls] g']|] eqn:E;
    [|vm_compute in E; discriminate].
  destruct (@sampleStartPosGLM_register_in_range (tape_libraries [1]) _ _ _ _ _ _
              _ _ _ _ _ (proj2 (tape_libraries_in_range [1])) E)
    as (holdout & pwm & Hh & _ & _ & _ & Hval).
  injection Hh as <-.
  exists s, r, lls, g'. split; [reflexivity|exact Hval].
Defined.

(** ** Edge cases of the chain driver *)

Section ChainEdges.

Context `{Libraries}.
Variable inp : chain_inputs.

Lemma lift_returned {A} (o : option A) w a w' :
  lift o w = Returned a w' → o = Some a ∧ w' = w.
Proof. unfold lift. destruct o; intros Hr; [|discriminate]. by injection Hr as -> ->. Qed.

Lemma chain_bind_run {A B} (m : chain A) (k : A → chain B) w a w' :
  m w = Returned a w' → (m ≫= k) w = k a w'.
Proof.
  intros Hm. unfold mbind, chain_mbind, chain_bind. rewrite Hm. reflexivity.
Qed.

Lemma formGLM_trainW_no_protein pwms_ (start rev : gmap string Z) :
  formGLM_trainW pwms_ [] start rev "classifier" = None.
Proof. reflexivity. Qed.

Lemma gibbs_init_returned ls a b w w' :
  gibbs_init inp w = Returned (ls, a, b) w' →
  uniqueProteins inp ≠ [] ∧ v_model ls = None.
Proof.
  unfold gibbs_init. intros Hrun.
  apply chain_bind_returned in Hrun as ([start rev] & w1 & _ & Hrun).
  apply chain_bind_returned in Hrun as (startd & w2 & _ & Hrun).
  apply chain_bind_returned in Hrun as (revd & w3 & _ & Hrun).
  apply chain_bind_returned in Hrun as (init_model & w4 & Hmodel & Hrun).
  apply chain_bind_returned in Hrun as (pc & w5 & _ & Hrun).
  apply chain_bind_returned in Hrun as (mse & w6 & _ & Hrun).
  apply chain_bind_returned in Hrun as (bestStart & w7 & _ & Hrun).
  apply chain_bind_returned in Hrun as (bestRev & w8 & _ & Hrun).
  injection Hrun as <- _ _ _. split; [|reflexivity].
  apply lift_returned in Hmodel as [Hmodel _].
  intros HuP. rewrite HuP in Hmodel. discriminate.
Qed.

Lemma gibbs_sweeps_inv ls a b w w1 :
  gibbs_sweeps inp w = Returned (ls, a, b) w1 →
  ∃ ls0 w0, gibbs_init inp w = Returned (ls0, a, b) w0
            ∧ gibbs_loop inp (Z.to_nat (maxIters inp)) ls0 w0 = Returned ls w1.
Proof.
  unfold gibbs_sweeps. intros Hrun.
  apply chain_bind_returned in Hrun as ([[ls0 a0] b0] & w0 & Hinit & Hloop).
  apply chain_bind_returned in Hloop as (ls' & w1' & Hloop & Hret).
  injection Hret as -> -> -> ->. eauto.
Qed.

Lemma gibbsSampleGLM_inv res w :
  gibbsSampleGLM inp = Returned res w →
  ∃ ls0 w0 ls a b w1,
    gibbs_init inp (gibbs_world inp) = Returned (ls0, a, b) w0
    ∧ gibbs_loop inp (Z.to_nat (maxIters inp)) ls0 w0 = Returned ls w1
    ∧ gibbs_finish inp ls a b w1 = Returned res w.
Proof.
  unfold gibbsSampleGLM. intros Hrun. unseed Hrun.
  apply chain_bind_returned in Hrun as ([[ls a] b] & w1 & Hsweeps & Hfin).
  apply gibbs_sweeps_inv in Hsweeps as (ls0 & w0 & Hinit & Hloop).
  exists ls0, w0, ls, a, b, w1. done.
Qed.

Lemma gibbs_loop_first_pass ls0 w0 ls w :
  0 < maxIters inp →
  v_nIters ls0 = 0 →
  v_converged ls0 = false →
  gibbs_loop inp (Z.to_nat (maxIters inp)) ls0 w0 = Returned ls w →
  ∃ ls1 w1, gibbs_iteration inp ls0 w0 = Returned ls1 w1.
Proof.
  intros Hmax Hn Hc Hrun.
  destruct (Z.to_nat (maxIters inp)) as [|fuel] eqn:Hfuel; [lia|].
  cbn [gibbs_loop] in Hrun. rewrite Hn, Hc in Hrun.
  destruct (Z.ltb_spec 0 (maxIters inp)); [|lia]. simpl in Hrun.
  apply chain_bind_returned in Hrun as (ls1 & w1 & Hiter & _). eauto.
Qed.

Lemma sweep_ll_unbound_model start rev w :
  uniqueProteins inp ≠ [] →
  sweep_ll inp None start rev w = Raised.
Proof.
  intros HuP. unfold sweep_ll.
  unfold mbind, chain_mbind, chain_bind, deref.
  destruct (w_heap w !! start); [|reflexivity].
  destruct (w_heap w !! rev); [|reflexivity].
  destruct (uniqueProteins inp) as [|p l]; [done|].
  cbn [imap for_].
  destruct (formGLM_testX (fullX inp) (Z.of_nat 0) "classifier"); [|reflexivity].
  cbn [mbind option_bind].
  destruct (formGLM_testW _ _ _ _ _); reflexivity.
Qed.

(** X13. [gibbsSampleGLM] raises on an empty protein list (the weight
    builder slices an empty dict). With a positive iteration cap it also
    raises when there is no observation group ([model] is still unbound when
    the sweep's log-likelihood is computed) and, on inputs laid out as [main]
    lays them out, when there is a single group (no training protein is
    left): a chain that returns had at least two groups. *)
Theorem chain_needs_proteins_and_two_groups res w :
  gibbsSampleGLM inp = Returned res w →
  uniqueProteins inp ≠ []
  ∧ (0 < maxIters inp → obsGrps inp ≠ [])
  ∧ (0 < maxIters inp → inputs_from_main inp → (2 ≤ length (obsGrps inp))%nat).
Proof.
  intros Hrun.
  apply gibbsSampleGLM_inv in Hrun as (ls0 & w0 & ls & a & b & w1 & Hinit & Hloop & _).
  destruct (gibbs_init_returned _ _ _ _ _ Hinit) as [HuP Hmodel].
  pose proof (gibbs_init_spec inp _ _ _ Hinit) as Hentry. simpl in Hentry.
  destruct Hentry as (Hn & _ & _ & Hc & _).
  assert (Hgroups : 0 < maxIters inp → obsGrps inp ≠ []).
  { intros Hmax Hnone.
    destruct (gibbs_loop_first_pass _ _ _ _ Hmax Hn Hc Hloop) as (ls1 & w2 & Hiter).
    unfold gibbs_iteration in Hiter. rewrite Hnone in Hiter. cbn [cfor] in Hiter.
    apply chain_bind_returned in Hiter as ([vc model] & w3 & Hret & Hiter).
    injection Hret as <- <- <-.
    apply chain_bind_returned in Hiter as (ll & w4 & Hll & _).
    rewrite Hmodel, sweep_ll_unbound_model in Hll by exact HuP. discriminate. }
  split; [exact HuP|]. split; [exact Hgroups|].
  intros Hmax (Hnd & HuPeq & core & numAAs & uP0 & Hfull).
  destruct (obsGrps inp) as [|[g members] [|grp2 rest]] eqn:Hobs.
  - exfalso. by apply Hgroups.
  - exfalso.
    destruct (gibbs_loop_first_pass _ _ _ _ Hmax Hn Hc Hloop) as (ls1 & w2 & Hiter).
    unfold gibbs_iteration in Hiter. rewrite Hobs in Hiter. cbn [cfor] in Hiter.
    apply chain_bind_returned in Hiter as ([vc model] & w3 & Hgrp & _).
    apply chain_bind_returned in Hgrp as ([vc' model'] & w4 & Hgrp & _).
    unfold sweep_group in Hgrp.
    apply chain_bind_returned in Hgrp as ([startInd_ho endIndex_ho] & w5 & Hind & Hgrp).
    apply lift_returned in Hind as [Hind _].
    destruct (formGLM_fullX_spec _ _ _ _ _ _ _ _ Hfull) as [_ Hrange].
    specialize (Hrange Hnd [] g members [] eq_refl).
    change (rows_per_protein "classifier") with 4%nat in Hrange.
    rewrite Hrange in Hind. injection Hind as <- <-.
    apply chain_bind_returned in Hgrp as (trainX & w6 & _ & Hgrp).
    apply chain_bind_returned in Hgrp as (startd & w7 & _ & Hgrp).
    apply chain_bind_returned in Hgrp as (revd & w8 & _ & Hgrp).
    apply chain_bind_returned in Hgrp as (trainW & w9 & HW & _).
    apply lift_returned in HW as [HW _].
    rewrite HuPeq in HW.
    change (trainProteins_of _ _ _)
      with (trainProteins_of ([] ++ members ++ [])
              (4 * Z.of_nat (length (@nil string)))
              (4 * Z.of_nat (length (@nil string)) + 4 * Z.of_nat (length members) - 1))
      in HW.
    rewrite trainProteins_of_middle in HW. discriminate.
  - simpl. lia.
Qed.

(** X14. With an iteration cap of zero or less the while loop is not
    entered: the chain returns [ll = -1e30], a history that holds that value
    only, and the registers of the initialisation. *)
Theorem no_sweep_without_iterations res w :
  maxIters inp ≤ 0 →
  gibbsSampleGLM inp = Returned res w →
  res_ll res = bestll_init
  ∧ ∃ ls0 a b w0,
      gibbs_init inp (gibbs_world inp) = Returned (ls0, a, b) w0
      ∧ gibbs_sweeps inp (gibbs_world inp) = Returned (ls0, a, b) w0
      ∧ v_nIters ls0 = 0
      ∧ v_llsAll ls0 = [bestll_init]
      ∧ current_registers ls0 w0 = Some (res_start res, res_rev res).
Proof.
  intros Hmax Hrun.
  apply gibbsSampleGLM_inv in Hrun as (ls0 & w0 & ls & a & b & w1 & Hinit & Hloop & Hfin).
  pose proof (gibbs_init_spec inp _ _ _ Hinit) as Hentry. simpl in Hentry.
  destruct Hentry as (Hn & Hlls & Hbest & Hc & _ & _ & _ & _
                      & sd & rd & Hsd & Hrd & HbS & HbR & _).
  assert (Hexit : gibbs_loop inp (Z.to_nat (maxIters inp)) ls0 w0 = Returned ls0 w0).
  { destruct (Z.to_nat (maxIters inp)); cbn [gibbs_loop]; rewrite Hn;
      destruct (Z.ltb_spec 0 (maxIters inp)); try lia; reflexivity. }
  rewrite Hexit in Hloop. injection Hloop as <- <-.
  destruct (gibbs_finish_spec inp ls0 a b w0 res w Hfin) as (Hll & HrS & HrR).
  split; [congruence|].
  exists ls0, a, b, w0. split_and!; try done.
  - unfold gibbs_sweeps. rewrite (chain_bind_run _ _ _ _ _ Hinit).
    rewrite (chain_bind_run _ _ _ _ _ Hexit). reflexivity.
  - unfold current_registers. rewrite Hsd. simpl. rewrite Hrd. simpl.
    congruence.
Qed.

Lemma gibbs_iteration_silent ls w ls' w' :
  gibbs_iteration inp ls w = Returned ls' w' →
  gibbs_iteration (with_verbose false inp) ls w = Returned ls' w'.
Proof.
  unfold gibbs_iteration. intros Hrun.
  apply chain_bind_returned in Hrun as ([vc model] & w1 & Hgroups & Hrun).
  apply chain_bind_returned in Hrun as (ll & w2 & Hll & Hrun).
  apply chain_bind_returned in Hrun as (u & w3 & Hverb & Hrun).
  assert (w3 = w2) as ->.
  { revert Hverb. destruct (verbose inp); intros Hverb.
    - apply chain_bind_returned in Hverb as (sd & w4 & Hsd & Hverb).
      apply chain_bind_returned in Hverb as (rd & w5 & Hrd & Hverb).
      apply lift_returned in Hverb as [_ ->].
      unfold deref in Hsd, Hrd.
      destruct (w_heap w2 !! v_start ls); [|discriminate].
      injection Hsd as _ <-.
      destruct (w_heap w2 !! v_rev ls); [|discriminate].
      injection Hrd as _ <-. reflexivity.
    - injection Hverb as _ <-. reflexivity. }
  change (cfor (obsGrps (with_verbose false inp))
            (sweep_group (with_verbose false inp) (v_start ls) (v_rev ls)))
    with (cfor (obsGrps inp) (sweep_group inp (v_start ls) (v_rev ls))).
  rewrite (chain_bind_run _ _ _ _ _ Hgroups).
  change (sweep_ll (with_verbose false inp)) with (sweep_ll inp).
  rewrite (chain_bind_run _ _ _ _ _ Hll).
  cbn [verbose with_verbose].
  rewrite (chain_bind_run (mret ∅) _ w2 ∅ w2 eq_refl).
  exact Hrun.
Qed.

Lemma gibbs_loop_silent (fuel : nat) ls w ls' w' :
  gibbs_loop inp fuel ls w = Returned ls' w' →
  gibbs_loop (with_verbose false inp) fuel ls w = Returned ls' w'.
Proof.
  revert ls w. induction fuel as [|fuel IH]; intros ls w; cbn [gibbs_loop];
    change (maxIters (with_verbose false inp)) with (maxIters inp);
    destruct ((v_nIters ls <? maxIters inp) && negb (v_converged ls)); try done.
  intros Hrun.
  apply chain_bind_returned in Hrun as (ls1 & w1 & Hiter & Hrun).
  rewrite (chain_bind_run _ _ _ _ _ (gibbs_iteration_silent _ _ _ _ Hiter)).
  apply IH, Hrun.
Qed.

(** X15. The flag [verbose] has no influence on the result: whenever a
    chain returns, the chain on the same inputs with [verbose = False]
    returns the same record and leaves the same store and generator
    state. *)
Theorem verbose_does_not_change_the_result res w :
  gibbsSampleGLM inp = Returned res w →
  gibbsSampleGLM (with_verbose false inp) = Returned res w.
Proof.
  intros Hrun.
  assert (Hseed : seed_in_range (randSeed inp) = true).
  { unfold gibbsSampleGLM, seeded in Hrun.
    by destruct (seed_in_range (randSeed inp)). }
  apply gibbsSampleGLM_inv in Hrun as (ls0 & w0 & ls & a & b & w1 & Hinit & Hloop & Hfin).
  apply gibbs_loop_silent in Hloop.
  unfold gibbsSampleGLM, seeded, gibbs_sweeps.
  change (randSeed (with_verbose false inp)) with (randSeed inp). rewrite Hseed.
  change (gibbs_init (with_verbose false inp)) with (gibbs_init inp).
  change (gibbs_world (with_verbose false inp)) with (gibbs_world inp).
  change (maxIters (with_verbose false inp)) with (maxIters inp).
  rewrite (chain_bind_run _ _ _ (ls, a, b) w1).
  - exact Hfin.
  - rewrite (chain_bind_run _ _ _ _ _ Hinit).
    rewrite (chain_bind_run _ _ _ _ _ Hloop). reflexivity.
Qed.

End ChainEdges.

Lemma chain_needs_proteins_and_two_groups_witness :
  ∃ res w,
    @gibbsSampleGLM libs_best_first (ex_inputs 2 ∅) = Returned res w
    ∧ (2 ≤ length (obsGrps (ex_inputs 2 ∅)))%nat.
Proof.
  assert (E : @chain_outcome libs_best_first (ex_inputs 2 ∅)
              = Some ((-222240 # 187)%Q, [("p1", 0); ("p2", 0)],
                      [("p1", 0); ("p2", 0)]))
    by (vm_compute; reflexivity).
  apply chain_outcome_returned in E as (res & w & Hrun & _).
  destruct (@chain_needs_proteins_and_two_groups libs_best_first (ex_inputs 2 ∅)
              res w Hrun) as (_ & _ & Htwo).
  exists res, w. split; [exact Hrun|].
  apply Htwo; [reflexivity|apply ex_inputs_from_main].
Defined.

Lemma no_sweep_without_iterations_witness :
  ∃ res w,
    @gibbsSampleGLM libs_best_first (ex_inputs 0 ∅) = Returned res w
    ∧ res_ll res = bestll_init.
Proof.
  assert (E : @chain_outcome libs_best_first (ex_inputs 0 ∅)
              = Some (bestll_init, [("p1", 0); ("p2", 0)], [("p1", 0); ("p2", 0)]))
    by (vm_compute; reflexivity).
  apply chain_outcome_returned in E as (res & w & Hrun & _).
  destruct (@no_sweep_without_iterations libs_best_first (ex_inputs 0 ∅) res w)
    as [Hll _].
  - simpl. lia.
  - exact Hrun.
  - exists res, w. split; [exact Hrun|exact Hll].
Defined.

Lemma verbose_does_not_change_the_result_witness :
  ∃ res w,
    @gibbsSampleGLM libs_best_first (with_verbose true (ex_inputs 2 ∅)) = Returned res w
    ∧ @gibbsSampleGLM libs_best_first
        (with_verbose false (with_verbose true (ex_inputs 2 ∅))) = Returned res w.
Proof.
  assert (E : @chain_outcome libs_best_first (with_verbose true (ex_inputs 2 ∅))
              = Some ((-222240 # 187)%Q, [("p1", 0); ("p2", 0)],
                      [("p1", 0); ("p2", 0)]))
    by (vm_compute; reflexivity).
  apply chain_outcome_returned in E as (res & w & Hrun & _).
  exists res, w. split; [exact Hrun|].
  apply (@verbose_does_not_change_the_result libs_best_first), Hrun.
Defined.

(** ** The modes of formGLM_trainW *)

Lemma formGLM_trainW_regressor_spec pwms_ uniqueProteins
    (start rev : gmap string Z) (Wt : trainW_t) :
  formGLM_trainW pwms_ uniqueProteins start rev "regressor" = Some Wt →
  ∃ W, Wt = W_regressor W
    ∧ ∀ j b, (j < MWID)%nat → (b < 4)%nat →
        ∃ Wj col,
          W !! j = Some Wj ∧ Wj !! b = Some col
          ∧ Forall2 (λ p x, ∃ row, oriented_row pwms_ start rev p j = Some row
                                   ∧ row !! b = Some x) uniqueProteins col.
Proof.
  unfold formGLM_trainW. intros Hrun.
  apply bind_Some in Hrun as (weights & Hweights & Hrun).
  change (String.eqb "regressor" "classifier") with false in Hrun.
  change (String.eqb "regressor" "regressor") with true in Hrun. cbv iota in Hrun.
  apply fmap_Some in Hrun as (W & HW & ->).
  exists W. split; [reflexivity|]. intros j b Hj Hb.
  destruct (for_seq_insert _ _ _ HW j Hj) as (Wj & HWj & Hlook).
  unfold trainW_regressor_position in HWj.
  destruct (for_seq_insert _ _ _ HWj b Hb) as (col & Hcol & Hlookb).
  exists Wj, col. split; [exact Hlook|]. split; [exact Hlookb|].
  apply mapM_Some in Hcol.
  eapply Forall2_impl_elem; [exact Hcol|].
  intros p x Hp Hx. simpl in Hx.
  destruct (weights_oriented_row _ _ _ _ _ p j Hweights Hp Hj)
    as (w & row & Hw & Hrow & Hor).
  rewrite Hw in Hx. simpl in Hx. rewrite Hrow in Hx. simpl in Hx.
  rewrite py_getitem_nonneg, Nat2Z.id in Hx by lia.
  exists row. split; [exact Hor|exact Hx].
Qed.

(** X17. In regressor mode [formGLM_trainW] returns, for every window
    position [j] and base [b], the vector that holds entry [b] of the
    oriented PWM row of every protein at [j], one entry per protein in the
    order of [uniqueProteins], without normalisation. With an empty protein
    list the regressor branch returns empty vectors, whereas the classifier
    branch raises (it slices the dict [{}]). *)
Theorem formGLM_trainW_regressor_columns pwms_ (start rev : gmap string Z) :
  (∀ uniqueProteins Wt,
     formGLM_trainW pwms_ uniqueProteins start rev "regressor" = Some Wt →
     ∃ W, Wt = W_regressor W
       ∧ ∀ j b, (j < MWID)%nat → (b < 4)%nat →
           ∃ Wj col,
             W !! j = Some Wj ∧ Wj !! b = Some col
             ∧ Forall2 (λ p x, ∃ row, oriented_row pwms_ start rev p j = Some row
                                      ∧ row !! b = Some x) uniqueProteins col)
  ∧ formGLM_trainW pwms_ [] start rev "classifier" = None
  ∧ ∃ W, formGLM_trainW pwms_ [] start rev "regressor" = Some (W_regressor W)
      ∧ ∀ j b, (j < MWID)%nat → (b < 4)%nat →
          ∃ Wj, W !! j = Some Wj ∧ Wj !! b = Some [].
Proof.
  split; [intros uP Wt; apply formGLM_trainW_regressor_spec|].
  split; [reflexivity|].
  destruct (formGLM_trainW pwms_ [] start rev "regressor") as [Wt|] eqn:E;
    [|discriminate].
  destruct (formGLM_trainW_regressor_spec pwms_ [] start rev Wt E) as (W & -> & Hcols).
  exists W. split; [reflexivity|]. intros j b Hj Hb.
  destruct (Hcols j b Hj Hb) as (Wj & col & HWj & Hcol & Hall).
  apply Forall2_nil_inv_l in Hall. subst col. eauto.
Qed.

(** ** The diagnostics *)

Section Diagnostics.

Context `{Libraries}.

Lemma div_len_fraction {A} (m : Z) (l : list A) (a : Q) :
  0 ≤ m ≤ Z.of_nat (length l) →
  div_len (inject_Z m) l = Some a →
  l ≠ [] ∧ (0 <= a <= 1)%Q.
Proof.
  intros Hm. unfold div_len. destruct (decide (l = [])) as [->|Hne]; [discriminate|].
  intros [= <-]. split; [exact Hne|].
  assert (Hpos : (0 < inject_Z (Z.of_nat (length l)))%Q).
  { change 0%Q with (inject_Z 0). rewrite <- Zlt_Qlt.
    destruct l; [done|simpl; lia]. }
  split.
  - apply Qle_shift_div_l; [exact Hpos|]. rewrite Qmult_0_l.
    change 0%Q with (inject_Z 0). rewrite <- Zle_Qle. lia.
  - apply Qle_shift_div_r; [exact Hpos|]. rewrite Qmult_1_l.
    rewrite <- Zle_Qle. lia.
Qed.

(** X19. When [computePC_agree] returns, the protein list is not empty
    (the division by [len(uniqueProteins)] raises otherwise) and the value
    of every window position is a fraction between 0 and 1. *)
Theorem computePC_agree_fractions model uniqueProteins pwms_
    (start rev : gmap string Z) fullX_ (agree : gmap nat Q) :
  computePC_agree model uniqueProteins pwms_ start rev fullX_ = Some agree →
  uniqueProteins ≠ []
  ∧ ∀ j, (j < MWID)%nat → ∃ a, agree !! j = Some a ∧ (0 <= a <= 1)%Q.
Proof.
  unfold computePC_agree. intros Hrun.
  set (f := λ j : nat,
         match_ ← for_ (imap (λ i p, (i, p)) uniqueProteins) (λ '(i, p) match_,
                    pred0 ← predicted_row model fullX_ i j;
                    true ← true_row pwms_ start rev p j;
                    c ← pearsonr pred0 true;
                    Some (if Qle_bool (1 # 2) c then match_ + 1 else match_)) 0;
         div_len (inject_Z match_) uniqueProteins).
  rewrite (for_ext _ _ (λ j acc, v ← f j; Some (<[j := v]> acc))) in Hrun.
  2:{ intros j acc. unfold f. destruct (for_ _ _ 0) as [m|]; [|reflexivity].
      cbn [mbind option_bind]. destruct (div_len _ _); reflexivity. }
  assert (Hpos : ∀ j, (j < MWID)%nat →
            ∃ a, agree !! j = Some a ∧ uniqueProteins ≠ [] ∧ (0 <= a <= 1)%Q).
  { intros j Hj. destruct (for_seq_insert _ _ _ Hrun j Hj) as (a & Ha & Hlook).
    exists a. split; [exact Hlook|]. unfold f in Ha.
    apply bind_Some in Ha as (m & Hm & Ha).
    rewrite (for_ext _ _ (λ ip n, b ← (pred0 ← predicted_row model fullX_ ip.1 j;
                                        true ← true_row pwms_ start rev ip.2 j;
                                        c ← pearsonr pred0 true;
                                        Some (Qle_bool (1 # 2) c));
                                   Some (if b : bool then n + 1 else n))) in Hm.
    2:{ intros [i p] n. simpl. destruct (predicted_row _ _ _ _); [|reflexivity].
        cbn [mbind option_bind]. destruct (true_row _ _ _ _ _); [|reflexivity].
        cbn [mbind option_bind]. destruct (pearsonr _ _); reflexivity. }
    apply for_count in Hm as [Hm _]. rewrite length_imap in Hm.
    eapply div_len_fraction; [|exact Ha]. lia. }
  split.
  - destruct (Hpos 0%nat) as (a & _ & Hne & _); [unfold MWID; lia|exact Hne].
  - intros j Hj. destruct (Hpos j Hj) as (a & Ha & _ & Hr). eauto.
Qed.

End Diagnostics.

Lemma computePC_agree_fractions_witness :
  ∃ agree a,
    @computePC_agree (tape_libraries []) ex_model ex_uniqueProteins ex_pwms
      ex_registers ex_registers ex_design.1 = Some agree
    ∧ agree !! 0%nat = Some a ∧ (0 <= a <= 1)%Q.
Proof.
  destruct (@computePC_agree (tape_libraries []) ex_model ex_uniqueProteins ex_pwms
              ex_registers ex_registers ex_design.1) as [agree|] eqn:E;
    [|vm_compute in E; discriminate].
  destruct (@computePC_agree_fractions (tape_libraries []) _ _ _ _ _ _ _ E)
    as [_ Hfrac].
  destruct (Hfrac 0%nat) as (a & Ha & Hr); [unfold MWID; lia|].
  exists agree, a. split; [reflexivity|]. split; [exact Ha|exact Hr].
Defined.

Lemma formGLM_trainW_succeeds_witness :
  ∃ W, formGLM_trainW ex_pwms ex_uniqueProteins ex_registers ex_registers "classifier"
       = Some (W_classifier W).
Proof.
  apply formGLM_trainW_succeeds.
  - split; [discriminate|].
    intros p Hp.
    apply elem_of_cons in Hp as [->|Hp]; [|apply list_elem_of_singleton in Hp as ->].
    + exists ex_pwm1, 0, 0. split_and!; try reflexivity; vm_compute; discriminate.
    + exists ex_pwm2, 0, 0. split_and!; try reflexivity; vm_compute; discriminate.
  - apply positive_rows_mass_nonzero.
    intros p j row Hp Hj Hrow. unfold MWID in Hj.
    apply elem_of_cons in Hp as [->|Hp]; [|apply list_elem_of_singleton in Hp as ->];
      (do 6 (destruct j as [|j]; [vm_compute in Hrow; injection Hrow as <-;
                                  vm_compute; reflexivity|]); lia).
Defined.

Lemma returned_registers_are_current_witness :
  ∃ res w ls a b w1,
    @gibbsSampleGLM libs_best_first (ex_inputs 2 ∅) = Returned res w
    ∧ @gibbs_sweeps libs_best_first (ex_inputs 2 ∅)
        (@gibbs_world libs_best_first (ex_inputs 2 ∅)) = Returned (ls, a, b) w1
    ∧ @current_registers libs_best_first ls w1 = Some (res_start res, res_rev res).
Proof.
  assert (E : @chain_outcome libs_best_first (ex_inputs 2 ∅)
              = Some ((-222240 # 187)%Q, [("p1", 0); ("p2", 0)],
                      [("p1", 0); ("p2", 0)]))
    by (vm_compute; reflexivity).
  apply chain_outcome_returned in E as (res & w & Hrun & Hx).
  destruct (@returned_registers_are_current libs_best_first _ res w Hrun)
    as (ls & a & b & w1 & Hsweeps & Hcur).
  exists res, w, ls, a, b, w1. split_and!; [exact Hrun|exact Hsweeps|].
  apply Hcur. injection Hx as Hll _ _. symmetry in Hll.
  apply Qred_eq in Hll. rewrite Hll. reflexivity.
Defined.

(** ** The contact map *)

Lemma py_index_Some (x : Z) (l : list Z) :
  x ∈ l → ∃ i, py_index x l = Some i ∧ 0 ≤ i < Z.of_nat (length l)
               ∧ l !! Z.to_nat i = Some x.
Proof.
  induction l as [|y l IH]; intros Hin; [inversion Hin|].
  cbn [py_index]. destruct (decide (y = x)) as [->|Hne].
  - exists 0. simpl. split_and!; try done; lia.
  - apply elem_of_cons in Hin as [->|Hin]; [done|].
    destruct (IH Hin) as (i & -> & Hi & Hl). exists (Z.succ i).
    split; [reflexivity|]. simpl length. split; [lia|].
    replace (Z.to_nat (Z.succ i)) with (S (Z.to_nat i)) by lia. exact Hl.
Qed.

Lemma append_at_lookup (k v k' : Z) (d : gmap Z (list Z)) :
  append_at k v d !! k'
  = if decide (k' = k) then Some (default [] (d !! k) ++ [v]) else d !! k'.
Proof.
  unfold append_at. destruct (decide (k' = k)) as [->|Hne].
  - destruct (d !! k); rewrite lookup_insert_eq; reflexivity.
  - destruct (d !! k); rewrite lookup_insert_ne by done; reflexivity.
Qed.

Lemma edges_hmmPos_lookup (lines : list (Z * Z)) (d : gmap Z (list Z)) (k : Z) :
  foldl (λ d '(bpos, aapos), append_at bpos aapos d) d lines !! k
  = match filter (λ l, l.1 = k) lines with
    | [] => d !! k
    | fl => Some (default [] (d !! k) ++ fl.*2)
    end.
Proof.
  revert d. induction lines as [|[b a] lines IH]; intros d; [reflexivity|].
  cbn [foldl]. rewrite IH, filter_cons, append_at_lookup. cbn [fst].
  destruct (decide (b = k)) as [Hk|Hk].
  - rewrite decide_True by done. rewrite Hk. simpl.
    destruct (filter _ lines) as [|x fl]; simpl.
    + reflexivity.
    + rewrite <- (assoc_L (++)). reflexivity.
  - rewrite decide_False by done. reflexivity.
Qed.

Lemma aaPosSet_elem (lines : list (Z * Z)) (s : gset Z) (a : Z) :
  a ∈ foldl (λ (s : gset Z) '(bpos, aapos), {[aapos]} ∪ s) s lines
  ↔ a ∈ s ∨ a ∈ lines.*2.
Proof.
  revert s. induction lines as [|[b a'] lines IH]; intros s.
  - simpl. split; [auto|]. intros [?|Hin]; [done|inversion Hin].
  - cbn [foldl]. rewrite IH. simpl. rewrite elem_of_union, elem_of_singleton, elem_of_cons.
    tauto.
Qed.

Lemma edge_indices_one (L : list Z) (bpos : Z) (hs : list Z) (E0 : gmap Z (list Z)) :
  Forall (λ h, h ∈ L) hs →
  ∃ E es,
    for_ hs (λ aapos edges, i ← py_index aapos L; Some (append_at bpos i edges)) E0
    = Some E
    ∧ Forall2 (λ e h, 0 ≤ e < Z.of_nat (length L) ∧ L !! Z.to_nat e = Some h) es hs
    ∧ (∀ k, k ≠ bpos → E !! k = E0 !! k)
    ∧ E !! bpos = match es with
                  | [] => E0 !! bpos
                  | _ => Some (default [] (E0 !! bpos) ++ es)
                  end.
Proof.
  intros Hall. revert E0. induction Hall as [|h hs Hh Hall IH]; intros E0.
  - exists E0, []. split_and!; done.
  - cbn [for_]. destruct (py_index_Some h L Hh) as (i & Hi & Hr & Hl).
    rewrite Hi. cbn [mbind option_bind].
    destruct (IH (append_at bpos i E0)) as (E & es & Hfor & Hes & Hother & Hb).
    exists E, (i :: es). split_and!.
    + exact Hfor.
    + constructor; [split; assumption|exact Hes].
    + intros k Hk. rewrite Hother, append_at_lookup, decide_False by done. reflexivity.
    + rewrite Hb, append_at_lookup, decide_True by done. simpl.
      destruct es; simpl; [reflexivity|]. rewrite <- (assoc_L (++)). reflexivity.
Qed.

Lemma edge_indices_all (L : list Z) (items : list (Z * list Z)) (E0 : gmap Z (list Z)) :
  NoDup (items.*1) →
  (∀ b hs, (b, hs) ∈ items → hs ≠ [] ∧ Forall (λ h, h ∈ L) hs ∧ E0 !! b = None) →
  ∃ E,
    for_ items (λ '(bpos, aaposs) edges,
      for_ aaposs (λ aapos edges,
        i ← py_index aapos L; Some (append_at bpos i edges)) edges) E0 = Some E
    ∧ (∀ k, k ∉ items.*1 → E !! k = E0 !! k)
    ∧ ∀ b hs, (b, hs) ∈ items →
        ∃ es, E !! b = Some es
          ∧ Forall2 (λ e h, 0 ≤ e < Z.of_nat (length L) ∧ L !! Z.to_nat e = Some h) es hs.
Proof.
  revert E0. induction items as [|[b hs] items IH]; intros E0 Hnd Hitems.
  - exists E0. split_and!; try done. intros b hs Hin. inversion Hin.
  - cbn [for_]. apply NoDup_cons in Hnd as [Hb Hnd].
    destruct (Hitems b hs) as (Hne & Hall & HE0); [left|].
    destruct (edge_indices_one L b hs E0 Hall) as (E1 & es & Hfor & Hes & Hother & Hlook).
    rewrite Hfor. cbn [mbind option_bind].
    destruct (IH E1 Hnd) as (E & HE & Hout & Hin).
    { intros b' hs' Hin'. destruct (Hitems b' hs') as (? & ? & HE0'); [by right|].
      split_and!; try done. rewrite Hother; [exact HE0'|].
      intros ->. apply Hb. apply list_elem_of_fmap. exists (b, hs'). done. }
    exists E. split; [exact HE|]. split.
    + intros k Hk. apply not_elem_of_cons in Hk as [Hk1 Hk2].
      rewrite Hout by done. apply Hother, Hk1.
    + intros b' hs' Hin'. apply elem_of_cons in Hin' as [[= -> ->]|Hin'].
      * exists es. split; [|exact Hes]. rewrite Hout by done. rewrite Hlook, HE0.
        destruct es as [|e es']; [|reflexivity].
        apply Forall2_nil_inv_l in Hes. done.
      * apply Hin, Hin'.
Qed.

Lemma edges_hmmPos_nonempty (lines : list (Z * Z)) (bpos : Z) :
  foldl (λ d '(bpos, aapos), append_at bpos aapos d) ∅ lines !! bpos
  = nonempty_list ((filter (λ l, l.1 = bpos) lines).*2).
Proof.
  rewrite edges_hmmPos_lookup, lookup_empty.
  destruct (filter _ lines); reflexivity.
Qed.

Lemma contact_map_edges (lines : list (Z * Z)) :
  let H := foldl (λ d '(bpos, aapos), append_at bpos aapos d) ∅ lines in
  let S := foldl (λ (s : gset Z) '(bpos, aapos), {[aapos]} ∪ s) ∅ lines in
  let L := merge_sort Z.le (elements S) in
  ∃ E,
    for_ (map_to_list H) (λ '(bpos, aaposs) edges,
      for_ aaposs (λ aapos edges,
        i ← py_index aapos L; Some (append_at bpos i edges)) edges) ∅ = Some E
    ∧ Sorted Z.le L
    ∧ NoDup L
    ∧ (∀ a, a ∈ L ↔ a ∈ lines.*2)
    ∧ (∀ bpos, H !! bpos = nonempty_list ((filter (λ l, l.1 = bpos) lines).*2))
    ∧ (∀ bpos, E !! bpos = None ↔ H !! bpos = None)
    ∧ (∀ bpos hs, H !! bpos = Some hs →
         ∃ es, E !! bpos = Some es
           ∧ Forall2 (λ e h, 0 ≤ e < Z.of_nat (length L)
                             ∧ L !! Z.to_nat e = Some h) es hs).
Proof.
  intros H S L.
  assert (Hperm : L ≡ₚ elements S) by apply merge_sort_Permutation.
  assert (HL : ∀ a, a ∈ L ↔ a ∈ lines.*2).
  { intros a. rewrite Hperm, elem_of_elements. unfold S. rewrite aaPosSet_elem.
    rewrite elem_of_empty. tauto. }
  destruct (edge_indices_all L (map_to_list H) ∅) as (E & HE & Hout & Hin).
  { apply NoDup_fst_map_to_list. }
  { intros b hs Hbh. apply elem_of_map_to_list in Hbh.
    unfold H in Hbh. rewrite edges_hmmPos_nonempty in Hbh.
    apply nonempty_list_Some in Hbh as [Hne ->].
    split_and!; [exact Hne| |apply lookup_empty].
    apply Forall_forall. intros h Hh. apply HL.
    apply list_elem_of_fmap in Hh as (l & -> & Hl).
    apply list_elem_of_fmap. exists l. split; [reflexivity|].
    apply list_elem_of_filter in Hl as [_ Hl]. exact Hl. }
  exists E. split; [exact HE|].
  split; [apply (Sorted_merge_sort Z.le)|].
  split; [rewrite Hperm; apply NoDup_elements|].
  split; [exact HL|].
  split; [intros bpos; apply edges_hmmPos_nonempty|].
  split.
  - intros bpos. destruct (H !! bpos) as [hs|] eqn:Hb.
    + destruct (Hin bpos hs) as (es & Hes & _); [by apply elem_of_map_to_list|].
      rewrite Hes. split; discriminate.
    + split; [done|]. intros _. rewrite Hout; [apply lookup_empty|].
      intros Hk. apply list_elem_of_fmap in Hk as ([b hs] & -> & Hk).
      apply elem_of_map_to_list in Hk. simpl in Hb. congruence.
  - intros bpos hs Hb. apply Hin. by apply elem_of_map_to_list.
Qed.

Section ContactMapFile.

Variable py_split : string → list string.
Variable py_int : string → option Z.

Lemma contact_line_Some (line : string) (b a : Z) :
  contact_line py_split py_int line = Some (b, a)
  ↔ ∃ x y, py_split line = [x; y] ∧ py_int x = Some b ∧ py_int y = Some a.
Proof.
  unfold contact_line. split.
  - intros Hrun. apply bind_Some in Hrun as (fields & Hf & Hrun).
    destruct fields as [|b' [|a' [|c fields]]]; try done.
    injection Hrun as -> ->.
    apply mapM_Some in Hf.
    destruct (py_split line) as [|x [|y [|z l]]];
      try (apply Forall2_length in Hf; simpl in Hf; lia).
    exists x, y. split; [done|].
    inversion Hf as [|???? Hx Hf']; subst.
    inversion Hf' as [|???? Hy _]; subst. done.
  - intros (x & y & -> & Hx & Hy). cbn [mapM]. rewrite Hx. cbn [mbind option_bind].
    rewrite Hy. reflexivity.
Qed.

Lemma contact_lines_loop (ls : list string) (d : gmap Z (list Z)) (s : gset Z) :
  for_ ls (λ line '(d, s),
    '(bpos, aapos) ← contact_line py_split py_int line;
    Some (append_at bpos aapos d, {[aapos]} ∪ s)) (d, s)
  = lines ← mapM (contact_line py_split py_int) ls;
    Some (foldl (λ d '(bpos, aapos), append_at bpos aapos d) d lines,
          foldl (λ (s : gset Z) '(bpos, aapos), {[aapos]} ∪ s) s lines).
Proof.
  revert d s. induction ls as [|l ls IH]; intros d s; [reflexivity|].
  cbn [for_ mapM].
  destruct (contact_line py_split py_int l) as [[b a]|]; [|reflexivity].
  cbn [mbind option_bind]. rewrite IH.
  destruct (mapM _ ls); reflexivity.
Qed.

(** X20. The contact-map block of [getPrecomputedInputs] returns exactly
    when the file opens and every line after the first splits into two
    fields that [int] accepts; a missing file, a blank line, a line with
    another number of fields or a field that is no integer raises, and
    [aaPosList.index] never does. On return, with [lines] the pairs read from
    the lines after the first: [aaPosList] is sorted, without repetition,
    and holds exactly the contact positions of the file; [edges_hmmPos]
    lists, per base position, its contact positions in file order; [edges]
    has the same keys, and its entry [i] for a base position is a valid index
    into [aaPosList] at which [aaPosList] holds entry [i] of
    [edges_hmmPos]. *)
Theorem contact_map_indices (file : option (list string)) :
  (is_Some (getPrecomputedInputs_contact_map py_split py_int file)
   ↔ ∃ fin, file = Some fin
       ∧ Forall (λ line, ∃ x y, py_split line = [x; y]
                                ∧ is_Some (py_int x) ∧ is_Some (py_int y))
           (drop 1 fin))
  ∧ ∀ edges edges_hmmPos aaPosList,
      getPrecomputedInputs_contact_map py_split py_int file
        = Some (edges, edges_hmmPos, aaPosList) →
      ∃ fin lines,
        file = Some fin
        ∧ Forall2 (λ line l, ∃ x y, py_split line = [x; y]
                                    ∧ py_int x = Some l.1 ∧ py_int y = Some l.2)
            (drop 1 fin) lines
        ∧ Sorted Z.le aaPosList
        ∧ NoDup aaPosList
        ∧ (∀ a, a ∈ aaPosList ↔ a ∈ lines.*2)
        ∧ (∀ bpos, edges_hmmPos !! bpos
                   = nonempty_list ((filter (λ l, l.1 = bpos) lines).*2))
        ∧ (∀ bpos, edges !! bpos = None ↔ edges_hmmPos !! bpos = None)
        ∧ (∀ bpos hs, edges_hmmPos !! bpos = Some hs →
             ∃ es, edges !! bpos = Some es
               ∧ Forall2 (λ e h, 0 ≤ e < Z.of_nat (length aaPosList)
                                 ∧ aaPosList !! Z.to_nat e = Some h) es hs).
Proof.
  unfold getPrecomputedInputs_contact_map.
  destruct file as [fin|]; cbn [mbind option_bind].
  2:{ split; [|done]. split; [by intros [? ?]|by intros (? & ? & _)]. }
  rewrite contact_lines_loop.
  destruct (mapM (contact_line py_split py_int) (drop 1 fin)) as [lines|] eqn:Hlines;
    cbn [mbind option_bind].
  - apply mapM_Some in Hlines.
    assert (Hparsed : Forall2 (λ line l, ∃ x y, py_split line = [x; y]
                                 ∧ py_int x = Some l.1 ∧ py_int y = Some l.2)
                        (drop 1 fin) lines).
    { eapply Forall2_impl; [exact Hlines|].
      intros line [b a] Hl. by apply contact_line_Some in Hl. }
    destruct (contact_map_edges lines) as (E & HE & Hsort & Hnd & HL & HH & Hkeys & Hidx).
    rewrite HE. cbn [mbind option_bind]. split.
    + split; [|by eauto]. intros _. exists fin. split; [done|].
      clear -Hparsed.
      induction Hparsed as [|line l ls ps (x & y & Hs & Hx & Hy) _ IH];
        constructor; [|exact IH].
      exists x, y. eauto.
    + intros edges edges_hmmPos aaPosList [= <- <- <-].
      exists fin, lines. split; [reflexivity|]. split; [exact Hparsed|].
      split; [exact Hsort|]. split; [exact Hnd|]. split; [exact HL|].
      split; [exact HH|]. split; [exact Hkeys|exact Hidx].
  - split; [|done]. split; [by intros [? ?]|].
    intros (fin' & [= <-] & Hall). exfalso.
    assert (Hsome : is_Some (mapM (contact_line py_split py_int) (drop 1 fin)));
      [|rewrite Hlines in Hsome; by destruct Hsome].
    apply mapM_is_Some. eapply Forall_impl; [exact Hall|].
    intros line (x & y & Hs & [b Hb] & [a Ha]). exists (b, a).
    apply contact_line_Some. by exists x, y.
Qed.

End ContactMapFile.

(** ** The samples of a fit *)

Lemma formGLM_trainW_classifier_rows pwms_ uniqueProteins
    (start rev : gmap string Z) (W : gmap nat (list Q)) (j : nat) :
  formGLM_trainW pwms_ uniqueProteins start rev "classifier" = Some (W_classifier W) →
  (j < MWID)%nat →
  ∃ rows_,
    Forall2 (λ p row, oriented_row pwms_ start rev p j = Some row) uniqueProteins rows_
    ∧ W !! j = Some ((λ x, x / Qsum (concat rows_))%Q <$> concat rows_).
Proof.
  unfold formGLM_trainW. intros Hrun Hj.
  apply bind_Some in Hrun as (weights & Hw & Hrun).
  change (String.eqb "classifier" "classifier") with true in Hrun. cbv iota in Hrun.
  apply fmap_Some in Hrun as (W' & HW & Heq). injection Heq as ->.
  destruct (for_seq_insert _ _ _ HW j Hj) as (Wj & Hpos & HWj).
  apply trainW_classifier_position_spec in Hpos as (Hne & rows_ & HF & ->).
  exists rows_. split; [|exact HWj].
  eapply Forall2_impl_elem; [exact HF|].
  intros p row Hp (w & Hwp & Hwj).
  destruct (weights_oriented_row _ _ _ _ _ p j Hw Hp Hj) as (w' & row' & Hw' & Hr' & Ho).
  congruence.
Qed.

Lemma py_repeat_lookup {A} (l : list A) (n i b : nat) :
  (i < n)%nat → (b < length l)%nat →
  py_repeat l n !! (i * length l + b)%nat = l !! b.
Proof.
  intros Hi Hb. unfold py_repeat.
  rewrite (lookup_concat_uniform _ (length l))
    by (try exact Hb; apply Forall_forall; intros x Hx;
        apply elem_of_replicate in Hx as [-> _]; reflexivity).
  rewrite lookup_replicate_2 by exact Hi. reflexivity.
Qed.

(** X21. The three arrays that a full-data fit passes to the classifier of
    window position [j] line up when [uniqueProteins] is in group order and
    every PWM row has four entries: they have the same length, four entries
    per protein, and for the protein at position [i] and base [b] the sample
    [4*i + b] has the feature row of that protein, the label [b], and as
    weight entry [b] of the protein's oriented PWM row at [j], divided by the
    total of all those rows. *)
Theorem training_samples_line_up core edges_ uniqueProteins0 obsGrps numAAs X G
    pwms_ (start rev : gmap string Z) (W : gmap nat (list Q)) (j : nat) :
  formGLM_fullX core edges_ uniqueProteins0 obsGrps numAAs "classifier" = Some (X, G) →
  formGLM_trainW pwms_ (group_members obsGrps) start rev "classifier"
    = Some (W_classifier W) →
  (∀ q row, q ∈ group_members obsGrps →
     oriented_row pwms_ start rev q j = Some row → length row = 4%nat) →
  (j < MWID)%nat →
  ∃ aa_pos M Yj Wj rows_,
    edges_ !! j = Some aa_pos
    ∧ X !! j = Some M
    ∧ formGLM_Y (group_members obsGrps) !! j = Some Yj
    ∧ W !! j = Some Wj
    ∧ length (rows M) = length Yj
    ∧ length Yj = length Wj
    ∧ Forall2 (λ q row, oriented_row pwms_ start rev q j = Some row)
        (group_members obsGrps) rows_
    ∧ ∀ i b p, (b < 4)%nat → group_members obsGrps !! i = Some p →
        ∃ x row wt,
          protein_row core numAAs aa_pos p x
          ∧ rows M !! (4 * i + b)%nat = Some x
          ∧ Yj !! (4 * i + b)%nat = Some (Z.of_nat b)
          ∧ oriented_row pwms_ start rev p j = Some row
          ∧ row !! b = Some wt
          ∧ Wj !! (4 * i + b)%nat = Some (wt / Qsum (concat rows_))%Q.
Proof.
  intros Hfull HW Hwide Hj.
  destruct (formGLM_fullX_spec _ _ _ _ _ _ _ _ Hfull) as [Hpos _].
  destruct (Hpos j Hj) as (aa_pos & M & He & HX & _ & xs & Hrows & HM).
  change (rows_per_protein "classifier") with 4%nat in HM.
  destruct (formGLM_trainW_classifier_rows _ _ _ _ _ _ HW Hj) as (rows_ & Hor & HWj).
  set (gm := group_members obsGrps) in *.
  assert (Hfour : Forall (λ row : list Q, length row = 4%nat) rows_).
  { apply Forall_forall. intros row Hrow.
    apply list_elem_of_lookup in Hrow as [i Hi].
    destruct (Forall2_lookup_r _ _ _ _ _ Hor Hi) as (q & Hq & Hrq).
    eapply Hwide; [|exact Hrq]. eapply list_elem_of_lookup_2, Hq. }
  assert (Hlen : length (concat rows_) = (4 * length gm)%nat).
  { rewrite (Forall2_length _ _ _ Hor). clear -Hfour.
    induction Hfour as [|row rows_ Hrow _ IH]; [reflexivity|].
    cbn [concat]. rewrite length_app, IH, Hrow. simpl. lia. }
  exists aa_pos, M, (py_repeat [0; 1; 2; 3] (length gm)),
    ((λ x, x / Qsum (concat rows_))%Q <$> concat rows_), rows_.
  split_and!; try assumption.
  - apply formGLM_Y_lookup, Hj.
  - rewrite HM, length_concat_replicate, py_repeat_length,
      <- (Forall2_length _ _ _ Hrows). simpl. lia.
  - rewrite py_repeat_length, length_fmap, Hlen. simpl. lia.
  - intros i b p Hb Hp.
    destruct (Forall2_lookup_l _ _ _ _ _ Hrows Hp) as (x & Hx & Hrow).
    destruct (Forall2_lookup_l _ _ _ _ _ Hor Hp) as (row & Hrowi & Horp).
    assert (Hrl : length row = 4%nat).
    { apply (Hwide p row); [|exact Horp]. eapply list_elem_of_lookup_2, Hp. }
    destruct (lookup_lt_is_Some_2 row b) as [wt Hwt]; [lia|].
    exists x, row, wt. rewrite (Nat.mul_comm 4 i).
    split_and!; try assumption.
    + rewrite HM, (lookup_concat_uniform _ 4)
        by (apply Forall_replicate_length || exact Hb).
      rewrite list_lookup_fmap, Hx. cbn [fmap option_fmap option_map mbind option_bind].
      apply lookup_replicate_2. exact Hb.
    + change 4%nat with (length [0; 1; 2; 3]) at 1.
      rewrite py_repeat_lookup by (try (simpl; lia); eapply lookup_lt_Some, Hp).
      destruct b as [|[|[|[|b]]]]; try reflexivity. lia.
    + rewrite list_lookup_fmap, (lookup_concat_uniform _ 4) by assumption.
      rewrite Hrowi. simpl. rewrite Hwt. reflexivity.
Qed.

Lemma training_samples_line_up_witness :
  ∃ M Yj Wj x,
    ex_design.1 !! 0%nat = Some M
    ∧ formGLM_Y (group_members ex_obsGrps) !! 0%nat = Some Yj
    ∧ ex_trainW !! 0%nat = Some Wj
    ∧ rows M !! 6%nat = Some x
    ∧ Yj !! 6%nat = Some 2.
Proof.
  destruct (training_samples_line_up ex_core ex_edges ex_uniqueProteins ex_obsGrps
              numAAs_default ex_design.1 ex_design.2 ex_pwms ex_registers ex_registers
              ex_trainW 0)
    as (aa_pos & M & Yj & Wj & rows_ & _ & HX & HY & HW & _ & _ & _ & Hsample).
  - vm_compute. reflexivity.
  - vm_compute. reflexivity.
  - intros q row Hq Hrow.
    apply elem_of_cons in Hq as [->|Hq]; [|apply list_elem_of_singleton in Hq as ->];
      vm_compute in Hrow; injection Hrow as <-; reflexivity.
  - unfold MWID. lia.
  - destruct (Hsample 1%nat 2%nat "p2") as (x & row & wt & _ & Hx & Hy & _);
      [lia|reflexivity|].
    exists M, Yj, Wj, x. split_and!; assumption.
Defined.

(** ** The keys of the register dicts *)

Section RegisterKeys.

Context `{Libraries}.

Lemma initStarts_keys uniqueProteins pwms_ mWid (fixedStarts : gmap string (Z * Z)) w :
  wp (initStarts uniqueProteins pwms_ mWid fixedStarts)
     (λ '(start, rev) w',
        start ≠ rev ∧ heap_keys (list_to_set uniqueProteins) start rev w') w.
Proof.
  unfold initStarts.
  apply wp_bind, wp_new_dict. intros start Hstart.
  apply wp_bind, wp_new_dict. intros rev Hrev. simpl in Hrev.
  assert (Hne : start ≠ rev).
  { intros ->. by rewrite lookup_insert_eq in Hrev. }
  apply wp_bind. eapply wp_mono.
  { apply (wp_cfor (λ done _ w', heap_keys (list_to_set done) start rev w')).
    - exists ∅, ∅. simpl. rewrite lookup_insert_ne, !lookup_insert_eq by done.
      split_and!; try done; apply dom_empty_L.
    - intros done k [] w1 _ (sd & rd & Hsd & Hrd & Hds & Hdr).
      assert (Hkeys : ∀ (d : gmap string Z) v,
                dom d = list_to_set done →
                dom (<[k := v]> d) = list_to_set (done ++ [k])).
      { intros d v Hd. rewrite dom_insert_L, Hd, list_to_set_app_L. simpl.
        rewrite union_empty_r_L. apply (comm_L (∪)). }
      destruct (fixedStarts !! k) as [[fs0 fr0]|] eqn:Hk.
      + apply wp_bind, wp_setitem. intros d Hd. simplify_eq.
        apply wp_setitem. simpl. intros d' Hd'.
        rewrite lookup_insert_ne in Hd' by done. simplify_eq.
        exists (<[k := fs0]> sd), (<[k := fr0]> rd). simpl.
        rewrite lookup_insert_eq, lookup_insert_ne, lookup_insert_eq by done.
        split_and!; try done; by apply Hkeys.
      + apply wp_bind, wp_draw. intros r g Hr.
        apply wp_bind, wp_setitem. simpl. intros d Hd. simplify_eq.
        apply wp_bind, wp_lift. intros pwm Hpwm.
        apply wp_bind, wp_draw. simpl. intros s g' Hs.
        apply wp_setitem. simpl. intros d' Hd'.
        rewrite lookup_insert_ne in Hd' by done. simplify_eq.
        exists (<[k := s]> sd), (<[k := r]> rd). simpl.
        rewrite lookup_insert_eq, lookup_insert_ne, lookup_insert_eq by done.
        split_and!; try done; by apply Hkeys. }
  intros [] w' Hinv. by apply wp_ret.
Qed.

Variable inp : chain_inputs.

Lemma resample_protein_keys D model start rev p st w :
  start ≠ rev →
  heap_keys D start rev w →
  wp (resample_protein inp model start rev p st) (λ _ w', heap_keys D start rev w') w.
Proof.
  intros Hne Hkeys. unfold resample_protein. destruct st as [valuesChanged index_p].
  destruct (decide (is_Some (fixedStarts inp !! p))) as [Hpin|Hfree].
  { apply wp_ret. done. }
  apply wp_bind, wp_lift. intros testX _.
  apply wp_bind, wp_draw. intros [[s r] lls] g _.
  destruct Hkeys as (sd & rd & Hsd & Hrd & Hds & Hdr).
  apply wp_bind, wp_deref. intros startd Hstartd. simpl in Hstartd.
  rewrite Hsd in Hstartd. injection Hstartd as <-.
  apply wp_bind, wp_lift. intros sp Hsp.
  assert (Hp : p ∈ D) by (rewrite <- Hds; apply elem_of_dom; eauto).
  set (w1 := mk_world g (w_heap w)).
  apply wp_bind.
  apply (wp_mono _ (λ _ w', w' = w1)).
  { destruct (decide (s ≠ sp)).
    - by apply wp_ret.
    - apply wp_bind, wp_deref. intros revd _.
      apply wp_bind, wp_lift. intros rp _. by apply wp_ret. }
  intros changed w' Hw'. simpl in Hw'. subst w'.
  apply wp_bind, wp_setitem. intros d Hd. simpl in Hd.
  rewrite Hsd in Hd. injection Hd as <-.
  apply wp_bind, wp_setitem. simpl. intros d' Hd'.
  rewrite lookup_insert_ne in Hd' by done.
  rewrite Hrd in Hd'. injection Hd' as <-.
  apply wp_ret.
  exists (<[p := s]> sd), (<[p := r]> rd). simpl.
  rewrite lookup_insert_eq, lookup_insert_ne, lookup_insert_eq by done.
  split_and!; try done; rewrite dom_insert_L, ?Hds, ?Hdr;
    apply subseteq_union_1_L, singleton_subseteq_l, Hp.
Qed.

Lemma gibbs_iteration_keys D ls w :
  v_start ls ≠ v_rev ls →
  heap_keys D (v_start ls) (v_rev ls) w →
  wp (gibbs_iteration inp ls)
     (λ ls' w', v_start ls' = v_start ls ∧ v_rev ls' = v_rev ls
                ∧ heap_keys D (v_start ls) (v_rev ls) w') w.
Proof.
  intros Hne Hkeys. unfold gibbs_iteration.
  apply wp_bind. eapply wp_mono.
  { apply (wp_cfor (λ _ _ w', heap_keys D (v_start ls) (v_rev ls) w')).
    - exact Hkeys.
    - intros done [grpID members] st1 w1 _ Hinv.
      unfold sweep_group. destruct st1 as [valuesChanged model0].
      apply wp_bind, wp_lift. intros [startInd_ho endIndex_ho] _.
      apply wp_bind, wp_lift. intros trainX _.
      apply wp_bind, wp_deref. intros startd _.
      apply wp_bind, wp_deref. intros revd _.
      apply wp_bind, wp_lift. intros trainW _.
      apply wp_bind, wp_lift. intros model _.
      apply wp_bind. eapply wp_mono.
      { apply (wp_cfor (λ _ _ w', heap_keys D (v_start ls) (v_rev ls) w')).
        - exact Hinv.
        - intros done' p st2 w2 _ Hinv2.
          apply resample_protein_keys; assumption. }
      intros [vc ip] w' Hk. by apply wp_ret. }
  intros [valuesChanged model] w1 Hk1.
  apply wp_bind. eapply wp_mono; [apply sweep_ll_world|].
  intros ll w2 Hw2. simpl in Hw2. subst w2.
  apply wp_bind. apply (wp_mono _ (λ _ w', w' = w1)).
  { destruct (verbose inp).
    - apply wp_bind, wp_deref. intros startd _.
      apply wp_bind, wp_deref. intros revd _.
      by apply wp_lift.
    - by apply wp_ret. }
  intros u w3 Hw3. simpl in Hw3. subst w3.
  destruct (Qltb (v_bestll ls) ll).
  - apply wp_bind, wp_lift. intros n Hn. apply wp_ret. done.
  - apply wp_bind, wp_lift. intros n Hn. apply wp_ret. done.
Qed.

Lemma gibbs_iterate_keys D (k : nat) ls w :
  v_start ls ≠ v_rev ls →
  heap_keys D (v_start ls) (v_rev ls) w →
  wp (gibbs_iterate inp k ls)
     (λ ls' w', v_start ls' = v_start ls ∧ v_rev ls' = v_rev ls
                ∧ heap_keys D (v_start ls) (v_rev ls) w') w.
Proof.
  revert ls w. induction k as [|k IH]; intros ls w Hne Hkeys.
  - apply wp_ret. done.
  - cbn [gibbs_iterate]. apply wp_bind.
    eapply wp_mono; [apply (gibbs_iteration_keys D ls w Hne Hkeys)|].
    intros ls1 w1 (Hs & Hr & Hk1). rewrite <- Hs, <- Hr in Hk1, Hne.
    eapply wp_mono; [apply (IH ls1 w1 Hne Hk1)|].
    intros ls2 w2 (Hs2 & Hr2 & Hk2). rewrite Hs2, Hr2. rewrite Hs, Hr in *. done.
Qed.

Lemma gibbs_loop_keys D (fuel : nat) ls w :
  v_start ls ≠ v_rev ls →
  heap_keys D (v_start ls) (v_rev ls) w →
  wp (gibbs_loop inp fuel ls)
     (λ ls' w', v_start ls' = v_start ls ∧ v_rev ls' = v_rev ls
                ∧ heap_keys D (v_start ls) (v_rev ls) w') w.
Proof.
  revert ls w. induction fuel as [|fuel IH]; intros ls w Hne Hkeys;
    cbn [gibbs_loop];
    destruct ((v_nIters ls <? maxIters inp) && negb (v_converged ls));
    try (apply wp_ret; done).
  - intros ls' w' Hrun. discriminate.
  - apply wp_bind.
    eapply wp_mono; [apply (gibbs_iteration_keys D ls w Hne Hkeys)|].
    intros ls1 w1 (Hs & Hr & Hk1). rewrite <- Hs, <- Hr in Hk1, Hne.
    eapply wp_mono; [apply (IH ls1 w1 Hne Hk1)|].
    intros ls2 w2 (Hs2 & Hr2 & Hk2). rewrite Hs2, Hr2. rewrite Hs, Hr in *. done.
Qed.

Lemma gibbs_init_keys w :
  init_oracle inp = false →
  wp (gibbs_init inp)
     (λ '(ls, _, _) w',
        v_start ls ≠ v_rev ls
        ∧ heap_keys (list_to_set (uniqueProteins inp)) (v_start ls) (v_rev ls) w') w.
Proof.
  intros Horacle. unfold gibbs_init.
  apply wp_bind.
  apply (wp_mono _ (λ '(start, rev) w',
      start ≠ rev ∧ heap_keys (list_to_set (uniqueProteins inp)) start rev w')).
  { unfold gibbs_registers. rewrite Horacle. apply initStarts_keys. }
  intros [start rev] w1 (Hne & sd & rd & Hsd & Hrd & Hds & Hdr).
  apply wp_bind, wp_deref. intros startd Hstartd.
  apply wp_bind, wp_deref. intros revd Hrevd.
  apply wp_bind, wp_lift. intros init_model _.
  apply wp_bind, wp_lift. intros init_PC_agree _.
  apply wp_bind, wp_lift. intros init_mse _.
  apply wp_bind. unfold deepcopy.
  apply wp_bind, wp_deref. intros d Hd.
  apply wp_new_dict. intros bestStart HbS.
  apply wp_bind. apply wp_bind, wp_deref. simpl. intros d' Hd'.
  apply wp_new_dict. simpl. intros bestRev HbR.
  apply wp_ret. simpl. split; [exact Hne|].
  assert (bestStart ≠ start) by congruence.
  assert (bestStart ≠ rev) by congruence.
  assert (bestRev ≠ bestStart).
  { intros ->. by rewrite lookup_insert_eq in HbR. }
  rewrite lookup_insert_ne in HbR by done.
  assert (bestRev ≠ start) by congruence.
  assert (bestRev ≠ rev) by congruence.
  exists sd, rd. simpl.
  rewrite !(lookup_insert_ne _ bestRev) by done.
  rewrite !(lookup_insert_ne _ bestStart) by done.
  done.
Qed.

(** X22. A chain initialised by [initStarts] has a register for every
    protein of [uniqueProteins] and for nothing else: after the
    initialisation, after every sweep and in the returned record the key sets
    of [start] and of [rev] are exactly the proteins of the list (a sweep
    only overwrites: [start[p]] of an unknown protein raises). *)
Theorem returned_registers_name_the_proteins :
  init_oracle inp = false →
  (∀ k ls w, after_sweeps inp k = Returned ls w →
     ∃ sd rd, current_registers ls w = Some (sd, rd)
              ∧ dom sd = list_to_set (uniqueProteins inp)
              ∧ dom rd = list_to_set (uniqueProteins inp))
  ∧ (∀ res w, gibbsSampleGLM inp = Returned res w →
       dom (res_start res) = list_to_set (uniqueProteins inp)
       ∧ dom (res_rev res) = list_to_set (uniqueProteins inp)).
Proof.
  intros Horacle. split.
  - intros k ls w Hrun. unfold after_sweeps in Hrun. unseed Hrun.
    apply chain_bind_returned in Hrun as ([[ls0 a0] b0] & w0 & Hinit & Hiter).
    destruct (gibbs_init_keys _ Horacle _ _ Hinit) as [Hne Hk0].
    destruct (gibbs_iterate_keys _ k ls0 w0 Hne Hk0 ls w Hiter)
      as (Hs & Hr & sd & rd & Hsd & Hrd & Hds & Hdr).
    exists sd, rd. split; [|done].
    unfold current_registers. rewrite Hs, Hr, Hsd. simpl. rewrite Hrd. reflexivity.
  - intros res w Hrun.
    apply gibbsSampleGLM_inv in Hrun
      as (ls0 & w0 & ls & a & b & w1 & Hinit & Hloop & Hfin).
    destruct (gibbs_init_keys _ Horacle _ _ Hinit) as [Hne Hk0].
    pose proof (gibbs_init_spec inp _ _ _ Hinit) as Hentry. simpl in Hentry.
    destruct (gibbs_loop_keys _ _ ls0 w0 Hne Hk0 ls w1 Hloop) as (Hs & Hr & Hk1).
    destruct (gibbs_loop_spec inp _ ls0 w0 (loop_entry_invariant inp _ _ Hentry)
                ls w1 Hloop) as (_ & Hrel & _).
    destruct (gibbs_finish_spec inp ls a b w1 res w Hfin) as (_ & HbS & HbR).
    destruct Hrel as (_ & _ & Hstep & Hbest).
    destruct Hbest as [[Hb1 Hb2]|(Hb1 & Hb2 & _)].
    + destruct Hk1 as (sd & rd & Hsd & Hrd & Hds & Hdr).
      rewrite Hb1, Hsd in HbS. rewrite Hb2, Hrd in HbR.
      injection HbS as <-. injection HbR as <-. done.
    + destruct Hentry as (_ & _ & _ & _ & Hn1 & Hn2 & Hn3 & Hn4
                          & sd & rd & Hsd & Hrd & HbS0 & HbR0 & _).
      destruct Hk0 as (sd' & rd' & Hsd' & Hrd' & Hds & Hdr).
      assert (sd' = sd) as -> by congruence.
      assert (rd' = rd) as -> by congruence.
      destruct (Hstep _ _ HbS0) as (d1 & Hd1 & Hsame1 & _).
      destruct (Hstep _ _ HbR0) as (d2 & Hd2 & Hsame2 & _).
      rewrite (Hsame1 Hn1 Hn2) in Hd1. rewrite (Hsame2 Hn3 Hn4) in Hd2.
      rewrite Hb1, Hd1 in HbS. rewrite Hb2, Hd2 in HbR.
      injection HbS as <-. injection HbR as <-. done.
Qed.

End RegisterKeys.

Lemma returned_registers_name_the_proteins_witness :
  ∃ res w,
    @gibbsSampleGLM libs_pinned (ex_inputs 2 ex_fixedStarts) = Returned res w
    ∧ dom (res_start res) = list_to_set ex_uniqueProteins.
Proof.
  assert (E : @chain_outcome libs_pinned (ex_inputs 2 ex_fixedStarts)
              = Some ((-222240 # 187)%Q, [("p1", 1); ("p2", 0)],
                      [("p1", 0); ("p2", 0)]))
    by (vm_compute; reflexivity).
  apply chain_outcome_returned in E as (res & w & Hrun & _).
  destruct (@returned_registers_name_the_proteins libs_pinned
              (ex_inputs 2 ex_fixedStarts) eq_refl) as [_ Hres].
  exists res, w. split; [exact Hrun | exact (proj1 (Hres res w Hrun))].
Defined.

(** ** formGLM_testX at the bounds *)

(** X23. [formGLM_testX] raises exactly when the design lacks one of the
    [MWID] window positions, whatever the index. For an index inside the
    matrix it returns rows [4*index .. 4*index+3]; for an index at or beyond
    the last protein it raises nothing and returns a matrix without rows. *)
Theorem formGLM_testX_bounds (X : gmap nat ndarray) (index : Z) :
  (is_Some (formGLM_testX X index "classifier")
   ↔ ∀ j, (j < MWID)%nat → is_Some (X !! j))
  ∧ ∀ testX j M,
      formGLM_testX X index "classifier" = Some testX →
      (j < MWID)%nat →
      X !! j = Some M →
      ∃ Mj, testX !! j = Some Mj
        ∧ ncols Mj = ncols M
        ∧ (0 ≤ index → 4 * index + 4 ≤ Z.of_nat (length (rows M)) →
           rows Mj = take 4 (drop (Z.to_nat (4 * index)) (rows M)))
        ∧ (Z.of_nat (length (rows M)) ≤ 4 * index → rows Mj = []).
Proof.
  assert (Hsome : ∀ testX, formGLM_testX X index "classifier" = Some testX →
            ∀ j, (j < MWID)%nat →
              ∃ M, X !! j = Some M
                   ∧ testX !! j = Some (np_row_slice M (4 * index) (4 * index + 4))).
  { intros testX Hrun j Hj. unfold formGLM_testX in Hrun.
    change (String.eqb "classifier" "classifier") with true in Hrun. cbv iota in Hrun.
    rewrite (for_ext _ _ (λ j acc,
               v ← (Xj ← X !! j; Some (np_row_slice Xj (4 * index) (4 * index + 4)));
               Some (<[j := v]> acc))) in Hrun
      by (intros j' acc; destruct (X !! j'); reflexivity).
    destruct (for_seq_insert _ _ _ Hrun j Hj) as (v & Hv & Hlook).
    apply bind_Some in Hv as (M & HM & [= <-]). eauto. }
  split.
  - split.
    + intros [testX Hrun] j Hj. destruct (Hsome testX Hrun j Hj) as (M & HM & _). eauto.
    + intros HX. destruct (formGLM_testX_spec X index HX) as (testX & -> & _). eauto.
  - intros testX j M Hrun Hj HM.
    destruct (Hsome testX Hrun j Hj) as (M' & HM' & Hlook).
    assert (M' = M) as -> by congruence.
    eexists. split; [exact Hlook|]. split; [reflexivity|].
    cbn [np_row_slice rows]. unfold py_slice, py_clip. split.
    + intros H0 Hfit.
      destruct (Z.leb_spec 0 (4 * index)); [|lia].
      destruct (Z.leb_spec 0 (4 * index + 4)); [|lia].
      rewrite !Z.min_r by lia.
      replace (Z.to_nat (4 * index + 4)) with (Z.to_nat (4 * index) + 4)%nat by lia.
      rewrite take_drop_commute. reflexivity.
    + intros Hbeyond.
      destruct (Z.leb_spec 0 (4 * index)); [|lia].
      destruct (Z.leb_spec 0 (4 * index + 4)); [|lia].
      rewrite !Z.min_l by lia. rewrite Nat2Z.id.
      apply drop_ge. rewrite length_take. lia.
Qed.
